(** * projectgen: the project assistant of [src/projectgen.py]

    A shallow embedding of the class [ProjectAssistant]: the materializer
    [_create_project], the inspector [_load_project_info], the edit
    protocol of [_process_file_edits], the terminal formatter
    [_format_terminal_text] and the loop body of [chat_mode], together
    with the properties of the specification that concern them; then
    the commands of the chat mode ([_get_project_files],
    [_list_project_files], [_read_file], [_show_help]), [__init__],
    [build_project] with [_initialize_git], [chat_mode] as a whole, the
    dispatch of the loop of [main] and the edit protocol with the [git]
    calls that follow an applied edit, with further properties of the
    code.

    Conventions of the embedding.
    - A Python [str] is the list of its characters; a character is an
      [ascii], read as a code point below 256.  The two status glyphs of
      [_process_file_edits] are kept as the bytes they have in the source
      file.
    - The file system is a finite map from normalized absolute locations
      to nodes (directory or regular file with its text).  There are no
      symbolic links, no permissions and no limits on names; every file
      holds text that can be decoded, stored as written (POSIX, no
      newline translation on write).
    - A [pathlib] path is the list of its segments below [/]; [..] is a
      segment like any other until the operating system resolves it.
    - A function that writes returns the file system it leaves and the
      exception it raises, if any; a function that only reads returns a
      sum.  What the runtime or a library supplies ([str(e)],
      [textwrap.fill], [json.load], the collaborator) is a variable of
      the section that uses it. *)

From Stdlib Require Import Ascii.
From Stdlib Require String.
From stdpp Require Import gmap strings list fin_maps.

Local Open Scope nat_scope.

(** ** Python strings *)

Abbreviation str := (list ascii).

Definition lit (s : string) : str := String.list_ascii_of_string s.

Definition nl : ascii := "010"%char.

Module PyStr.

(** [s[a:b]] for non-negative [a] and [b]; out-of-range bounds are
    clipped, and [b < a] gives the empty string. *)
Definition slice (s : str) (a b : nat) : str := take (b - a) (drop a s).

Fixpoint find_from (sub s : str) (i : nat) : option nat :=
  if bool_decide (sub `prefix_of` s) then Some i
  else match s with
       | [] => None
       | _ :: s' => find_from sub s' (S i)
       end.

(** [s.find(sub, start)]: the lowest index at or after [start] where
    [sub] occurs; [None] stands for [-1]. *)
Definition find (sub s : str) (start : nat) : option nat :=
  if decide (start ≤ length s) then find_from sub (drop start s) start
  else None.

(** Characters for which [str.isspace] holds, below code point 256. *)
Definition isspace (c : ascii) : bool :=
  let n := nat_of_ascii c in
  (9 <=? n) && (n <=? 13) || (28 <=? n) && (n <=? 32)
  || (n =? 133) || (n =? 160).

Fixpoint lstrip (s : str) : str :=
  match s with
  | c :: s' => if isspace c then lstrip s' else s
  | [] => []
  end.

Definition rstrip (s : str) : str := reverse (lstrip (reverse s)).

Definition strip (s : str) : str := rstrip (lstrip s).

(** [str.lower] on code points below 256: the letters A-Z and the
    Latin-1 capitals (all of 192..222 but the multiplication sign). *)
Definition lower_char (c : ascii) : ascii :=
  let n := nat_of_ascii c in
  if (65 <=? n) && (n <=? 90) || (192 <=? n) && (n <=? 222) && negb (n =? 215)
  then ascii_of_nat (n + 32) else c.

Definition lower (s : str) : str := map lower_char s.

Definition startswith (s p : str) : bool := bool_decide (p `prefix_of` s).

(** [s.split(sep)] for a one-character separator: never empty. *)
Fixpoint split (sep : ascii) (s : str) : list str :=
  match s with
  | [] => [[]]
  | c :: s' =>
      if decide (c = sep) then [] :: split sep s'
      else match split sep s' with
           | l :: ls => (c :: l) :: ls
           | [] => [[c]]
           end
  end.

(** [s.split(sep)[0]] for a separator of any length: the text before
    the first occurrence of [sep], the whole of [s] when there is none. *)
Definition before (sep s : str) : str :=
  match find sep s 0 with
  | Some i => take i s
  | None => s
  end.

(** [sep.join(parts)] *)
Fixpoint join (sep : str) (parts : list str) : str :=
  match parts with
  | [] => []
  | [p] => p
  | p :: ps => p ++ sep ++ join sep ps
  end.

(** The scan of [str.replace] for a non-empty [old]: [skip] counts the
    characters of a replaced occurrence still to pass over. *)
Fixpoint replace_scan (old new s : str) (skip : nat) : str :=
  match s with
  | [] => []
  | c :: s' =>
      match skip with
      | S k => replace_scan old new s' k
      | 0 =>
          if bool_decide (old `prefix_of` s)
          then new ++ replace_scan old new s' (length old - 1)
          else c :: replace_scan old new s' 0
      end
  end.

(** [s.replace(old, new)]: every non-overlapping occurrence, from the
    left; an empty [old] matches before every character and at the end. *)
Definition replace (old new s : str) : str :=
  match old with
  | [] => new ++ concat (map (λ c, c :: new) s)
  | _ => replace_scan old new s 0
  end.

(** [sub] occurs in [s] as a contiguous piece. *)
Definition occurs (sub s : str) : Prop := ∃ a b, s = a ++ sub ++ b.

(** A marker whose last character occurs nowhere else in it: it cannot
    overlap a copy of itself. *)
Definition unbordered (m : str) : Prop :=
  match reverse m with
  | [] => False
  | x :: m0 => x ∉ m0
  end.

End PyStr.

(** ** The file system and [pathlib] *)

Inductive node := Dir | File (text : str).

Inductive errno := ENOENT | ENOTDIR | EEXIST | EISDIR.

(** An [OSError] as raised by [os.mkdir] and [open]: its [errno] and the
    path the call was given. *)
Record OSError := { exc_errno : errno; exc_filename : list str }.

Global Instance node_eq_dec : EqDecision node.
Proof. solve_decision. Defined.
Global Instance errno_eq_dec : EqDecision errno.
Proof. solve_decision. Defined.
Global Instance OSError_eq_dec : EqDecision OSError.
Proof. solve_decision. Defined.

(** A pure path: the segments of an absolute path. *)
Abbreviation Path := (list str).

(** Locations are paths without [..]; the root [[]] is always a
    directory and never stored. *)
Abbreviation filesystem := (gmap (list str) node).

Module FS.

Definition dotdot : str := lit "..".
Definition dot : str := lit ".".

Definition node_at (fs : filesystem) (l : list str) : option node :=
  match l with
  | [] => Some Dir
  | _ => fs !! l
  end.

(** One component of a lookup, from the directory at [l]. *)
Definition step (l : list str) (s : str) : list str :=
  if decide (s = dotdot) then removelast l
  else if decide (s = dot ∨ s = []) then l
  else l ++ [s].

(** The lexical normal form of a path: what [os.path.realpath] and
    [Path.resolve] compute when nothing is a symbolic link. *)
Definition normalize (p : Path) : list str := foldl step [] p.

(** Path lookup: every component is looked up in a directory that has
    to exist. *)
Fixpoint walk (fs : filesystem) (l : list str) (segs : Path) : errno + list str :=
  match segs with
  | [] => inr l
  | s :: segs' =>
      match node_at fs l with
      | Some Dir => walk fs (step l s) segs'
      | Some (File _) => inl ENOTDIR
      | None => inl ENOENT
      end
  end.

(** [os.stat(p)] *)
Definition stat (fs : filesystem) (p : Path) : errno + node :=
  match walk fs [] p with
  | inl e => inl e
  | inr l => match node_at fs l with
             | Some n => inr n
             | None => inl ENOENT
             end
  end.

(** [Path.exists()] and [Path.is_dir()] *)
Definition exists_ (fs : filesystem) (p : Path) : bool :=
  match stat fs p with inr _ => true | inl _ => false end.

Definition is_dir (fs : filesystem) (p : Path) : bool :=
  match stat fs p with inr Dir => true | _ => false end.

(** [Path.parent]: lexical, the root is its own parent. *)
Definition parent (p : Path) : Path := removelast p.

(** The directory a last component is created in. *)
Definition lookup_parent (fs : filesystem) (p : Path) : errno + list str :=
  match walk fs [] (parent p) with
  | inl e => inl e
  | inr l => match node_at fs l with
             | Some Dir => inr l
             | Some (File _) => inl ENOTDIR
             | None => inl ENOENT
             end
  end.

Definition special (s : str) : bool :=
  bool_decide (s = dotdot ∨ s = dot ∨ s = []).

(** [os.mkdir(p)] *)
Definition os_mkdir (fs : filesystem) (p : Path) : errno + filesystem :=
  match last p with
  | None => inl EEXIST
  | Some s =>
      match lookup_parent fs p with
      | inl e => inl e
      | inr l =>
          if special s then inl EEXIST
          else match fs !! (l ++ [s]) with
               | Some _ => inl EEXIST
               | None => inr (<[l ++ [s] := Dir]> fs)
               end
      end
  end.

(** [Path.mkdir(parents=True, exist_ok=True)], on the reversed path so
    that the call on [Path.parent] is structural:
<<
    try:
        os.mkdir(self, mode)
    except FileNotFoundError:
        if not parents or self.parent == self:
            raise
        self.parent.mkdir(parents=True, exist_ok=True)
        self.mkdir(mode, parents=False, exist_ok=exist_ok)
    except OSError:
        if not exist_ok or not self.is_dir():
            raise
>> *)
Fixpoint mkdir_rev (fs : filesystem) (rp : list str) : filesystem * option OSError :=
  let p := reverse rp in
  match os_mkdir fs p with
  | inr fs' => (fs', None)
  | inl ENOENT =>
      match rp with
      | [] => (fs, Some {| exc_errno := ENOENT; exc_filename := p |})
      | _ :: rp' =>
          match mkdir_rev fs rp' with
          | (fs1, Some e) => (fs1, Some e)
          | (fs1, None) =>
              match os_mkdir fs1 p with
              | inr fs2 => (fs2, None)
              | inl ENOENT => (fs1, Some {| exc_errno := ENOENT; exc_filename := p |})
              | inl e =>
                  if is_dir fs1 p then (fs1, None)
                  else (fs1, Some {| exc_errno := e; exc_filename := p |})
              end
          end
      end
  | inl e =>
      if is_dir fs p then (fs, None)
      else (fs, Some {| exc_errno := e; exc_filename := p |})
  end.

Definition mkdir (fs : filesystem) (p : Path) : filesystem * option OSError :=
  mkdir_rev fs (reverse p).

(** [with open(p, "w") as f: f.write(text)]: the file is created or
    truncated, then holds [text]. *)
Definition write (fs : filesystem) (p : Path) (text : str) : filesystem * option OSError :=
  let raise e := (fs, Some {| exc_errno := e; exc_filename := p |}) in
  match last p with
  | None => raise EISDIR
  | Some s =>
      match lookup_parent fs p with
      | inl e => raise e
      | inr l =>
          if special s then raise EISDIR
          else match fs !! (l ++ [s]) with
               | Some Dir => raise EISDIR
               | _ => (<[l ++ [s] := File text]> fs, None)
               end
      end
  end.

(** [with open(p) as f: f.read()], without the newline translation of
    text mode. *)
Definition read (fs : filesystem) (p : Path) : OSError + str :=
  match stat fs p with
  | inl e => inl {| exc_errno := e; exc_filename := p |}
  | inr Dir => inl {| exc_errno := EISDIR; exc_filename := p |}
  | inr (File text) => inr text
  end.

(** The segments of a path given as text: empty segments and [.] are
    dropped, [..] is kept. *)
Definition parse_parts (s : str) : Path :=
  filter (λ x, x ≠ [] ∧ x ≠ dot) (PyStr.split "/"%char s).

Definition is_absolute (s : str) : bool := PyStr.startswith s (lit "/").

(** [p / s]: an absolute [s] replaces [p]. *)
Definition joinpath (p : Path) (s : str) : Path :=
  if is_absolute s then parse_parts s else p ++ parse_parts s.

(** The location [l] lies in the tree below [root], [root] included. *)
Definition inside (root l : list str) : Prop := root `prefix_of` l.

(** The locations that can be reached from [/]: all ancestors are
    directories. *)
Definition reachable (fs : filesystem) (l : list str) : bool :=
  bool_decide (walk fs [] l = inr l) && bool_decide (is_Some (fs !! l)).

(** [list(root.glob("**/*" + suffix))] is not empty: some entry strictly
    below [root] has a name ending in [suffix]. *)
Definition glob_suffix (fs : filesystem) (root : list str) (suffix : str) : bool :=
  existsb
    (λ kv, let l := kv.1 in
           bool_decide (root `prefix_of` l) && bool_decide (l ≠ root)
           && reachable fs l
           && match last l with
              | Some n => bool_decide (suffix `suffix_of` n)
              | None => false
              end)
    (map_to_list fs).

(** Directories are kept from [fs] to [fs']. *)
Definition dirs_le (fs fs' : filesystem) : Prop :=
  ∀ l, fs !! l = Some Dir → fs' !! l = Some Dir.

(** A file or directory name: not empty, not [.] or [..], no [/]. *)
Definition is_name (s : str) : Prop := special s = false ∧ "/"%char ∉ s.

End FS.

(** ** The project plan and its materialization *)

(** An item of [project_plan['structure']]: the keys [path], [type] and
    (optional) [content]. *)
Record PlanEntry := {
  entry_path : str;
  entry_type : str;
  entry_content : option str;
}.

(** The plan returned by the collaborator; [technologies] and
    [dependencies] are read with [.get(key, [])]. *)
Record ProjectPlan := {
  project_name : str;
  description : str;
  technologies : option (list str);
  dependencies : option (list str);
  structure : list PlanEntry;
}.

Definition plan_technologies (plan : ProjectPlan) : list str :=
  default [] (technologies plan).

Definition plan_dependencies (plan : ProjectPlan) : list str :=
  default [] (dependencies plan).

(** What the [f.write] calls on [README.md] add up to. *)
Definition readme_text (plan : ProjectPlan) : str :=
  lit "# " ++ project_name plan ++ [nl; nl] ++ description plan ++ [nl; nl]
  ++ lit "## Technologies" ++ [nl; nl]
  ++ concat (map (λ tech, lit "- " ++ tech ++ [nl]) (plan_technologies plan))
  ++ [nl] ++ lit "## Setup" ++ [nl; nl]
  ++ (if bool_decide (lit "python" ∈ plan_technologies plan)
      then lit "```bash" ++ [nl]
           ++ lit "# Create virtual environment" ++ [nl]
           ++ lit "python -m venv venv" ++ [nl]
           ++ lit "source venv/bin/activate  # On Windows: venv\Scripts\activate" ++ [nl; nl]
           ++ lit "# Install dependencies" ++ [nl]
           ++ lit "pip install -r requirements.txt" ++ [nl]
           ++ lit "```" ++ [nl]
      else []).

Definition requirements_text (plan : ProjectPlan) : str :=
  concat (map (λ dep, dep ++ [nl]) (plan_dependencies plan)).

(** [full_path.parent.mkdir(exist_ok=True, parents=True)] followed by
    [with open(full_path, "w") as f: f.write(text)] *)
Definition write_file (fs : filesystem) (full_path : Path) (text : str)
  : filesystem * option OSError :=
  match FS.mkdir fs (FS.parent full_path) with
  | (fs1, Some e) => (fs1, Some e)
  | (fs1, None) => FS.write fs1 full_path text
  end.

(** The body of the loop over [project_plan['structure']]. *)
Definition create_item (project_path : Path) (fs : filesystem) (item : PlanEntry)
  : filesystem * option OSError :=
  let full_path := FS.joinpath project_path (entry_path item) in
  if decide (entry_type item = lit "directory") then FS.mkdir fs full_path
  else if decide (entry_type item = lit "file")
       then write_file fs full_path (default [] (entry_content item))
       else (fs, None).

Fixpoint create_items (project_path : Path) (fs : filesystem) (items : list PlanEntry)
  : filesystem * option OSError :=
  match items with
  | [] => (fs, None)
  | item :: rest =>
      match create_item project_path fs item with
      | (fs1, Some e) => (fs1, Some e)
      | (fs1, None) => create_items project_path fs1 rest
      end
  end.

(** The location a file entry is written at. *)
Definition entry_target (project_path : Path) (item : PlanEntry) : list str :=
  FS.normalize (FS.joinpath project_path (entry_path item)).

(** [_create_project]: [confirm] is what [input] returns when the
    directory exists.  The result is the raised error, [None] for the
    declined overwrite, or the project path. *)
Definition _create_project (projects_dir : Path) (confirm : str)
    (fs : filesystem) (project_plan : ProjectPlan)
  : filesystem * (OSError + option Path) :=
  let project_path := FS.joinpath projects_dir (project_name project_plan) in
  if FS.exists_ fs project_path && bool_decide (PyStr.lower confirm ≠ lit "y")
  then (fs, inr None)
  else
    match FS.mkdir fs project_path with
    | (fs1, Some e) => (fs1, inl e)
    | (fs1, None) =>
        match FS.write fs1 (FS.joinpath project_path (lit "README.md"))
                (readme_text project_plan) with
        | (fs2, Some e) => (fs2, inl e)
        | (fs2, None) =>
            match
              (if bool_decide (lit "python" ∈ plan_technologies project_plan)
               then FS.write fs2 (FS.joinpath project_path (lit "requirements.txt"))
                      (requirements_text project_plan)
               else (fs2, None))
            with
            | (fs3, Some e) => (fs3, inl e)
            | (fs3, None) =>
                match create_items project_path fs3 (structure project_plan) with
                | (fs4, Some e) => (fs4, inl e)
                | (fs4, None) => (fs4, inr (Some project_path))
                end
            end
        end
    end.

(** ** The inspector *)

Record ProjectContext := {
  current_project_path : Path;
  current_project_name : str;
  current_project_technologies : list str;
}.

(** [technologies.append(dep)] guarded by [dep not in technologies]. *)
Definition append_new (techs : list str) (dep : str) : list str :=
  if bool_decide (dep ∈ techs) then techs else techs ++ [dep].

(** The lines a text file iterates over, in universal-newlines mode:
    [\r\n] and [\r] end a line like [\n]; the terminator is left out
    here, [strip] would remove it. *)
Fixpoint text_lines_from (s : str) (cur : str) : list str :=
  match s with
  | [] => match cur with [] => [] | _ => [reverse cur] end
  | c :: s' =>
      if decide (c = nl) then reverse cur :: text_lines_from s' []
      else if decide (c = "013"%char)
           then match s' with
                | c' :: s'' =>
                    if decide (c' = nl) then reverse cur :: text_lines_from s'' []
                    else reverse cur :: text_lines_from s' []
                | [] => [reverse cur]
                end
           else text_lines_from s' (c :: cur)
  end.

Definition text_lines (s : str) : list str := text_lines_from s [].

(** [line.strip().split("==")[0].split(">=")[0]] *)
Definition requirement_name (line : str) : str :=
  PyStr.before (lit ">=") (PyStr.before (lit "==") (PyStr.strip line)).

Definition add_requirement (techs : list str) (line : str) : list str :=
  let dep := requirement_name line in
  if bool_decide (dep ≠ []) then append_new techs dep else techs.

Section Inspector.

(** The keys of ["dependencies"] in the object [json.load] reads from
    [package.json]; [[]] when the text is not such an object. *)
Variable package_dependencies : str → list str.

(** [_load_project_info]: [None] is the [False] of the source. *)
Definition _load_project_info (fs : filesystem) (project_path : Path)
  : option ProjectContext :=
  let project_path := FS.normalize project_path in
  if negb (FS.exists_ fs project_path && FS.is_dir fs project_path) then None
  else
    let techs0 : list str := [] in
    let techs1 :=
      if FS.exists_ fs (FS.joinpath project_path (lit "package.json"))
      then
        let techs := techs0 ++ [lit "javascript"; lit "node"] in
        match FS.read fs (FS.joinpath project_path (lit "package.json")) with
        | inr text => foldl append_new techs (package_dependencies text)
        | inl _ => techs
        end
      else techs0 in
    let techs2 :=
      if FS.exists_ fs (FS.joinpath project_path (lit "requirements.txt"))
      then
        let techs := techs1 ++ [lit "python"] in
        match FS.read fs (FS.joinpath project_path (lit "requirements.txt")) with
        | inr text => foldl add_requirement techs (text_lines text)
        | inl _ => techs
        end
      else techs1 in
    let techs3 :=
      match techs2 with
      | [] =>
          let py := if FS.glob_suffix fs project_path (lit ".py")
                    then [lit "python"] else [] in
          let js := if FS.glob_suffix fs project_path (lit ".js")
                    then [lit "javascript"] else [] in
          match py ++ js with
          | [] => [lit "unknown"]
          | techs => techs
          end
      | _ => techs2
      end in
    Some {| current_project_path := project_path;
            current_project_name := default [] (last project_path);
            current_project_technologies := techs3 |}.

End Inspector.

(** The manifest of the scenario: two requirement lines. *)
Definition flask_requests_manifest : str :=
  lit "flask==2.0.1" ++ [nl] ++ lit "requests>=2.0" ++ [nl].

(** ** The edit protocol *)

Definition FILE_EDIT : str := lit "FILE_EDIT: ".
Definition END_FILE_EDIT : str := lit "END_FILE_EDIT".

(** A well-formed directive: the marker, the path line, the content and
    the closing marker. *)
Definition directive (p c : str) : str :=
  FILE_EDIT ++ p ++ nl :: c ++ END_FILE_EDIT.

(** [k] times [../] *)
Definition dotdots (k : nat) : str := concat (replicate k (lit "../")).

Inductive EditOutcome := Applied | Failed (e : OSError).

(** What one pass of the loop of [_process_file_edits] extracted and
    did: the path and the content it read, the slice of the response it
    replaced, and how the write ended.  The source keeps no such
    record; it is kept here to state what the loop consumed. *)
Record Edit := {
  edit_path : str;
  edit_content : str;
  edit_span : nat * nat;
  edit_outcome : EditOutcome;
}.

Record EditState := {
  st_fs : filesystem;
  edited_response : str;
  st_log : list Edit;
}.

Section Edits.

(** [str(e)] for the exception [e]: the text is the runtime's. *)
Variable str_exc : OSError → str.

(** [self.current_project_path] *)
Variable current_project_path : Path.

Definition applied_status (file_path_str : str) : str :=
  lit "ðŸ”„ APPLIED CHANGES TO: " ++ file_path_str ++ lit " ðŸ”„".

Definition error_status (file_path_str : str) (e : OSError) : str :=
  lit "âŒ ERROR UPDATING " ++ file_path_str ++ lit ": " ++ str_exc e ++ lit " âŒ".

Definition status (file_path_str : str) (o : EditOutcome) : str :=
  match o with
  | Applied => applied_status file_path_str
  | Failed e => error_status file_path_str e
  end.

(** The [try] block for one directive: the write of the file (the
    [git] calls that follow it leave the working tree alone and their
    failures are ignored). *)
Definition apply_edit (fs : filesystem) (file_path_str file_content : str)
  : filesystem * EditOutcome :=
  let full_path := FS.joinpath current_project_path file_path_str in
  match write_file fs full_path file_content with
  | (fs', None) => (fs', Applied)
  | (fs', Some e) => (fs', Failed e)
  end.

(** One pass of the [while] loop, entered with [file_edit_start]:
    [None] is a [break], otherwise the new state and the next
    [file_edit_start]. *)
Definition edit_step (response : str) (st : EditState) (file_edit_start : nat)
  : option (EditState * option nat) :=
  match PyStr.find [nl] response file_edit_start with
  | None => None
  | Some file_path_end =>
      let file_path_str :=
        PyStr.strip (PyStr.slice response (file_edit_start + 11) file_path_end) in
      match PyStr.find END_FILE_EDIT response file_path_end with
      | None => None
      | Some file_edit_end =>
          let file_content :=
            PyStr.strip (PyStr.slice response (file_path_end + 1) file_edit_end) in
          let '(fs', outcome) := apply_edit (st_fs st) file_path_str file_content in
          let edited :=
            PyStr.replace
              (PyStr.slice response file_edit_start (file_edit_end + 14))
              (status file_path_str outcome)
              (edited_response st) in
          Some ({| st_fs := fs';
                   edited_response := edited;
                   st_log := st_log st ++
                     [{| edit_path := file_path_str;
                         edit_content := file_content;
                         edit_span := (file_edit_start, file_edit_end + 14);
                         edit_outcome := outcome |}] |},
                PyStr.find FILE_EDIT response file_edit_end)
      end
  end.

(** The state a pass over the directive [directive p c], found at
    [start] and followed by [next], leaves. *)
Definition after_directive (st : EditState) (start : nat) (p c next : str)
  : EditState :=
  let path := PyStr.strip p in
  let content := PyStr.strip c in
  let fo := apply_edit (st_fs st) path content in
  {| st_fs := fo.1;
     edited_response :=
       PyStr.replace (directive p c ++ take 1 next)
         (status path fo.2) (edited_response st);
     st_log := st_log st ++
       [{| edit_path := path;
           edit_content := content;
           edit_span := (start, start + length (directive p c) + 1);
           edit_outcome := fo.2 |}] |}.

(** The [while file_edit_start != -1] loop; every pass moves
    [file_edit_start] forward, so [fuel] above the length of the
    response is never used up. *)
Fixpoint edit_loop (fuel : nat) (response : str) (st : EditState)
    (file_edit_start : option nat) : EditState :=
  match fuel, file_edit_start with
  | S fuel', Some start =>
      match edit_step response st start with
      | Some (st', next) => edit_loop fuel' response st' next
      | None => st
      end
  | _, _ => st
  end.

Definition _process_file_edits (fs : filesystem) (response : str) : EditState :=
  edit_loop (S (length response)) response
    {| st_fs := fs; edited_response := response; st_log := [] |}
    (PyStr.find FILE_EDIT response 0).

(** The instructions a response yields: path and content of every
    directive the loop consumed, in the order it consumed them. *)
Definition instructions (st : EditState) : list (str * str) :=
  map (λ e, (edit_path e, edit_content e)) (st_log st).

(** The file system after the instructions [instrs], applied one after
    the other whatever the outcome of each. *)
Definition apply_all (fs : filesystem) (instrs : list (str * str)) : filesystem :=
  foldl (λ fs' i, (apply_edit fs' i.1 i.2).1) fs instrs.

End Edits.

(** ** The terminal formatter *)

Definition fence : str := lit "```".
Definition esc : ascii := "027"%char.
Definition bold (s : str) : str := esc :: lit "[1m" ++ s ++ esc :: lit "[0m".

Record FormatState := {
  result : list str;
  in_code_block : bool;
  code_lines : list str;
}.

(** A line that opens or closes a code block. *)
Definition is_fence (line : str) : bool :=
  PyStr.startswith (PyStr.strip line) fence.

(** The line put out when a code block opens. *)
Definition opening_banner (line : str) : str :=
  let lang := PyStr.strip (drop 3 (PyStr.strip line)) in
  if bool_decide (lang ≠ [])
  then nl :: bold (lit "# " ++ lang ++ lit " code:")
  else nl :: bold (lit "# Code:").

Section Format.

(** [textwrap.fill(line, width=80)] *)
Variable fill : str → str.

(** The body of the loop over [text.split('\n')]. *)
Definition format_line (st : FormatState) (line : str) : FormatState :=
  if PyStr.startswith (PyStr.strip line) fence then
    let in_code_block := negb (in_code_block st) in
    if in_code_block then
      let lang := PyStr.strip (drop 3 (PyStr.strip line)) in
      {| result := result st ++
           [if bool_decide (lang ≠ [])
            then nl :: bold (lit "# " ++ lang ++ lit " code:")
            else nl :: bold (lit "# Code:")];
         in_code_block := in_code_block;
         code_lines := code_lines st |}
    else
      {| result := result st ++
           [nl :: PyStr.join [nl] (code_lines st);
            bold (lit "# End of code") ++ [nl]];
         in_code_block := in_code_block;
         code_lines := [] |}
  else if in_code_block st then
    {| result := result st;
       in_code_block := in_code_block st;
       code_lines := code_lines st ++ [line] |}
  else
    {| result := result st ++
         [if bool_decide (PyStr.strip line ≠ []) then fill line else line];
       in_code_block := in_code_block st;
       code_lines := code_lines st |}.

Definition format_lines (lines : list str) : FormatState :=
  foldl format_line
    {| result := []; in_code_block := false; code_lines := [] |} lines.

Definition _format_terminal_text (text : str) : str :=
  PyStr.join [nl] (result (format_lines (PyStr.split nl text))).

End Format.

(** ** The chat loop *)

Inductive Role := System | User | Assistant.

Record Message := { role : Role; content : str }.

Record Session := {
  messages : list Message;
  session_fs : filesystem;
}.

(** What one pass of the [while True] loop of [chat_mode] leaves: the
    loop is left, or it goes on with a session and, after a round with
    the collaborator, the text that was printed for it. *)
Inductive Turn :=
  | Break
  | Continue (s : Session) (printed : option str).

Section Chat.

Variable str_exc : OSError → str.
Variable fill : str → str.
Variable current_project_path : Path.

(** [self.client.chat.completions.create(...)] followed by
    [response.choices[0].message.content]: the text of the reply, or
    [None] when the call raises or there is no text. *)
Variable completion : list Message → option str.

(** The body of the [while True] loop; [user_input] is [None] when
    [input] raises [KeyboardInterrupt] or [EOFError].  What the
    commands [@files], [@read] and [@help] print is left out. *)
Definition chat_turn (s : Session) (user_input : option str) : Turn :=
  match user_input with
  | None => Break
  | Some user_input =>
      let cmd := PyStr.lower user_input in
      if bool_decide (cmd ∈ [lit "@exit"; lit "@quit"; lit "@bye"]) then Break
      else if bool_decide (cmd = lit "@files") then Continue s None
      else if PyStr.startswith cmd (lit "@read ") then Continue s None
      else if bool_decide (cmd = lit "@help") then Continue s None
      else
        let msgs := messages s ++ [{| role := User; content := user_input |}] in
        match completion msgs with
        | None => Continue {| messages := msgs; session_fs := session_fs s |} None
        | Some assistant_response =>
            let st := _process_file_edits str_exc current_project_path
                        (session_fs s) assistant_response in
            Continue
              {| messages := msgs ++
                   [{| role := Assistant; content := assistant_response |}];
                 session_fs := st_fs st |}
              (Some (_format_terminal_text fill (edited_response st)))
        end
  end.

(** The loop over the inputs the user gives one after the other. *)
Fixpoint chat_loop (s : Session) (inputs : list (option str)) : Session :=
  match inputs with
  | [] => s
  | i :: rest =>
      match chat_turn s i with
      | Break => s
      | Continue s' _ => chat_loop s' rest
      end
  end.

End Chat.

(** ** The commands of the chat mode *)


(** No name of the file system holds a [/]. *)
Definition well_named (fs : filesystem) : bool :=
  forallb (λ kv : list str * node,
             forallb (λ s, negb (bool_decide ("/"%char ∈ s))) kv.1)
    (map_to_list fs).

(** [_get_project_files]: [os.walk] visits the directories below
    [current_project_path] (nothing, when that is no directory) and
    gives the regular files of each; a file whose name starts with [.]
    is skipped, a hidden directory is not.  [os.path.relpath] gives the
    segments below the top, joined by [/].  The order of the list is
    that of the map: the order of [os.scandir] is the file system's
    own. *)
Definition _get_project_files (fs : filesystem) (current_project_path : Path)
  : list str :=
  match FS.walk fs [] current_project_path with
  | inl _ => []
  | inr top =>
      omap (λ kv : list str * node,
              match kv.2, last kv.1 with
              | File _, Some file =>
                  if bool_decide (top `prefix_of` kv.1)
                     && bool_decide (kv.1 ≠ top)
                     && FS.reachable fs kv.1
                     && negb (PyStr.startswith file (lit "."))
                  then Some (PyStr.join (lit "/") (drop (length top) kv.1))
                  else None
              | _, _ => None
              end)
        (map_to_list fs)
  end.


Section Commands.

Variable str_exc : OSError → str.


End Commands.


Section CommandOutput.

Variable str_exc : OSError → str.


End CommandOutput.

(** ** The interactive loop of [main] *)

(** The branch a line of input takes in the loop of [main]. *)
Inductive MainCommand :=
  | MainExit
  | MainBuild (prompt : str)
  | MainBuildNoPrompt
  | MainChat (project_path : option str)
  | MainHelp
  | MainUnknown.

Definition main_command (user_input : str) : MainCommand :=
  let cmd := PyStr.lower user_input in
  if bool_decide (cmd ∈ [lit "@exit"; lit "@quit"; lit "@bye"]) then MainExit
  else if PyStr.startswith cmd (lit "@build ")
  then
    let prompt := PyStr.strip (drop 7 user_input) in
    if bool_decide (prompt ≠ []) then MainBuild prompt else MainBuildNoPrompt
  else if PyStr.startswith cmd (lit "@chat ")
  then
    let project_path := PyStr.strip (drop 6 user_input) in
    if bool_decide (project_path ≠ []) then MainChat (Some project_path)
    else MainChat None
  else if bool_decide (cmd = lit "@help") then MainHelp
  else MainUnknown.

(** ** Setting up the assistant *)

(** The variables of [os.environ] that [__init__] reads, set or not. *)
Record Environ := {
  OPENAI_API_KEY : option str;
  PROJECT_GEN_DIR : option str;
  HOME : option str;
}.

(** [a or b] for values that are a string or [None]: [a] when it is a
    string that is not empty. *)
Definition py_or (a b : option str) : option str :=
  match a with
  | Some (_ :: _) => a
  | _ => b
  end.

(** [s.rstrip('/')] *)
Fixpoint lstrip_slash (s : str) : str :=
  match s with
  | c :: s' => if decide (c = "/"%char) then lstrip_slash s' else s
  | [] => []
  end.

Definition rstrip_slash (s : str) : str := reverse (lstrip_slash (reverse s)).

(** [os.path.expanduser("~/projects")]: the home directory is [$HOME]
    or, when that is not set, the one of the password database
    ([pw_dir], [None] when the user has no entry there). *)
Definition expanduser_projects (environ : Environ) (pw_dir : option str) : str :=
  match (match HOME environ with Some h => Some h | None => pw_dir end) with
  | Some userhome => rstrip_slash userhome ++ lit "/projects"
  | None => lit "~/projects"
  end.

(** The attributes of a [ProjectAssistant].  [current_project_path],
    [current_project_name] and [current_project_technologies] are set
    together ([None], [None] and [[]] until then): [current_project] is
    [None] until a project is built or loaded. *)
Record ProjectAssistant := {
  api_key : str;
  model : str;
  projects_dir : Path;
  current_project : option ProjectContext;
  assistant_messages : list Message;
}.

Inductive InitError :=
  | NoApiKey
  | InitOSError (e : OSError).

(** [ProjectAssistant.__init__]: the arguments are a string or [None];
    a relative projects directory is taken from the working directory
    [cwd].  The result is the [ValueError] for a missing key, the
    [OSError] of [mkdir], or the new object. *)
Definition __init__ (api_key_arg projects_dir_arg : option str) (model_arg : str)
    (environ : Environ) (pw_dir : option str) (cwd : Path) (fs : filesystem)
  : filesystem * (InitError + ProjectAssistant) :=
  match py_or api_key_arg (OPENAI_API_KEY environ) with
  | Some ((_ :: _) as key) =>
      let dir :=
        default []
          (py_or projects_dir_arg
             (Some (default (expanduser_projects environ pw_dir)
                      (PROJECT_GEN_DIR environ)))) in
      let projects_dir := FS.joinpath cwd dir in
      match FS.mkdir fs projects_dir with
      | (fs', Some e) => (fs', inl (InitOSError e))
      | (fs', None) =>
          (fs', inr {| api_key := key; model := model_arg;
                       projects_dir := projects_dir;
                       current_project := None;
                       assistant_messages := [] |})
      end
  | _ => (fs, inl NoApiKey)
  end.

(** ** Building a project *)

(** The text [_initialize_git] writes to [.gitignore]. *)
Definition gitignore_content : str :=
  PyStr.join [nl]
    [ [];
      lit "# Python";
      lit "__pycache__/";
      lit "*.py[cod]";
      lit "*$py.class";
      lit "*.so";
      lit ".Python";
      lit "venv/";
      lit "ENV/";
      lit "env/";
      lit ".env";
      lit ".venv";
      lit "build/";
      lit "develop-eggs/";
      lit "dist/";
      lit "downloads/";
      lit "eggs/";
      lit ".eggs/";
      lit "lib/";
      lit "lib64/";
      lit "parts/";
      lit "sdist/";
      lit "var/";
      lit "wheels/";
      lit "*.egg-info/";
      [];
      lit "# Node.js";
      lit "node_modules/";
      lit "npm-debug.log";
      lit "yarn-error.log";
      lit "yarn-debug.log";
      lit "package-lock.json";
      [];
      lit "# IDE";
      lit ".idea/";
      lit ".vscode/";
      lit "*.swp";
      lit "*.swo";
      [];
      lit "# OS";
      lit ".DS_Store";
      lit ".DS_Store?";
      lit "._*";
      lit ".Spotlight-V100";
      lit ".Trashes";
      lit "ehthumbs.db";
      lit "Thumbs.db";
      lit "            " ].


Section Build.

(** [subprocess.run(["git", ...], cwd=cwd, check=True)]: the file system
    the command leaves, and whether it returned ([false] when the call
    raises: git is missing, or exits with an error). *)
Variable git : list str → Path → filesystem → filesystem * bool.

(** [_initialize_git]: [false] is what the [except] branch returns. *)
Definition _initialize_git (fs : filesystem) (project_path : Path)
  : filesystem * bool :=
  match git [lit "git"; lit "init"] project_path fs with
  | (fs1, false) => (fs1, false)
  | (fs1, true) =>
      match FS.write fs1 (FS.joinpath project_path (lit ".gitignore"))
              gitignore_content with
      | (fs2, Some _) => (fs2, false)
      | (fs2, None) =>
          match git [lit "git"; lit "add"; lit "."] project_path fs2 with
          | (fs3, false) => (fs3, false)
          | (fs3, true) =>
              git [lit "git"; lit "commit"; lit "-m";
                   lit "Initial commit: Project scaffolding"] project_path fs3
          end
      end
  end.


End Build.

(** ** The chat mode *)

Definition quote : ascii := "034"%char.

(** The system message of [chat_mode]: the text of the source, with the
    project name, the technologies, the project path and the file
    listing put in. *)
Definition system_prompt (name tech_string path file_listing : str) : str :=
  lit "You are a helpful AI coding assistant for a project " ++ lit "called '"
  ++ name ++ lit "' " ++ [nl]
  ++ lit "            using " ++ tech_string ++ lit ". The project is located at "
  ++ path ++ lit "." ++ [nl]
  ++ lit "            " ++ [nl]
  ++ lit "            Project files:" ++ [nl]
  ++ lit "            " ++ file_listing ++ [nl]
  ++ lit "            " ++ [nl]
  ++ lit "            The user may report issues or request changes "
  ++ lit "to the code. You can suggest solutions and DIRECTLY "
  ++ lit "MODIFY FILES " ++ [nl]
  ++ lit "            when instructed to do so." ++ [nl]
  ++ lit "            " ++ [nl]
  ++ lit "            When modifying files:" ++ [nl]
  ++ lit "            1. Be precise about which file you're editing" ++ [nl]
  ++ lit "            2. If creating a new file, mention that "
  ++ lit "explicitly" ++ [nl]
  ++ lit "            3. Make only the necessary changes to fix the "
  ++ lit "issue" ++ [nl]
  ++ lit "            4. Explain what changes you made and why" ++ [nl]
  ++ lit "            " ++ [nl]
  ++ lit "            When the user asks you to edit a file, "
  ++ lit "respond in this format:" ++ [nl]
  ++ lit "            1. Brief explanation of what changes you're "
  ++ lit "making" ++ [nl]
  ++ lit "            2. Start the file edit with " ++ [quote]
  ++ lit "FILE_EDIT: [filepath]" ++ [quote] ++ [nl]
  ++ lit "            3. Include the COMPLETE new file content, not "
  ++ lit "just the changes" ++ [nl]
  ++ lit "            4. End with " ++ [quote] ++ lit "END_FILE_EDIT" ++ [quote]
  ++ [nl]
  ++ lit "            5. Explain the changes and what they'll fix" ++ [nl]
  ++ lit "            " ++ [nl]
  ++ lit "            Keep your answers concise but complete. "
  ++ lit "Assume the user is working on macOS in the terminal." ++ [nl]
  ++ lit "            ".

(** The greeting that opens the history. *)
Definition greeting (name path : str) : str :=
  lit "I'm your coding assistant for the " ++ name ++ lit " project at "
  ++ path ++ lit ". I can help you with code issues and make direct changes "
  ++ lit "to your files. What would you like to discuss or modify?".

Section ChatMode.

Variable str_exc : OSError → str.
Variable fill : str → str.
Variable completion : list Message → option str.
Variable package_dependencies : str → list str.

(** [str(path)] for a [pathlib] path. *)
Variable path_str : Path → str.

(** [chat_mode]: [project_path] is the argument, a string or [None], and
    [cwd] the working directory a relative path is resolved from;
    [inputs] is what the user types.  [None] is the [return False] of
    the source; otherwise the object and the file system when the loop
    is left.  What is printed is left out. *)
Definition chat_mode (a : ProjectAssistant) (fs : filesystem)
    (project_path : option str) (cwd : Path) (inputs : list (option str))
  : option (ProjectAssistant * filesystem) :=
  let loaded :=
    match project_path with
    | Some ((_ :: _) as p) =>
        _load_project_info package_dependencies fs (FS.joinpath cwd p)
    | _ => current_project a
    end in
  match loaded with
  | None => None
  | Some ctx =>
      let tech_string := PyStr.join (lit ", ") (current_project_technologies ctx) in
      let file_list := _get_project_files fs (current_project_path ctx) in
      let file_listing := PyStr.join [nl] file_list in
      let path := path_str (current_project_path ctx) in
      let messages0 :=
        [ {| role := System;
             content := system_prompt (current_project_name ctx) tech_string
                          path file_listing |};
          {| role := Assistant;
             content := greeting (current_project_name ctx) path |} ] in
      let s := chat_loop str_exc fill (current_project_path ctx) completion
                 {| messages := messages0; session_fs := fs |} inputs in
      Some ({| api_key := api_key a; model := model a;
               projects_dir := projects_dir a;
               current_project := Some ctx;
               assistant_messages := messages s |},
            session_fs s)
  end.

End ChatMode.

(** ** The edit protocol with its [git] calls *)

Section EditsGit.

Variable str_exc : OSError → str.

(** [subprocess.run(["git", ...], cwd=cwd, check=True)], as in
    [_initialize_git]. *)
Variable git : list str → Path → filesystem → filesystem * bool.

Variable current_project_path : Path.

(** The [try] block for one directive with the calls that follow the
    write: [git add], then [git commit] when [git add] returned; what
    either raises is ignored, and the edit counts as applied. *)
Definition apply_edit_git (fs : filesystem) (file_path_str file_content : str)
  : filesystem * EditOutcome :=
  match apply_edit current_project_path fs file_path_str file_content with
  | (fs1, Applied) =>
      match git [lit "git"; lit "add"; file_path_str] current_project_path fs1 with
      | (fs2, true) =>
          ((git [lit "git"; lit "commit"; lit "-m"; lit "Update " ++ file_path_str]
              current_project_path fs2).1,
           Applied)
      | (fs2, false) => (fs2, Applied)
      end
  | (fs1, Failed e) => (fs1, Failed e)
  end.

(** One pass of the [while] loop, as [edit_step], with the [git]
    calls. *)
Definition edit_step_git (response : str) (st : EditState) (file_edit_start : nat)
  : option (EditState * option nat) :=
  match PyStr.find [nl] response file_edit_start with
  | None => None
  | Some file_path_end =>
      let file_path_str :=
        PyStr.strip (PyStr.slice response (file_edit_start + 11) file_path_end) in
      match PyStr.find END_FILE_EDIT response file_path_end with
      | None => None
      | Some file_edit_end =>
          let file_content :=
            PyStr.strip (PyStr.slice response (file_path_end + 1) file_edit_end) in
          let '(fs', outcome) := apply_edit_git (st_fs st) file_path_str file_content in
          let edited :=
            PyStr.replace
              (PyStr.slice response file_edit_start (file_edit_end + 14))
              (status str_exc file_path_str outcome)
              (edited_response st) in
          Some ({| st_fs := fs';
                   edited_response := edited;
                   st_log := st_log st ++
                     [{| edit_path := file_path_str;
                         edit_content := file_content;
                         edit_span := (file_edit_start, file_edit_end + 14);
                         edit_outcome := outcome |}] |},
                PyStr.find FILE_EDIT response file_edit_end)
      end
  end.

Fixpoint edit_loop_git (fuel : nat) (response : str) (st : EditState)
    (file_edit_start : option nat) : EditState :=
  match fuel, file_edit_start with
  | S fuel', Some start =>
      match edit_step_git response st start with
      | Some (st', next) => edit_loop_git fuel' response st' next
      | None => st
      end
  | _, _ => st
  end.

(** [_process_file_edits] with the [git] calls of its [try] block. *)
Definition _process_file_edits_git (fs : filesystem) (response : str) : EditState :=
  edit_loop_git (S (length response)) response
    {| st_fs := fs; edited_response := response; st_log := [] |}
    (PyStr.find FILE_EDIT response 0).

End EditsGit.

(** [git] changes nothing outside the directory [.git] of the directory
    it runs in. *)
Definition git_keeps_tree (git : list str → Path → filesystem → filesystem * bool)
  : Prop :=
  ∀ args cwd fs l,
    ¬ (FS.normalize cwd ++ [lit ".git"]) `prefix_of` l →
    (git args cwd fs).1 !! l = fs !! l.

(** ** Predicates of the statements *)

Definition same_kind (n n' : node) : bool :=
  match n, n' with
  | Dir, Dir => true
  | File _, File _ => true
  | _, _ => false
  end.

(** Every entry of [fs] is still an entry of [fs']: a directory is still
    a directory, a file still a file (its text may differ). *)
Definition entries_kept (fs fs' : filesystem) : Prop :=
  ∀ l n, fs !! l = Some n → ∃ n', fs' !! l = Some n' ∧ same_kind n n' = true.

(** Every file of [fs'] is a file of [fs] with the same text, or holds a
    text with the property [P]. *)
Definition files_from (P : str → Prop) (fs fs' : filesystem) : Prop :=
  ∀ l t, fs' !! l = Some (File t) → fs !! l = Some (File t) ∨ P t.

(** No white space at either end. *)
Definition stripped (s : str) : Prop :=
  (∀ c, head s = Some c → PyStr.isspace c = false)
  ∧ (∀ c, last s = Some c → PyStr.isspace c = false).

(** A response made of well-formed directives, each followed by text. *)
Fixpoint directives (ds : list (str * str * str)) : str :=
  match ds with
  | [] => []
  | (p, c, text) :: ds' => directive p c ++ text ++ directives ds'
  end.

(** The path line has no newline, the content no closing marker, and
    the text after the directive no opening marker. *)
Definition well_formed (d : str * str * str) : Prop :=
  let '(p, c, text) := d in
  (nl ∉ p) ∧ ¬ PyStr.occurs END_FILE_EDIT c
  ∧ ¬ PyStr.occurs FILE_EDIT (END_FILE_EDIT ++ text).

(** Some entry strictly below [root], file or directory, has a name that
    ends in [suffix]. *)
Definition has_entry (fs : filesystem) (root : list str) (suffix : str) : Prop :=
  ∃ l n name,
    fs !! l = Some n ∧ root `prefix_of` l ∧ l ≠ root
    ∧ FS.reachable fs l = true ∧ last l = Some name ∧ suffix `suffix_of` name.

(** ** A sample project *)

Module Sample.

Definition projects : Path := [lit "home"; lit "user"; lit "projects"].

Definition root : Path := projects ++ [lit "demo"].

(** [/home/user/projects/demo] with a directory [docs]. *)
Definition fs : filesystem :=
  list_to_map
    [ ([lit "home"], Dir);
      ([lit "home"; lit "user"], Dir);
      (projects, Dir);
      (root, Dir);
      (root ++ [lit "docs"], Dir) ].

(** A stand-in for [str(e)]. *)
Definition str_exc (e : OSError) : str :=
  match exc_errno e with
  | ENOENT => lit "No such file or directory"
  | ENOTDIR => lit "Not a directory"
  | EEXIST => lit "File exists"
  | EISDIR => lit "Is a directory"
  end.

(** A stand-in for [textwrap.fill]: lines are short enough. *)
Definition fill (line : str) : str := line.

Definition outside : list str := [lit "home"; lit "user"; lit ".bashrc"].

Definition escaping_response : str :=
  lit "Done." ++ [nl]
  ++ directive (lit "../../.bashrc") (lit "echo pwned" ++ [nl]).

Definition status_response : str :=
  lit "Hi" ++ [nl]
  ++ directive (lit "a.txt") (lit "hello" ++ [nl]) ++ [nl] ++ lit "Done.".

Definition two_edits : str :=
  lit "First:" ++ [nl]
  ++ directive (lit "docs") (lit "hello" ++ [nl])
  ++ ([nl] ++ lit "Second:" ++ [nl])
  ++ directive (lit "b.txt") (lit "world" ++ [nl])
  ++ ([nl] ++ lit "Bye.").

(** Two directives with nothing between them; [docs] is a directory. *)
Definition adjacent_edits : str :=
  directive (lit "a.txt") (lit "hello" ++ [nl])
  ++ directive (lit "docs") (lit "x" ++ [nl])
  ++ ([nl] ++ lit "Bye.").

Definition one_then_open : str :=
  lit "First:" ++ [nl]
  ++ directive (lit "a.txt") (lit "hello" ++ [nl])
  ++ [nl]
  ++ FILE_EDIT ++ (lit "b.txt" ++ [nl] ++ lit "never closed").

Definition plan : ProjectPlan :=
  {| project_name := lit "blog";
     description := lit "A blog";
     technologies := Some [lit "python"];
     dependencies := Some [lit "flask"];
     structure :=
       [ {| entry_path := lit "app.py";
            entry_type := lit "file";
            entry_content := Some (lit "print('hi')") |};
         {| entry_path := lit "README.md";
            entry_type := lit "file";
            entry_content := Some (lit "# My blog") |} ] |}.

(** [demo] with nothing but that manifest. *)
Definition fs_manifest : filesystem :=
  <[root ++ [lit "requirements.txt"] := File flask_requests_manifest]>
    (delete (root ++ [lit "docs"]) fs).

Definition fenced_text : str :=
  lit "Look:" ++ [nl] ++ lit "```python" ++ [nl] ++ lit "x = 1" ++ [nl] ++ lit "y = 2".

Definition completion (msgs : list Message) : option str := Some status_response.

End Sample.

(** Further samples. *)
(** A stand-in for [str(path)]: the segments after slashes. *)
Definition sample_path_str (p : Path) : str :=
  concat (map (λ s, "/"%char :: s) p).

(** An assistant that has no project yet. *)
Definition sample_assistant : ProjectAssistant :=
  {| api_key := lit "sk-1"; model := lit "gpt-4o";
     projects_dir := Sample.projects;
     current_project := None; assistant_messages := [] |}.

(** A chat about the project at [projects/demo], asked for from
    [/home/user]: one request, then [@exit]. *)
Definition sample_chat : option (ProjectAssistant * filesystem) :=
  chat_mode Sample.str_exc Sample.fill Sample.completion (λ _, [])
    sample_path_str sample_assistant Sample.fs_manifest
    (Some (lit "projects/demo")) [lit "home"; lit "user"]
    [Some (lit "Please fix a.txt"); Some (lit "@exit")].

(** A git that records a message below [.git] and touches nothing
    else. *)
Definition sample_git (args : list str) (cwd : Path) (fs : filesystem)
  : filesystem * bool :=
  (<[FS.normalize cwd ++ [lit ".git"; lit "COMMIT_EDITMSG"]
      := File (lit "Update" ++ [nl])]> fs,
   true).

(** * Properties *)

(** ** Facts about strings *)

Module PyStrFacts.
Import PyStr.

Lemma prefix_drop_occurs (sub s : str) i : sub `prefix_of` drop i s → occurs sub s.
Proof.
  intros [k Hk]. exists (take i s), k.
  by rewrite <- Hk, take_drop.
Qed.

Lemma occurs_prefix_drop (sub s : str) :
  occurs sub s → ∃ i, i ≤ length s ∧ sub `prefix_of` drop i s.
Proof.
  intros (a & b & ->). exists (length a). split.
  - rewrite !length_app. lia.
  - rewrite drop_app_length. by exists b.
Qed.

Lemma find_from_spec (sub s : str) k :
  match find_from sub s k with
  | Some j => ∃ i, j = k + i ∧ i ≤ length s ∧ sub `prefix_of` drop i s
                   ∧ ∀ i', i' < i → ¬ sub `prefix_of` drop i' s
  | None => ∀ i, ¬ sub `prefix_of` drop i s
  end.
Proof.
  revert k. induction s as [|c s IH]; intros k; simpl.
  - case_bool_decide as Hp.
    + exists 0. repeat split; [lia | done | done | lia].
    + intros i. by rewrite drop_nil.
  - case_bool_decide as Hp.
    + exists 0. repeat split; [lia | simpl; lia | done | lia].
    + specialize (IH (S k)). destruct (find_from sub s (S k)) as [j|].
      * destruct IH as (i & -> & Hi & Hpre & Hmin).
        exists (S i). repeat split; [lia | simpl; lia | done |].
        intros [|i'] Hlt; [done |]. simpl. apply Hmin. lia.
      * intros [|i]; [done | apply IH].
Qed.

Lemma find_Some (sub s : str) start j :
  find sub s start = Some j →
  start ≤ j ≤ length s ∧ sub `prefix_of` drop j s
  ∧ ∀ i, start ≤ i < j → ¬ sub `prefix_of` drop i s.
Proof.
  unfold find. case_decide as Hle; [|done]. intros Hf.
  pose proof (find_from_spec sub (drop start s) start) as Hs.
  rewrite Hf in Hs. destruct Hs as (i & -> & Hi & Hpre & Hmin).
  rewrite length_drop in Hi. rewrite drop_drop in Hpre.
  repeat split; [lia | lia | done |].
  intros i' [H1 H2] Hp. apply (Hmin (i' - start)); [lia |].
  rewrite drop_drop. by replace (start + (i' - start)) with i' by lia.
Qed.

Lemma find_None (sub s : str) start :
  find sub s start = None →
  length s < start ∨ ∀ i, start ≤ i → ¬ sub `prefix_of` drop i s.
Proof.
  unfold find. case_decide as Hle; [|intros _; left; lia]. intros Hf.
  pose proof (find_from_spec sub (drop start s) start) as Hs.
  rewrite Hf in Hs. right. intros i Hi Hp. apply (Hs (i - start)).
  rewrite drop_drop. by replace (start + (i - start)) with i by lia.
Qed.

Lemma find_eq_Some (sub s : str) start j :
  start ≤ j ≤ length s → sub `prefix_of` drop j s →
  (∀ i, start ≤ i < j → ¬ sub `prefix_of` drop i s) →
  find sub s start = Some j.
Proof.
  intros Hj Hp Hmin. destruct (find sub s start) as [j'|] eqn:Hf.
  - apply find_Some in Hf as (Hj' & Hp' & Hmin').
    destruct (decide (j' = j)) as [->|Hne]; [done | exfalso].
    destruct (decide (j' < j)).
    + apply (Hmin j'); [lia | done].
    + apply (Hmin' j); [lia | done].
  - apply find_None in Hf as [Hf|Hf]; [lia |].
    exfalso. apply (Hf j); [lia | done].
Qed.

Lemma find_eq_None (sub s : str) start :
  (∀ i, start ≤ i ≤ length s → ¬ sub `prefix_of` drop i s) →
  find sub s start = None.
Proof.
  intros Hno. destruct (find sub s start) as [j|] eqn:Hf; [|done].
  apply find_Some in Hf as (Hj & Hp & _). exfalso. by apply (Hno j).
Qed.

Lemma find_None_occurs (sub s : str) : find sub s 0 = None ↔ ¬ occurs sub s.
Proof.
  split.
  - intros Hf Hocc. apply find_None in Hf as [Hf|Hf]; [lia |].
    apply occurs_prefix_drop in Hocc as (i & _ & Hp). apply (Hf i); [lia | done].
  - intros Hno. apply find_eq_None. intros i _ Hp.
    apply Hno. by eapply prefix_drop_occurs.
Qed.

Lemma unbordered_split (m : str) :
  unbordered m → ∃ m0 x, m = m0 ++ [x] ∧ x ∉ m0.
Proof.
  unfold unbordered. destruct (reverse m) as [|x r] eqn:Hr; [done |].
  intros Hx. exists (reverse r), x. split.
  - rewrite <- (reverse_involutive m), Hr. by rewrite reverse_cons.
  - by rewrite elem_of_reverse.
Qed.

(** An occurrence of [m] that starts inside [u] in [u ++ m ++ r] lies
    inside [u]. *)
Lemma occurrence_before_marker (m u r : str) i :
  unbordered m → i < length u →
  m `prefix_of` drop i (u ++ m ++ r) → m `prefix_of` drop i u.
Proof.
  intros Hm Hi Hp. apply unbordered_split in Hm as (m0 & x & -> & Hx).
  rewrite drop_app_le in Hp by lia.
  set (d := drop i u) in *.
  assert (Hd : length d = length u - i) by (unfold d; by rewrite length_drop).
  destruct (decide (length (m0 ++ [x]) ≤ length d)) as [Hle|Hgt].
  - destruct Hp as [k Hk].
    exists (drop (length (m0 ++ [x])) d).
    rewrite <- (take_drop (length (m0 ++ [x])) d) at 1. f_equal.
    apply (f_equal (take (length (m0 ++ [x])))) in Hk.
    rewrite take_app_le in Hk by done.
    by rewrite take_app_length in Hk.
  - exfalso. apply Hx.
    rewrite length_app in Hgt. simpl in Hgt.
    assert (Hl : (m0 ++ [x]) !! length m0 = Some x).
    { rewrite lookup_app_r by lia. by rewrite Nat.sub_diag. }
    eapply prefix_lookup_Some in Hl; [|exact Hp].
    rewrite lookup_app_r in Hl by lia.
    rewrite lookup_app_l in Hl by (rewrite length_app; simpl; lia).
    rewrite lookup_app_l in Hl by lia.
    by eapply list_elem_of_lookup_2.
Qed.

(** The first occurrence of an unbordered marker from [start] on is
    where it was put, when the text before has none. *)
Lemma find_marker (m u r : str) start :
  unbordered m → start ≤ length u → ¬ occurs m (drop start u) →
  find m (u ++ m ++ r) start = Some (length u).
Proof.
  intros Hm Hs Hno. apply find_eq_Some.
  - rewrite !length_app. lia.
  - rewrite drop_app_length. by exists r.
  - intros i [Hi1 Hi2] Hp.
    apply occurrence_before_marker in Hp; [|done..].
    apply Hno. apply (prefix_drop_occurs _ _ (i - start)).
    rewrite drop_drop. by replace (start + (i - start)) with i by lia.
Qed.

Lemma find_absent (m s : str) start :
  ¬ occurs m (drop start s) → find m s start = None.
Proof.
  intros Hno. apply find_eq_None. intros i [Hi _] Hp.
  apply Hno. apply (prefix_drop_occurs _ _ (i - start)).
  rewrite drop_drop. by replace (start + (i - start)) with i by lia.
Qed.

Lemma occurs_singleton (c : ascii) (s : str) : occurs [c] s ↔ c ∈ s.
Proof.
  split.
  - intros (a & b & ->). set_solver.
  - intros (a & b & ->)%list_elem_of_split. by exists a, b.
Qed.

(** *** Replacement *)

Lemma replace_scan_skip (old new x b : str) :
  replace_scan old new (x ++ b) (length x) = replace_scan old new b 0.
Proof.
  induction x as [|c x IH]; simpl; [|done].
  destruct b; [done |]. done.
Qed.

Lemma replace_scan_hit (old new b : str) :
  old ≠ [] →
  replace_scan old new (old ++ b) 0 = new ++ replace_scan old new b 0.
Proof.
  destruct old as [|c old]; [done | intros _]. simpl.
  rewrite bool_decide_true by (by exists b).
  by rewrite Nat.sub_0_r, replace_scan_skip.
Qed.

Lemma replace_scan_miss (old new a b : str) :
  (∀ i, i < length a → ¬ old `prefix_of` drop i (a ++ b)) →
  replace_scan old new (a ++ b) 0 = a ++ replace_scan old new b 0.
Proof.
  induction a as [|c a IH]; intros Hno; [done |]. simpl.
  rewrite bool_decide_false by (apply (Hno 0); simpl; lia).
  f_equal. apply IH. intros i Hi. apply (Hno (S i)). simpl. lia.
Qed.

Lemma replace_nonempty (old new s : str) :
  old ≠ [] → replace old new s = replace_scan old new s 0.
Proof. by destruct old. Qed.

Lemma not_elem_of_decide {A} `{EqDecision A} (x : A) (l : list A) :
  bool_decide (x ∈ l) = false → x ∉ l.
Proof. apply bool_decide_eq_false. Qed.

Lemma occurs_cons (m : str) x s :
  occurs m (x :: s) → m `prefix_of` (x :: s) ∨ occurs m s.
Proof.
  intros ([|y a] & b & Hs).
  - left. exists b. done.
  - right. injection Hs as -> ->. by exists a, b.
Qed.

Lemma slice_middle (a b c : str) i j :
  i = length a → j = length a + length b → slice (a ++ b ++ c) i j = b.
Proof.
  intros -> ->. unfold slice. rewrite drop_app_length.
  replace (length a + length b - length a) with (length b) by lia.
  by rewrite take_app_length.
Qed.

Lemma occurs_app_inv (m a b : str) :
  occurs m (a ++ b) →
  occurs m b ∨ ∃ i, i < length a ∧ m `prefix_of` drop i a ++ b.
Proof.
  intros (i & Hi & Hp)%occurs_prefix_drop.
  destruct (decide (i < length a)) as [Hlt|Hge].
  - right. exists i. split; [done |]. by rewrite drop_app_le in Hp by lia.
  - left. rewrite drop_app_ge in Hp by lia. by eapply prefix_drop_occurs.
Qed.

Lemma prefix_app_short (m d r : str) :
  m `prefix_of` d ++ r → length m ≤ length d → m `prefix_of` d.
Proof.
  intros [k Hk] Hle. exists (drop (length m) d).
  rewrite <- (take_drop (length m) d) at 1. f_equal.
  apply (f_equal (take (length m))) in Hk.
  rewrite take_app_le in Hk by done. by rewrite take_app_length in Hk.
Qed.

(** An occurrence of [m] does not cover a character that [m] lacks. *)
Lemma occurrence_avoids (m s : str) i q x :
  m `prefix_of` drop i s → s !! q = Some x → x ∉ m →
  q < i ∨ i + length m ≤ q.
Proof.
  intros Hp Hq Hx.
  destruct (decide (q < i)) as [|Hge]; [by left | right].
  destruct (decide (i + length m ≤ q)) as [|Hlt]; [done | exfalso].
  destruct (lookup_lt_is_Some_2 m (q - i)) as [c Hc]; [lia |].
  pose proof Hc as Hc'. eapply prefix_lookup_Some in Hc'; [|exact Hp].
  rewrite lookup_drop in Hc'. replace (i + (q - i)) with q in Hc' by lia.
  apply Hx. replace x with c by congruence. by eapply list_elem_of_lookup_2.
Qed.

(** No occurrence of [m] begins in [pre ++ t] when neither has one and
    the first and the last character of [t] are foreign to [m]. *)
Lemma no_occurrence_across (m pre t rest : str) x y i :
  ¬ occurs m pre → ¬ occurs m t →
  t !! 0 = Some x → x ∉ m → last t = Some y → y ∉ m →
  i < length (pre ++ t) → ¬ m `prefix_of` drop i ((pre ++ t) ++ rest).
Proof.
  intros Hpre Ht Hx Hxm Hy Hym Hi Hp. rewrite length_app in Hi.
  assert (Hlen : 0 < length t) by (by apply lookup_lt_Some in Hx).
  rewrite last_lookup in Hy.
  replace (pred (length t)) with (length t - 1) in Hy by lia.
  assert (Hq1 : ((pre ++ t) ++ rest) !! length pre = Some x).
  { rewrite <- app_assoc, lookup_app_r by lia.
    rewrite Nat.sub_diag. by rewrite lookup_app_l by lia. }
  assert (Hq2 : ((pre ++ t) ++ rest) !! (length pre + (length t - 1)) = Some y).
  { rewrite <- app_assoc, lookup_app_r by lia.
    replace (length pre + (length t - 1) - length pre) with (length t - 1) by lia.
    by rewrite lookup_app_l by lia. }
  destruct (occurrence_avoids _ _ _ _ _ Hp Hq1 Hxm) as [Hlt|Hle].
  - destruct (occurrence_avoids _ _ _ _ _ Hp Hq2 Hym) as [Hlt2|Hle2]; [lia |].
    apply Ht. apply (prefix_drop_occurs _ _ (i - length pre)).
    rewrite <- app_assoc in Hp.
    rewrite drop_app_ge, drop_app_le in Hp by lia.
    eapply prefix_app_short; [done |]. rewrite length_drop. lia.
  - apply Hpre. apply (prefix_drop_occurs _ _ i).
    rewrite <- app_assoc, drop_app_le in Hp by lia.
    eapply prefix_app_short; [done |]. rewrite length_drop. lia.
Qed.

Lemma split_no_sep sep (s : str) : sep ∉ s → split sep s = [s].
Proof.
  induction s as [|c s IH]; [done |]. intros Hs. simpl.
  rewrite decide_False by set_solver. rewrite IH by set_solver. done.
Qed.

Lemma split_app_sep sep (a b : str) :
  sep ∉ a → split sep (a ++ sep :: b) = a :: split sep b.
Proof.
  induction a as [|c a IH]; intros Ha; simpl.
  - by rewrite decide_True.
  - rewrite decide_False by set_solver. by rewrite IH by set_solver.
Qed.

End PyStrFacts.

Import PyStrFacts.

(** ** Facts about the file system *)

Module FSFacts.
Import FS.

Lemma dirs_le_refl fs : dirs_le fs fs.
Proof. by intros l. Qed.

Lemma dirs_le_trans fs1 fs2 fs3 : dirs_le fs1 fs2 → dirs_le fs2 fs3 → dirs_le fs1 fs3.
Proof. intros H1 H2 l Hl. by apply H2, H1. Qed.

Lemma subseteq_dirs_le (fs fs' : filesystem) : fs ⊆ fs' → dirs_le fs fs'.
Proof. intros Hsub l Hl. by eapply lookup_weaken. Qed.

Lemma node_at_dir_mono fs fs' l :
  dirs_le fs fs' → node_at fs l = Some Dir → node_at fs' l = Some Dir.
Proof. intros Hle. destruct l; [done | apply Hle]. Qed.

Lemma walk_mono fs fs' l p l' :
  dirs_le fs fs' → walk fs l p = inr l' → walk fs' l p = inr l'.
Proof.
  intros Hle. revert l. induction p as [|s p IH]; intros l; simpl; [done |].
  destruct (node_at fs l) as [[|t]|] eqn:Hn; [|done..].
  rewrite (node_at_dir_mono _ _ _ Hle Hn). apply IH.
Qed.

Lemma walk_app fs l p q :
  walk fs l (p ++ q) =
  match walk fs l p with
  | inr l' => walk fs l' q
  | inl e => inl e
  end.
Proof.
  revert l. induction p as [|s p IH]; intros l; simpl; [done |].
  by destruct (node_at fs l) as [[|t]|].
Qed.

Lemma walk_normalize fs l p l' : walk fs l p = inr l' → l' = foldl step l p.
Proof.
  revert l. induction p as [|s p IH]; intros l; simpl; [congruence |].
  destruct (node_at fs l) as [[|t]|]; [|done..]. apply IH.
Qed.

Lemma is_dir_stat fs p : is_dir fs p = true ↔ stat fs p = inr Dir.
Proof.
  unfold is_dir. by destruct (stat fs p) as [e|[|t]].
Qed.

Lemma is_dir_walk fs p :
  is_dir fs p = true ↔ ∃ l, walk fs [] p = inr l ∧ node_at fs l = Some Dir.
Proof.
  rewrite is_dir_stat. unfold stat. split.
  - destruct (walk fs [] p) as [e|l]; [done |].
    destruct (node_at fs l) as [[|t]|] eqn:Hn; [|done..]. eauto.
  - intros (l & -> & ->). done.
Qed.

Lemma is_dir_mono fs fs' p :
  dirs_le fs fs' → is_dir fs p = true → is_dir fs' p = true.
Proof.
  intros Hle (l & Hw & Hn)%is_dir_walk. apply is_dir_walk. exists l.
  eauto using walk_mono, node_at_dir_mono.
Qed.

Lemma parent_snoc (p : Path) s : parent (p ++ [s]) = p.
Proof. apply removelast_last. Qed.

Lemma last_parent (p : Path) s : last p = Some s → p = parent p ++ [s].
Proof.
  intros Hl. destruct (decide (p = [])) as [->|Hne]; [done |].
  unfold parent. rewrite (app_removelast_last s Hne) at 1.
  f_equal. f_equal. apply last_Some in Hl as [l' ->].
  by rewrite List.last_last.
Qed.

Lemma lookup_parent_inr fs p l :
  lookup_parent fs p = inr l ↔
  walk fs [] (parent p) = inr l ∧ node_at fs l = Some Dir.
Proof.
  unfold lookup_parent. destruct (walk fs [] (parent p)) as [e|l'].
  { split; [done | by intros [? _]]. }
  destruct (node_at fs l') as [[|t]|] eqn:Hn.
  - split; [by intros [= <-] | by intros [[= <-] _]].
  - split; [done | intros [[= <-] ?]; congruence].
  - split; [done | intros [[= <-] ?]; congruence].
Qed.

Lemma lookup_parent_mono fs fs' p l :
  dirs_le fs fs' → lookup_parent fs p = inr l → lookup_parent fs' p = inr l.
Proof.
  rewrite !lookup_parent_inr. intros Hle [Hw Hn].
  eauto using walk_mono, node_at_dir_mono.
Qed.

(** A path with a last segment is looked up through its parent. *)
Lemma walk_last fs p s :
  last p = Some s →
  walk fs [] p =
  match lookup_parent fs p with
  | inr l => inr (step l s)
  | inl e => inl e
  end.
Proof.
  intros Hl. rewrite (last_parent p s Hl) at 1. rewrite walk_app.
  unfold lookup_parent. destruct (walk fs [] (parent p)) as [e|l]; [done |].
  simpl. by destruct (node_at fs l) as [[|t]|].
Qed.

Lemma is_dir_parent fs p : is_dir fs p = true → is_dir fs (parent p) = true.
Proof.
  destruct (last p) as [s|] eqn:Hl.
  - rewrite !is_dir_walk. intros (l & Hw & Hn).
    rewrite (walk_last _ _ _ Hl) in Hw.
    destruct (lookup_parent fs p) as [e|l0] eqn:Hlp; [done |].
    apply lookup_parent_inr in Hlp as [??]. eauto.
  - apply last_None in Hl as ->. done.
Qed.

Lemma step_plain l s : special s = false → step l s = l ++ [s].
Proof.
  unfold special, step. intros Hs%bool_decide_eq_false.
  rewrite decide_False by (intros ->; apply Hs; auto).
  by rewrite decide_False by (intros [->| ->]; apply Hs; auto).
Qed.

(** *** [os.mkdir] *)

Lemma os_mkdir_inr fs p fs' :
  os_mkdir fs p = inr fs' →
  ∃ l s, last p = Some s ∧ lookup_parent fs p = inr l ∧ special s = false
         ∧ fs !! (l ++ [s]) = None ∧ fs' = <[l ++ [s] := Dir]> fs.
Proof.
  unfold os_mkdir. destruct (last p) as [s|]; [|done].
  destruct (lookup_parent fs p) as [e|l]; [done |].
  destruct (special s) eqn:Hs; [done |].
  destruct (fs !! (l ++ [s])) eqn:Hl; [done |].
  intros [= <-]. by exists l, s.
Qed.

Lemma os_mkdir_subseteq fs p fs' : os_mkdir fs p = inr fs' → fs ⊆ fs'.
Proof.
  intros (l & s & _ & _ & _ & Hn & ->)%os_mkdir_inr. by apply insert_subseteq.
Qed.

Lemma os_mkdir_is_dir fs p fs' : os_mkdir fs p = inr fs' → is_dir fs' p = true.
Proof.
  intros Hm. pose proof (os_mkdir_subseteq _ _ _ Hm) as Hsub.
  apply os_mkdir_inr in Hm as (l & s & Hl & Hlp & Hs & Hn & ->).
  apply is_dir_walk. exists (l ++ [s]). split.
  - rewrite (walk_last _ _ _ Hl).
    rewrite (lookup_parent_mono _ _ _ _ (subseteq_dirs_le _ _ Hsub) Hlp).
    by rewrite step_plain.
  - unfold node_at. destruct (l ++ [s]) eqn:E; [by destruct l |].
    rewrite <- E. apply lookup_insert_eq.
Qed.

(** Making a directory that is there fails with [EEXIST]. *)
Lemma os_mkdir_exists fs p : is_dir fs p = true → os_mkdir fs p = inl EEXIST.
Proof.
  intros (l & Hw & Hn)%is_dir_walk. unfold os_mkdir.
  destruct (last p) as [s|] eqn:Hl; [|done].
  rewrite (walk_last _ _ _ Hl) in Hw.
  destruct (lookup_parent fs p) as [e|l0]; [done |].
  injection Hw as <-.
  destruct (special s) eqn:Hs; [done |].
  rewrite step_plain in Hn by done.
  unfold node_at in Hn. destruct (l0 ++ [s]) eqn:E; [by destruct l0 |].
  by rewrite Hn.
Qed.


(** *** [Path.mkdir(parents=True, exist_ok=True)] *)

Lemma mkdir_rev_nil fs : mkdir_rev fs [] = (fs, None).
Proof. reflexivity. Qed.

Lemma mkdir_rev_subseteq fs rp fs' r : mkdir_rev fs rp = (fs', r) → fs ⊆ fs'.
Proof.
  revert fs fs' r. induction rp as [|s rp IH]; intros fs fs' r.
  { rewrite mkdir_rev_nil. by intros [= <- <-]. }
  cbn [mkdir_rev]. set (p := reverse (s :: rp)).
  destruct (os_mkdir fs p) as [e0|fs1] eqn:Hm.
  - destruct e0; [|destruct (is_dir fs p); by intros [= <- <-]..].
    destruct (mkdir_rev fs rp) as [fs1 [e1|]] eqn:Hrec.
    { intros [= <- <-]. by eapply IH. }
    specialize (IH _ _ _ Hrec).
    destruct (os_mkdir fs1 p) as [e2|fs2] eqn:Hm2.
    + destruct e2; [by intros [= <- <-] |destruct (is_dir fs1 p); by intros [= <- <-]..].
    + intros [= <- <-]. etrans; [done |]. by eapply os_mkdir_subseteq.
  - intros [= <- <-]. by eapply os_mkdir_subseteq.
Qed.

(** After a successful call the directory is there. *)
Lemma mkdir_rev_ok fs rp fs' :
  mkdir_rev fs rp = (fs', None) → is_dir fs' (reverse rp) = true.
Proof.
  destruct rp as [|s rp].
  { by rewrite mkdir_rev_nil. }
  cbn [mkdir_rev]. set (p := reverse (s :: rp)).
  destruct (os_mkdir fs p) as [e0|fs1] eqn:Hm.
  - destruct e0; [|destruct (is_dir fs p) eqn:Hd; by intros [= <-]..].
    destruct (mkdir_rev fs rp) as [fs1 [e1|]] eqn:Hrec; [done |].
    destruct (os_mkdir fs1 p) as [e2|fs2] eqn:Hm2.
    + destruct e2; [done |destruct (is_dir fs1 p) eqn:Hd; by intros [= <-]..].
    + intros [= <-]. by eapply os_mkdir_is_dir.
  - intros [= <-]. by eapply os_mkdir_is_dir.
Qed.


(** On a directory that is there the call changes nothing. *)
Lemma mkdir_rev_exists fs rp :
  is_dir fs (reverse rp) = true → mkdir_rev fs rp = (fs, None).
Proof.
  intros Hd. pose proof (os_mkdir_exists _ _ Hd) as Hm.
  destruct rp; [done |]. cbn [mkdir_rev]. by rewrite Hm, Hd.
Qed.


Lemma mkdir_subseteq fs p fs' r : mkdir fs p = (fs', r) → fs ⊆ fs'.
Proof. apply mkdir_rev_subseteq. Qed.

Lemma mkdir_ok fs p fs' : mkdir fs p = (fs', None) → is_dir fs' p = true.
Proof. intros H%mkdir_rev_ok. by rewrite reverse_involutive in H. Qed.


Lemma mkdir_exists fs p : is_dir fs p = true → mkdir fs p = (fs, None).
Proof. intros H. apply mkdir_rev_exists. by rewrite reverse_involutive. Qed.


(** *** [open(p, "w")] and [open(p)] *)

Lemma write_ok fs p text fs' :
  write fs p text = (fs', None) →
  ∃ l s, last p = Some s ∧ lookup_parent fs p = inr l ∧ special s = false
         ∧ fs !! (l ++ [s]) ≠ Some Dir ∧ fs' = <[l ++ [s] := File text]> fs.
Proof.
  unfold write. destruct (last p) as [s|]; [|done].
  destruct (lookup_parent fs p) as [e|l]; [done |].
  destruct (special s) eqn:Hs; [done |].
  destruct (fs !! (l ++ [s])) as [[|t]|] eqn:Hl; [done | |];
    intros [= <-]; exists l, s; by rewrite Hl.
Qed.

Lemma write_failed fs p text fs' e : write fs p text = (fs', Some e) → fs' = fs.
Proof.
  unfold write. destruct (last p) as [s|]; [|by intros [= <-]].
  destruct (lookup_parent fs p) as [e'|l]; [by intros [= <-] |].
  destruct (special s); [by intros [= <-] |].
  by destruct (fs !! (l ++ [s])) as [[|t]|]; intros [= <-].
Qed.

Lemma insert_file_dirs_le (fs : filesystem) l text :
  fs !! l ≠ Some Dir → dirs_le fs (<[l := File text]> fs).
Proof.
  intros Hl l' Hd. rewrite lookup_insert_ne; [done | congruence].
Qed.

Lemma write_dirs_le fs p text fs' r : write fs p text = (fs', r) → dirs_le fs fs'.
Proof.
  destruct r as [e|].
  - intros ->%write_failed. apply dirs_le_refl.
  - intros (l & s & _ & _ & _ & Hl & ->)%write_ok. by apply insert_file_dirs_le.
Qed.

Lemma snoc_ne_nil {A} (l : list A) x : l ++ [x] ≠ [].
Proof. by destruct l. Qed.

(** Where a successful write puts the text. *)
Lemma write_ok_location fs p text fs' :
  write fs p text = (fs', None) →
  fs' = <[normalize p := File text]> fs ∧ walk fs [] p = inr (normalize p)
  ∧ normalize p ≠ [] ∧ fs !! normalize p ≠ Some Dir.
Proof.
  intros (l & s & Hl & Hlp & Hs & Hn & ->)%write_ok.
  assert (Hw : walk fs [] p = inr (l ++ [s])).
  { by rewrite (walk_last _ _ _ Hl), Hlp, step_plain. }
  pose proof (walk_normalize _ _ _ _ Hw) as Hnorm. fold (normalize p) in Hnorm.
  rewrite <- Hnorm. repeat split; try done. apply snoc_ne_nil.
Qed.

Lemma read_inr fs p text :
  read fs p = inr text ↔
  walk fs [] p = inr (normalize p) ∧ node_at fs (normalize p) = Some (File text).
Proof.
  unfold read, stat. split.
  - destruct (walk fs [] p) as [e|l] eqn:Hw; [done |].
    pose proof (walk_normalize _ _ _ _ Hw) as ->. fold (normalize p).
    destruct (node_at fs (normalize p)) as [[|t]|]; [done | | done].
    by intros [= <-].
  - intros [-> ->]. done.
Qed.

Lemma write_read fs p text fs' :
  write fs p text = (fs', None) → read fs' p = inr text.
Proof.
  intros Hw. pose proof (write_dirs_le _ _ _ _ _ Hw) as Hle.
  apply write_ok_location in Hw as (-> & Hw & Hne & Hn).
  apply read_inr. split; [by eapply walk_mono |].
  unfold node_at. destruct (normalize p) eqn:E; [done |].
  apply lookup_insert_eq.
Qed.


(** A write leaves every other location alone. *)
Lemma write_other fs p text fs' r l :
  write fs p text = (fs', r) → l ≠ normalize p → fs' !! l = fs !! l.
Proof.
  destruct r as [e|].
  - by intros ->%write_failed.
  - intros (-> & _)%write_ok_location Hne. by apply lookup_insert_ne.
Qed.

End FSFacts.

Import FSFacts.

(** ** Writing a file below a path *)

Lemma write_file_dirs_le fs p text fs' r :
  write_file fs p text = (fs', r) → FS.dirs_le fs fs'.
Proof.
  unfold write_file. destruct (FS.mkdir fs (FS.parent p)) as [fs1 [e|]] eqn:Hm.
  - intros [= <- <-]. by eapply subseteq_dirs_le, mkdir_subseteq.
  - intros Hw. eapply dirs_le_trans.
    + by eapply subseteq_dirs_le, mkdir_subseteq.
    + by eapply write_dirs_le.
Qed.

Lemma write_file_read fs p text fs' :
  write_file fs p text = (fs', None) → FS.read fs' p = inr text.
Proof.
  unfold write_file. destruct (FS.mkdir fs (FS.parent p)) as [fs1 [e|]]; [done |].
  apply write_read.
Qed.


(** A write below a path leaves the files at other locations alone. *)
Lemma write_file_other fs p text fs' r l n :
  write_file fs p text = (fs', r) → l ≠ FS.normalize p →
  fs !! l = Some n → fs' !! l = Some n.
Proof.
  unfold write_file. destruct (FS.mkdir fs (FS.parent p)) as [fs1 [e|]] eqn:Hm.
  - intros [= <- <-] _ Hl. eapply lookup_weaken; [done |]. by eapply mkdir_subseteq.
  - intros Hw Hne Hl. rewrite (write_other _ _ _ _ _ _ Hw Hne).
    eapply lookup_weaken; [done |]. by eapply mkdir_subseteq.
Qed.

Lemma read_preserved fs fs' p text :
  FS.dirs_le fs fs' → FS.read fs p = inr text →
  fs' !! FS.normalize p = Some (File text) → FS.read fs' p = inr text.
Proof.
  rewrite !read_inr. intros Hle [Hw Hn] Hl. split; [by eapply walk_mono |].
  unfold FS.node_at in *. by destruct (FS.normalize p).
Qed.

Lemma read_lookup fs p text :
  FS.read fs p = inr text → fs !! FS.normalize p = Some (File text).
Proof.
  rewrite read_inr. intros [_ Hn]. unfold FS.node_at in Hn.
  by destruct (FS.normalize p).
Qed.

(** ** The edit applier *)



(** ** The materializer *)

Lemma create_item_dirs_le pp fs item fs' r :
  create_item pp fs item = (fs', r) → FS.dirs_le fs fs'.
Proof.
  unfold create_item. repeat case_decide.
  - intros Hm. by eapply subseteq_dirs_le, mkdir_subseteq.
  - apply write_file_dirs_le.
  - intros [= <- <-]. apply dirs_le_refl.
Qed.

Lemma create_items_dirs_le pp fs items fs' r :
  create_items pp fs items = (fs', r) → FS.dirs_le fs fs'.
Proof.
  revert fs. induction items as [|item items IH]; intros fs; simpl.
  - intros [= <- <-]. apply dirs_le_refl.
  - destruct (create_item pp fs item) as [fs1 [e|]] eqn:Hi.
    + intros [= <- <-]. by eapply create_item_dirs_le.
    + intros Hr. eapply dirs_le_trans; [by eapply create_item_dirs_le | by eapply IH].
Qed.

Lemma create_item_other pp fs item fs' r l n :
  create_item pp fs item = (fs', r) →
  (entry_type item = lit "file" → entry_target pp item ≠ l) →
  fs !! l = Some n → fs' !! l = Some n.
Proof.
  unfold create_item. repeat case_decide.
  - intros Hm _ Hl. eapply lookup_weaken; [done |]. by eapply mkdir_subseteq.
  - intros Hw Hne Hl. eapply write_file_other; [done | | done].
    intros ->. by apply Hne.
  - by intros [= <- <-].
Qed.

Lemma create_items_other pp fs items fs' r l n :
  create_items pp fs items = (fs', r) →
  (∀ item, item ∈ items → entry_type item = lit "file" → entry_target pp item ≠ l) →
  fs !! l = Some n → fs' !! l = Some n.
Proof.
  revert fs. induction items as [|item items IH]; intros fs; simpl.
  - by intros [= <- <-].
  - intros Hr Hne Hl.
    destruct (create_item pp fs item) as [fs1 [e|]] eqn:Hi.
    + injection Hr as <- <-. eapply create_item_other; [done | | done].
      apply Hne. by left.
    + eapply IH; [done | |].
      * intros item' Hin. apply Hne. by right.
      * eapply create_item_other; [done | | done]. apply Hne. by left.
Qed.

Lemma create_items_app pp fs a b :
  create_items pp fs (a ++ b) =
  match create_items pp fs a with
  | (fs1, Some e) => (fs1, Some e)
  | (fs1, None) => create_items pp fs1 b
  end.
Proof.
  revert fs. induction a as [|item a IH]; intros fs; simpl; [done |].
  destruct (create_item pp fs item) as [fs1 [e|]]; [done | apply IH].
Qed.

(** A file entry that is not written over by a later one is in the
    tree the loop leaves. *)
Lemma create_items_entry pp fs before e after fs' :
  create_items pp fs (before ++ e :: after) = (fs', None) →
  entry_type e = lit "file" →
  (∀ e', e' ∈ after → entry_type e' = lit "file" →
         entry_target pp e' ≠ entry_target pp e) →
  FS.read fs' (FS.joinpath pp (entry_path e)) = inr (default [] (entry_content e)).
Proof.
  rewrite create_items_app.
  destruct (create_items pp fs before) as [fsa [e1|]]; [done |]. simpl.
  destruct (create_item pp fsa e) as [fsb [e2|]] eqn:Hi; [done |].
  intros Hafter Hty Hne. unfold create_item in Hi.
  rewrite decide_False in Hi by (rewrite Hty; by vm_compute).
  rewrite decide_True in Hi by done.
  apply write_file_read in Hi.
  eapply read_preserved; [by eapply create_items_dirs_le | done |].
  eapply create_items_other; [done | done |]. by apply read_lookup.
Qed.

Lemma joinpath_name (p : Path) (name : string) :
  FS.is_absolute (lit name) = false →
  FS.parse_parts (lit name) = [lit name] →
  FS.joinpath p (lit name) = p ++ [lit name].
Proof. unfold FS.joinpath. by intros -> ->. Qed.

Lemma normalize_snoc p s : FS.normalize (p ++ [s]) = FS.step (FS.normalize p) s.
Proof. unfold FS.normalize. by rewrite foldl_app. Qed.

Lemma parse_parts_dotdots k name :
  FS.is_name name →
  FS.parse_parts (dotdots k ++ name) = replicate k FS.dotdot ++ [name].
Proof.
  intros [Hs Hsep]. unfold FS.parse_parts.
  apply bool_decide_eq_false in Hs.
  induction k as [|k IH].
  - simpl. rewrite split_no_sep by done.
    rewrite filter_cons_True; [done |].
    split; intros ->; apply Hs; auto.
  - change (dotdots (S k) ++ name)
      with (FS.dotdot ++ "/"%char :: (dotdots k ++ name)).
    rewrite split_app_sep by (apply not_elem_of_decide; reflexivity).
    rewrite filter_cons_True by (by vm_compute).
    by rewrite IH.
Qed.

Lemma is_absolute_dotdots k name :
  FS.is_name name → FS.is_absolute (dotdots k ++ name) = false.
Proof.
  intros [Hs Hsep]. apply bool_decide_eq_false. intros [r Hr].
  destruct k as [|k].
  - simpl in Hr. rewrite Hr in Hsep. apply Hsep. by left.
  - done.
Qed.

Lemma joinpath_dotdots root k name :
  FS.is_name name →
  FS.joinpath root (dotdots k ++ name) = root ++ replicate k FS.dotdot ++ [name].
Proof.
  intros Hn. unfold FS.joinpath.
  by rewrite is_absolute_dotdots, parse_parts_dotdots.
Qed.

Lemma normalize_plain l p :
  Forall (λ s, FS.special s = false) p → foldl FS.step l p = l ++ p.
Proof.
  intros Hp. revert l. induction Hp as [|s p Hs _ IH]; intros l; simpl.
  - by rewrite app_nil_r.
  - rewrite step_plain by done. rewrite IH. by rewrite <- app_assoc.
Qed.

Lemma walk_plain_dir fs root :
  Forall (λ s, FS.special s = false) root → FS.is_dir fs root = true →
  FS.walk fs [] root = inr root ∧ FS.node_at fs root = Some Dir.
Proof.
  intros Hp (l & Hw & Hn)%is_dir_walk.
  pose proof (walk_normalize _ _ _ _ Hw) as ->.
  rewrite normalize_plain in Hw, Hn by done. done.
Qed.

(** Below a directory named without [..], every ancestor is a
    directory. *)
Lemma ancestors_dirs fs root j :
  Forall (λ s, FS.special s = false) root → FS.is_dir fs root = true →
  FS.node_at fs (take j root) = Some Dir.
Proof.
  revert j. induction root as [|r root IH] using rev_ind; intros j Hp Hd.
  - by rewrite take_nil.
  - apply Forall_app in Hp as [Hp Hr].
    destruct (decide (j ≤ length root)) as [Hj|Hj].
    + rewrite take_app_le by done. apply IH; [done |].
      apply is_dir_parent in Hd. by rewrite parent_snoc in Hd.
    + rewrite take_ge by (rewrite length_app; simpl; lia).
      apply walk_plain_dir; [|done]. by apply Forall_app.
Qed.

Lemma removelast_take {A} (l : list A) m :
  m ≤ length l → removelast (take m l) = take (m - 1) l.
Proof.
  intros Hm. destruct m as [|m]; [done |].
  replace (S m - 1) with m by lia.
  destruct (lookup_lt_is_Some_2 l m) as [x Hx]; [lia |].
  rewrite (take_S_r _ _ _ Hx). apply removelast_last.
Qed.

Lemma walk_dotdots fs root m k :
  (∀ j, FS.node_at fs (take j root) = Some Dir) → m ≤ length root →
  FS.walk fs (take m root) (replicate k FS.dotdot) = inr (take (m - k) root).
Proof.
  intros Hd. revert m. induction k as [|k IH]; intros m Hm; simpl.
  - by rewrite Nat.sub_0_r.
  - rewrite Hd. unfold FS.step at 1. rewrite decide_True by done.
    rewrite removelast_take by done. rewrite IH by lia.
    do 2 f_equal. lia.
Qed.

(** The directory that [k] times [..] leads to from the project
    directory. *)
Lemma dotdots_dir fs root k :
  Forall (λ s, FS.special s = false) root → FS.is_dir fs root = true →
  FS.walk fs [] (root ++ replicate k FS.dotdot) = inr (take (length root - k) root)
  ∧ FS.node_at fs (take (length root - k) root) = Some Dir.
Proof.
  intros Hp Hd. split; [|by apply ancestors_dirs].
  rewrite walk_app. destruct (walk_plain_dir _ _ Hp Hd) as [-> _].
  rewrite <- (firstn_all root) at 1.
  apply walk_dotdots; [|done]. intros j. by apply ancestors_dirs.
Qed.

Lemma write_file_dotdots fs root k name text :
  Forall (λ s, FS.special s = false) root → FS.is_dir fs root = true →
  FS.is_name name →
  fs !! (take (length root - k) root ++ [name]) ≠ Some Dir →
  write_file fs (root ++ replicate k FS.dotdot ++ [name]) text
  = (<[take (length root - k) root ++ [name] := File text]> fs, None).
Proof.
  intros Hp Hd [Hs _] Hn.
  destruct (dotdots_dir fs root k Hp Hd) as [Hw Hdir].
  unfold write_file. rewrite app_assoc, parent_snoc.
  rewrite mkdir_exists by (apply is_dir_walk; eauto).
  unfold FS.write. rewrite last_snoc.
  unfold FS.lookup_parent. rewrite parent_snoc, Hw, Hdir, Hs.
  by destruct (fs !! _) as [[|t]|].
Qed.

(** When the name is that of a directory there, the write fails and
    nothing changes. *)
Lemma write_file_dotdots_dir fs root k name text :
  Forall (λ s, FS.special s = false) root → FS.is_dir fs root = true →
  FS.is_name name →
  fs !! (take (length root - k) root ++ [name]) = Some Dir →
  ∃ e, write_file fs (root ++ replicate k FS.dotdot ++ [name]) text = (fs, Some e).
Proof.
  intros Hp Hd [Hs _] Hn.
  destruct (dotdots_dir fs root k Hp Hd) as [Hw Hdir].
  unfold write_file. rewrite app_assoc, parent_snoc.
  rewrite mkdir_exists by (apply is_dir_walk; eauto).
  unfold FS.write. rewrite last_snoc.
  unfold FS.lookup_parent. rewrite parent_snoc, Hw, Hdir, Hs, Hn. eauto.
Qed.

Lemma unbordered_FILE_EDIT : PyStr.unbordered FILE_EDIT.
Proof. apply not_elem_of_decide. by vm_compute. Qed.

Lemma unbordered_END_FILE_EDIT : PyStr.unbordered END_FILE_EDIT.
Proof. apply not_elem_of_decide. by vm_compute. Qed.

Lemma unbordered_nl : PyStr.unbordered [nl].
Proof. apply not_elem_of_decide. by vm_compute. Qed.

Lemma length_FILE_EDIT : length FILE_EDIT = 11.
Proof. reflexivity. Qed.

Lemma length_END_FILE_EDIT : length END_FILE_EDIT = 13.
Proof. reflexivity. Qed.

Lemma length_directive p c : length (directive p c) = 25 + length p + length c.
Proof.
  unfold directive. rewrite !length_app, length_cons, length_app.
  rewrite length_FILE_EDIT, length_END_FILE_EDIT. lia.
Qed.

Ltac solve_length :=
  repeat first
    [ rewrite length_app | rewrite length_cons | rewrite length_directive
    | rewrite length_FILE_EDIT | rewrite length_END_FILE_EDIT ];
  cbn [length]; lia.

Section EditFacts.

Variable str_exc : OSError → str.
Variable root : Path.

(** The pass of the loop over a well-formed directive. *)
Lemma edit_step_directive A p c R st :
  nl ∉ p → ¬ PyStr.occurs END_FILE_EDIT c →
  edit_step str_exc root (A ++ directive p c ++ R) st (length A)
  = Some (after_directive str_exc root st (length A) p c R,
          PyStr.find FILE_EDIT (A ++ directive p c ++ R)
            (length A + 12 + length p + length c)).
Proof.
  intros Hp Hc. unfold edit_step, after_directive.
  set (response := A ++ directive p c ++ R).
  assert (Hnl : PyStr.find [nl] response (length A)
                = Some (length A + 11 + length p)).
  { replace response with ((A ++ FILE_EDIT ++ p) ++ [nl] ++ (c ++ END_FILE_EDIT ++ R))
      by (unfold response, directive; by simplify_list_eq).
    rewrite (find_marker [nl]).
    - f_equal. solve_length.
    - apply unbordered_nl.
    - solve_length.
    - rewrite drop_app_length. rewrite occurs_singleton.
      intros [Hin|Hin]%elem_of_app; [|done].
      revert Hin. apply not_elem_of_decide. by vm_compute. }
  rewrite Hnl.
  assert (Hend : PyStr.find END_FILE_EDIT response (length A + 11 + length p)
                 = Some (length A + 12 + length p + length c)).
  { replace response with ((A ++ FILE_EDIT ++ p ++ nl :: c) ++ END_FILE_EDIT ++ R)
      by (unfold response, directive; by simplify_list_eq).
    rewrite (find_marker END_FILE_EDIT).
    - f_equal. solve_length.
    - apply unbordered_END_FILE_EDIT.
    - solve_length.
    - replace (A ++ FILE_EDIT ++ p ++ nl :: c)
        with ((A ++ FILE_EDIT ++ p) ++ nl :: c) by (by simplify_list_eq).
      replace (length A + 11 + length p) with (length (A ++ FILE_EDIT ++ p))
        by solve_length.
      rewrite drop_app_length.
      intros [[k Hk]|Hocc]%occurs_cons; [|done].
      by vm_compute in Hk. }
  rewrite Hend.
  assert (Hpath : PyStr.slice response (length A + 11) (length A + 11 + length p) = p).
  { replace response with ((A ++ FILE_EDIT) ++ p ++ (nl :: c ++ END_FILE_EDIT ++ R))
      by (unfold response, directive; by simplify_list_eq).
    apply slice_middle; solve_length. }
  assert (Hcontent : PyStr.slice response (length A + 11 + length p + 1)
                       (length A + 12 + length p + length c) = c).
  { replace response with ((A ++ FILE_EDIT ++ p ++ [nl]) ++ c ++ (END_FILE_EDIT ++ R))
      by (unfold response, directive; by simplify_list_eq).
    apply slice_middle; solve_length. }
  assert (Hspan : PyStr.slice response (length A)
                    (length A + 12 + length p + length c + 14)
                  = directive p c ++ take 1 R).
  { unfold response, PyStr.slice. rewrite drop_app_length.
    replace (length A + 12 + length p + length c + 14 - length A)
      with (length (directive p c) + 1) by solve_length.
    rewrite take_app_ge by lia. f_equal. f_equal. lia. }
  rewrite Hpath, Hcontent, Hspan.
  destruct (apply_edit root (st_fs st) (PyStr.strip p) (PyStr.strip c)) as [fs' o].
  cbn [fst snd].
  by replace (length A + length (directive p c) + 1)
    with (length A + 12 + length p + length c + 14) by solve_length.
Qed.

End EditFacts.

(** The closing marker cannot begin inside the opening one. *)
Lemma END_not_in_FILE_EDIT (tail : str) :
  PyStr.occurs END_FILE_EDIT (FILE_EDIT ++ tail) → PyStr.occurs END_FILE_EDIT tail.
Proof.
  intros [H|(i & Hi & [k Hk])]%occurs_app_inv; [done | exfalso].
  rewrite length_FILE_EDIT in Hi.
  do 11 (destruct i as [|i]; [by vm_compute in Hk |]). lia.
Qed.

Section LoopFacts.

Variable str_exc : OSError → str.
Variable root : Path.

Lemma edit_loop_None fuel response st :
  edit_loop str_exc root fuel response st None = st.
Proof. by destruct fuel. Qed.

Lemma edit_loop_break fuel response st start :
  edit_step str_exc root response st start = None →
  edit_loop str_exc root fuel response st (Some start) = st.
Proof. intros H. destruct fuel; [done |]. simpl. by rewrite H. Qed.

Lemma edit_loop_pass fuel response st start st' next :
  edit_step str_exc root response st start = Some (st', next) →
  edit_loop str_exc root (S fuel) response st (Some start)
  = edit_loop str_exc root fuel response st' next.
Proof. intros H. simpl. by rewrite H. Qed.

(** Every pass moves the start of the next directive forward. *)
Lemma edit_step_next response st start st' next :
  FILE_EDIT `prefix_of` drop start response →
  edit_step str_exc root response st start = Some (st', Some next) →
  start < next ∧ FILE_EDIT `prefix_of` drop next response.
Proof.
  intros [k Hk]. unfold edit_step.
  destruct (PyStr.find [nl] response start) as [fpe|] eqn:Hnl; [|done].
  destruct (PyStr.find END_FILE_EDIT response fpe) as [fee|] eqn:Hend; [|done].
  destruct (apply_edit _ _ _ _) as [fs' o]. intros [= _ Hnext].
  apply find_Some in Hnl as ([Hs _] & [k1 Hk1] & _).
  apply find_Some in Hend as ([He _] & _ & _).
  apply find_Some in Hnext as ([Hn _] & Hp & _).
  split; [|done].
  destruct (decide (fpe = start)) as [->|]; [|lia].
  rewrite Hk in Hk1. by vm_compute in Hk1.
Qed.

(** Fuel above the length of the response is never used up: the loop
    gives the same state with any larger amount. *)
Lemma edit_loop_more_fuel n m response st start :
  FILE_EDIT `prefix_of` drop start response →
  length response < start + n → n ≤ m →
  edit_loop str_exc root n response st (Some start)
  = edit_loop str_exc root m response st (Some start).
Proof.
  revert m st start. induction n as [|n IH]; intros m st start Hp Hn Hm.
  - destruct Hp as [k Hk]. rewrite drop_ge in Hk by lia. by vm_compute in Hk.
  - destruct m as [|m]; [lia |]. simpl.
    destruct (edit_step str_exc root response st start) as [[st' [next|]]|] eqn:Hstep;
      [|by rewrite !edit_loop_None | done].
    destruct (edit_step_next _ _ _ _ _ Hp Hstep) as [Hlt Hp'].
    apply IH; [done | lia | lia].
Qed.

Lemma process_file_edits_fuel fs response fuel :
  S (length response) ≤ fuel →
  edit_loop str_exc root fuel response
    {| st_fs := fs; edited_response := response; st_log := [] |}
    (PyStr.find FILE_EDIT response 0)
  = _process_file_edits str_exc root fs response.
Proof.
  intros Hf. unfold _process_file_edits.
  destruct (PyStr.find FILE_EDIT response 0) as [start|] eqn:Hfind;
    [|by rewrite !edit_loop_None].
  apply find_Some in Hfind as (_ & Hp & _).
  symmetry. apply edit_loop_more_fuel; [done | lia | done].
Qed.

(** Where the scan goes on after a directive. *)
Lemma find_next_directive A p c mid R :
  ¬ PyStr.occurs FILE_EDIT (END_FILE_EDIT ++ mid) →
  PyStr.find FILE_EDIT (A ++ directive p c ++ mid ++ FILE_EDIT ++ R)
    (length A + 12 + length p + length c)
  = Some (length (A ++ directive p c ++ mid)).
Proof.
  intros Hno.
  replace (A ++ directive p c ++ mid ++ FILE_EDIT ++ R)
    with (((A ++ FILE_EDIT ++ p ++ nl :: c) ++ END_FILE_EDIT ++ mid) ++ FILE_EDIT ++ R)
    by (unfold directive; by simplify_list_eq).
  rewrite (find_marker FILE_EDIT).
  - f_equal. unfold directive. by simplify_list_eq.
  - apply unbordered_FILE_EDIT.
  - solve_length.
  - replace (length A + 12 + length p + length c)
      with (length (A ++ FILE_EDIT ++ p ++ nl :: c)) by solve_length.
    by rewrite drop_app_length.
Qed.

Lemma find_no_next_directive A p c R :
  ¬ PyStr.occurs FILE_EDIT (END_FILE_EDIT ++ R) →
  PyStr.find FILE_EDIT (A ++ directive p c ++ R)
    (length A + 12 + length p + length c) = None.
Proof.
  intros Hno. apply find_absent.
  replace (A ++ directive p c ++ R)
    with ((A ++ FILE_EDIT ++ p ++ nl :: c) ++ END_FILE_EDIT ++ R)
    by (unfold directive; by simplify_list_eq).
  replace (length A + 12 + length p + length c)
    with (length (A ++ FILE_EDIT ++ p ++ nl :: c)) by solve_length.
  by rewrite drop_app_length.
Qed.

Lemma find_first_directive pre R :
  ¬ PyStr.occurs FILE_EDIT pre →
  PyStr.find FILE_EDIT (pre ++ FILE_EDIT ++ R) 0 = Some (length pre).
Proof.
  intros Hno. apply find_marker; [apply unbordered_FILE_EDIT | lia | done].
Qed.

(** A directive that is never closed ends the loop. *)
Lemma edit_step_unterminated A tail st :
  ¬ PyStr.occurs END_FILE_EDIT tail →
  edit_step str_exc root (A ++ FILE_EDIT ++ tail) st (length A) = None.
Proof.
  intros Hno. unfold edit_step.
  destruct (PyStr.find [nl] _ _) as [fpe|] eqn:Hnl; [|done].
  rewrite find_absent; [done |].
  apply find_Some in Hnl as ([Hs _] & _).
  intros Hocc. apply Hno, END_not_in_FILE_EDIT.
  replace fpe with (length A + (fpe - length A)) in Hocc by lia.
  rewrite <- drop_drop, drop_app_length in Hocc.
  apply occurs_prefix_drop in Hocc as (i & _ & Hp).
  rewrite drop_drop in Hp. by eapply prefix_drop_occurs.
Qed.

End LoopFacts.

Section Parser.

Variable str_exc : OSError → str.
Variable root : Path.

Abbreviation process := (_process_file_edits str_exc root).

Lemma process_no_marker fs text :
  ¬ PyStr.occurs FILE_EDIT text →
  process fs text = {| st_fs := fs; edited_response := text; st_log := [] |}.
Proof.
  intros Hno. unfold _process_file_edits.
  rewrite find_absent by done. apply edit_loop_None.
Qed.

Lemma process_unterminated fs pre tail :
  ¬ PyStr.occurs FILE_EDIT pre → ¬ PyStr.occurs END_FILE_EDIT tail →
  process fs (pre ++ FILE_EDIT ++ tail)
  = {| st_fs := fs; edited_response := pre ++ FILE_EDIT ++ tail; st_log := [] |}.
Proof.
  intros Hpre Htail. unfold _process_file_edits.
  rewrite find_first_directive by done.
  apply edit_loop_break. by apply edit_step_unterminated.
Qed.

Lemma process_one_then_unterminated fs pre p c mid tail :
  ¬ PyStr.occurs FILE_EDIT pre → nl ∉ p → ¬ PyStr.occurs END_FILE_EDIT c →
  ¬ PyStr.occurs FILE_EDIT (END_FILE_EDIT ++ mid) →
  ¬ PyStr.occurs END_FILE_EDIT tail →
  let response := pre ++ directive p c ++ mid ++ FILE_EDIT ++ tail in
  process fs response
  = after_directive str_exc root {| st_fs := fs; edited_response := response; st_log := [] |}
      (length pre) p c (mid ++ FILE_EDIT ++ tail).
Proof.
  intros Hpre Hp Hc Hmid Htail response. unfold _process_file_edits.
  replace (PyStr.find FILE_EDIT response 0) with (Some (length pre)).
  2:{ symmetry. unfold response, directive. rewrite <- !app_assoc.
      by apply find_first_directive. }
  erewrite edit_loop_pass; [|by apply edit_step_directive].
  rewrite find_next_directive by done.
  apply edit_loop_break.
  replace response with ((pre ++ directive p c ++ mid) ++ FILE_EDIT ++ tail)
    by (unfold response; by simplify_list_eq).
  by apply edit_step_unterminated.
Qed.

Lemma process_two_directives fs pre p1 c1 mid p2 c2 post :
  ¬ PyStr.occurs FILE_EDIT pre → nl ∉ p1 → ¬ PyStr.occurs END_FILE_EDIT c1 →
  ¬ PyStr.occurs FILE_EDIT (END_FILE_EDIT ++ mid) →
  nl ∉ p2 → ¬ PyStr.occurs END_FILE_EDIT c2 →
  ¬ PyStr.occurs FILE_EDIT (END_FILE_EDIT ++ post) →
  let response := pre ++ directive p1 c1 ++ mid ++ directive p2 c2 ++ post in
  process fs response
  = after_directive str_exc root
      (after_directive str_exc root {| st_fs := fs; edited_response := response; st_log := [] |}
         (length pre) p1 c1 (mid ++ directive p2 c2 ++ post))
      (length (pre ++ directive p1 c1 ++ mid)) p2 c2 post.
Proof.
  intros Hpre Hp1 Hc1 Hmid Hp2 Hc2 Hpost response.
  rewrite <- (process_file_edits_fuel _ _ _ _ (S (S (length response)))) by lia.
  replace (PyStr.find FILE_EDIT response 0) with (Some (length pre)).
  2:{ symmetry. unfold response, directive. rewrite <- !app_assoc.
      by apply find_first_directive. }
  erewrite edit_loop_pass; [|by apply edit_step_directive].
  match goal with
  | |- context [PyStr.find FILE_EDIT ?r ?n] =>
      replace (PyStr.find FILE_EDIT r n)
        with (Some (length (pre ++ directive p1 c1 ++ mid)))
  end.
  2:{ symmetry. unfold directive at 2. rewrite <- !app_assoc.
      by apply find_next_directive. }
  assert (Hr : response = (pre ++ directive p1 c1 ++ mid) ++ directive p2 c2 ++ post)
    by (unfold response; by simplify_list_eq).
  erewrite edit_loop_pass; [|rewrite Hr at 1; by apply edit_step_directive].
  rewrite Hr at 2. rewrite find_no_next_directive by done.
  apply edit_loop_None.
Qed.

End Parser.

Section Rendering.

Variable str_exc : OSError → str.

(** The first directive of a response is replaced where it stands. *)
Lemma replace_first_span (pre x rest new : str) :
  ¬ PyStr.occurs FILE_EDIT pre →
  PyStr.replace (FILE_EDIT ++ x) new (pre ++ (FILE_EDIT ++ x) ++ rest)
  = pre ++ new ++ PyStr.replace (FILE_EDIT ++ x) new rest.
Proof.
  intros Hpre.
  assert (Hne : FILE_EDIT ++ x ≠ []) by done.
  rewrite !replace_nonempty by done.
  rewrite replace_scan_miss.
  - by rewrite replace_scan_hit.
  - intros i Hi Hp. apply Hpre. apply (prefix_drop_occurs _ _ i).
    eapply (occurrence_before_marker _ _ (x ++ rest)); [apply unbordered_FILE_EDIT | done |].
    etrans; [|by rewrite <- app_assoc in Hp]. by exists x.
Qed.

(** A status line stays where it is when a later directive is
    replaced. *)
Lemma replace_keeps_error_status (pre path x rest new : str) e :
  ¬ PyStr.occurs FILE_EDIT pre →
  ¬ PyStr.occurs FILE_EDIT (error_status str_exc path e) →
  PyStr.replace (FILE_EDIT ++ x) new (pre ++ error_status str_exc path e ++ rest)
  = pre ++ error_status str_exc path e ++ PyStr.replace (FILE_EDIT ++ x) new rest.
Proof.
  intros Hpre Hst.
  assert (Hne : FILE_EDIT ++ x ≠ []) by done.
  rewrite !replace_nonempty by done.
  rewrite !app_assoc. rewrite replace_scan_miss; [done |].
  intros i Hi Hp.
  eapply (no_occurrence_across FILE_EDIT pre (error_status str_exc path e));
    [done | done | reflexivity | | | | done | ].
  - apply not_elem_of_decide. by vm_compute.
  - unfold error_status. rewrite !app_assoc. by rewrite last_app.
  - apply not_elem_of_decide. by vm_compute.
  - etrans; [|done]. by exists x.
Qed.

End Rendering.

(** ** The inspector *)

Lemma append_new_prefix techs dep : techs `prefix_of` append_new techs dep.
Proof. unfold append_new. case_bool_decide; [done | by exists [dep]]. Qed.

Lemma append_new_NoDup techs dep : NoDup techs → NoDup (append_new techs dep).
Proof.
  intros Hnd. unfold append_new. case_bool_decide as Hin; [done |].
  apply NoDup_app. split; [done |]. split; [|apply NoDup_singleton].
  intros x Hx ->%list_elem_of_singleton. done.
Qed.

(** The requirement lines only add names, and none twice. *)
Lemma requirements_prefix techs lines :
  techs `prefix_of` foldl add_requirement techs lines.
Proof.
  revert techs. induction lines as [|line lines IH]; intros techs; [done |].
  simpl. etrans; [|apply IH]. unfold add_requirement.
  case_bool_decide; [apply append_new_prefix | done].
Qed.

Lemma requirements_NoDup techs lines :
  NoDup techs → NoDup (foldl add_requirement techs lines).
Proof.
  revert techs. induction lines as [|line lines IH]; intros techs Hnd; [done |].
  simpl. apply IH. unfold add_requirement.
  case_bool_decide; [by apply append_new_NoDup | done].
Qed.

Lemma read_exists fs p text : FS.read fs p = inr text → FS.exists_ fs p = true.
Proof.
  unfold FS.read, FS.exists_. by destruct (FS.stat fs p) as [e|[|t]].
Qed.

Lemma is_dir_exists fs p : FS.is_dir fs p = true → FS.exists_ fs p = true.
Proof.
  unfold FS.is_dir, FS.exists_. by destruct (FS.stat fs p) as [e|[|t]].
Qed.

Section FormatFacts.

Variable fill : str → str.

Lemma format_lines_snoc lines line :
  format_lines fill (lines ++ [line])
  = format_line fill (format_lines fill lines) line.
Proof. unfold format_lines. by rewrite foldl_app. Qed.

(** The formatter is inside a code block after an odd number of fence
    lines. *)
Lemma in_code_block_parity lines :
  in_code_block (format_lines fill lines)
  = Nat.odd (length (filter (λ l, is_fence l = true) lines)).
Proof.
  induction lines as [|line lines IH] using rev_ind; [done |].
  rewrite format_lines_snoc, filter_app, length_app.
  unfold format_line. fold (is_fence line).
  destruct (is_fence line) eqn:Hf.
  - rewrite filter_cons_True by done. simpl.
    rewrite Nat.add_1_r, Nat.odd_succ, <- Nat.negb_odd, <- IH.
    by destruct (in_code_block (format_lines fill lines)).
  - rewrite filter_cons_False by (by rewrite Hf). simpl.
    rewrite Nat.add_0_r, <- IH.
    by destruct (in_code_block (format_lines fill lines)).
Qed.

(** Inside a code block, lines without a fence are only collected. *)
Lemma collect_code_lines st code :
  in_code_block st = true → Forall (λ l, is_fence l = false) code →
  result (foldl (format_line fill) st code) = result st
  ∧ in_code_block (foldl (format_line fill) st code) = true.
Proof.
  intros Hin Hcode. revert st Hin.
  induction Hcode as [|line code Hline _ IH]; intros st Hin; [done |].
  assert (Hst : format_line fill st line
                = {| result := result st;
                     in_code_block := true;
                     code_lines := code_lines st ++ [line] |}).
  { unfold format_line. fold (is_fence line). by rewrite Hline, Hin. }
  simpl. rewrite Hst.
  by destruct (IH {| result := result st;
                     in_code_block := true;
                     code_lines := code_lines st ++ [line] |} eq_refl) as [-> ->].
Qed.

End FormatFacts.

(** ** What is read does not depend on what was written *)

Section Independence.

Variable str_exc : OSError → str.
Variable root : Path.

(** A pass reads the same directive and goes on at the same place
    whatever the state it starts from; it applies what it read. *)
Lemma edit_step_log response st start st' next :
  edit_step str_exc root response st start = Some (st', next) →
  ∃ p c,
    instructions st' = instructions st ++ [(p, c)]
    ∧ st_fs st' = (apply_edit root (st_fs st) p c).1
    ∧ ∀ st2, ∃ st2',
        edit_step str_exc root response st2 start = Some (st2', next)
        ∧ instructions st2' = instructions st2 ++ [(p, c)].
Proof.
  unfold edit_step.
  destruct (PyStr.find [nl] response start) as [fpe|]; [|done].
  destruct (PyStr.find END_FILE_EDIT response fpe) as [fee|]; [|done].
  set (p := PyStr.strip (PyStr.slice response (start + 11) fpe)).
  set (c := PyStr.strip (PyStr.slice response (fpe + 1) fee)).
  destruct (apply_edit root (st_fs st) p c) as [fs' o] eqn:Ha.
  intros [= <- <-]. exists p, c. split; [|split].
  - unfold instructions. cbn. by rewrite map_app.
  - cbn. by rewrite ?Ha.
  - intros st2. destruct (apply_edit root (st_fs st2) p c) as [fs2 o2].
    eexists. split; [done |]. unfold instructions. cbn. by rewrite map_app.
Qed.

Lemma edit_loop_instructions fuel response st1 st2 start :
  ∃ tail,
    instructions (edit_loop str_exc root fuel response st1 start)
    = instructions st1 ++ tail
    ∧ instructions (edit_loop str_exc root fuel response st2 start)
      = instructions st2 ++ tail.
Proof.
  revert st1 st2 start. induction fuel as [|fuel IH]; intros st1 st2 start.
  { exists []. by rewrite !app_nil_r. }
  destruct start as [start|]; [|exists []; by rewrite !app_nil_r].
  cbn [edit_loop].
  destruct (edit_step str_exc root response st1 start) as [[st1' next]|] eqn:H1.
  - destruct (edit_step_log _ _ _ _ _ H1) as (p & c & Hi1 & _ & Hany).
    destruct (Hany st2) as (st2' & -> & Hi2).
    destruct (IH st1' st2' next) as (tail & -> & ->).
    exists ((p, c) :: tail). rewrite Hi1, Hi2. by rewrite <- !app_assoc.
  - destruct (edit_step str_exc root response st2 start) as [[st2' next]|] eqn:H2.
    + destruct (edit_step_log _ _ _ _ _ H2) as (p & c & _ & _ & Hany).
      destruct (Hany st1) as (st1' & Hs & _). congruence.
    + exists []. by rewrite !app_nil_r.
Qed.

(** The instructions of a response are the same on every file system:
    no outcome of an edit changes what is read after it. *)
Lemma instructions_independent fs1 fs2 response :
  instructions (_process_file_edits str_exc root fs1 response)
  = instructions (_process_file_edits str_exc root fs2 response).
Proof.
  unfold _process_file_edits.
  destruct (edit_loop_instructions (S (length response)) response
              {| st_fs := fs1; edited_response := response; st_log := [] |}
              {| st_fs := fs2; edited_response := response; st_log := [] |}
              (PyStr.find FILE_EDIT response 0)) as (tail & -> & ->).
  done.
Qed.

Lemma edit_loop_applies_all fuel response st start fs0 :
  st_fs st = apply_all root fs0 (instructions st) →
  st_fs (edit_loop str_exc root fuel response st start)
  = apply_all root fs0 (instructions (edit_loop str_exc root fuel response st start)).
Proof.
  revert st start. induction fuel as [|fuel IH]; intros st start Hst; [done |].
  destruct start as [start|]; [|done]. cbn [edit_loop].
  destruct (edit_step str_exc root response st start) as [[st' next]|] eqn:Hs;
    [|done].
  apply IH. destruct (edit_step_log _ _ _ _ _ Hs) as (p & c & -> & -> & _).
  unfold apply_all. rewrite foldl_app. cbn. by rewrite Hst.
Qed.

(** Every instruction read is applied, in the order of the text, to
    the file system the one before it left. *)
Lemma process_applies_all fs response :
  let st := _process_file_edits str_exc root fs response in
  st_fs st = apply_all root fs (instructions st).
Proof. by apply edit_loop_applies_all. Qed.

End Independence.

Ltac absent := apply find_None_occurs; vm_compute; reflexivity.
Ltac no_newline := apply not_elem_of_decide; vm_compute; reflexivity.

(** * The claims *)

(** C1, as stated, fails: the edit below is applied and its file is
    created above the project directory. *)
Lemma path_escape_counterexample :
  let st := _process_file_edits Sample.str_exc Sample.root Sample.fs
              Sample.escaping_response in
  map edit_outcome (st_log st) = [Applied]
  ∧ Sample.fs !! Sample.outside = None
  ∧ st_fs st !! Sample.outside = Some (File (lit "echo pwned"))
  ∧ ¬ FS.inside Sample.root Sample.outside.
Proof.
  repeat split; try (vm_compute; reflexivity).
  intros [k Hk]. by vm_compute in Hk.
Qed.

(** C1, as amended.  No check stands between a path of the collaborator
    and the write: the path of an edit instruction or of a plan entry is
    joined onto the project directory and handed to [mkdir] and [open]
    as it is, and no [PathEscape] failure exists.  For an existing
    project directory and [k >= 1] segments [..] before a name, an edit
    that is reported as applied, and a file entry of a plan that is
    created without an error, have written the text at the [k]-th
    ancestor of the project directory, outside the project tree. *)
Theorem dotdot_path_written_outside_root root fs k name text fs' :
  root ≠ [] → Forall (λ s, FS.special s = false) root →
  FS.is_dir fs root = true →
  0 < k → FS.is_name name →
  apply_edit root fs (dotdots k ++ name) text = (fs', Applied)
  ∨ create_item root fs
      {| entry_path := dotdots k ++ name;
         entry_type := lit "file";
         entry_content := Some text |}
    = (fs', None) →
  let target := take (length root - k) root ++ [name] in
  ¬ FS.inside root target ∧ fs' !! target = Some (File text).
Proof.
  intros Hne Hp Hd Hk Hname Hrun target.
  assert (Hw : write_file fs (root ++ replicate k FS.dotdot ++ [name]) text
               = (fs', None)).
  { destruct Hrun as [Hrun|Hrun].
    - unfold apply_edit in Hrun. rewrite joinpath_dotdots in Hrun by done.
      destruct (write_file fs _ text) as [fs1 [e|]]; [done |].
      by injection Hrun as ->.
    - unfold create_item in Hrun.
      cbn [entry_path entry_type entry_content default] in Hrun.
      rewrite joinpath_dotdots in Hrun by done.
      rewrite decide_False in Hrun by (by vm_compute).
      by rewrite decide_True in Hrun by done. }
  assert (Hfree : fs !! target ≠ Some Dir).
  { intros Hdir.
    destruct (write_file_dotdots_dir fs root k name text Hp Hd Hname Hdir)
      as [e He].
    rewrite He in Hw. done. }
  rewrite write_file_dotdots in Hw by done. injection Hw as <-.
  split; [|by rewrite lookup_insert_eq].
  intros Hin. apply Hfree.
  assert (Hlen : length root ≤ length target) by (by apply prefix_length).
  unfold target in Hlen. rewrite length_app, length_take in Hlen. simpl in Hlen.
  assert (Heq : root = target).
  { apply prefix_length_eq; [done |]. unfold target.
    rewrite length_app, length_take. simpl.
    destruct root; [done | simpl in *; lia]. }
  rewrite <- Heq.
  destruct (walk_plain_dir _ _ Hp Hd) as [_ Hn].
  unfold FS.node_at in Hn. by destruct root.
Qed.

Lemma dotdot_path_written_outside_root_witness :
  ¬ FS.inside Sample.root Sample.outside
  ∧ (apply_edit Sample.root Sample.fs (dotdots 2 ++ lit ".bashrc")
       (lit "echo pwned")).1 !! Sample.outside
    = Some (File (lit "echo pwned")).
Proof.
  apply (dotdot_path_written_outside_root Sample.root Sample.fs 2
           (lit ".bashrc") (lit "echo pwned")
           (apply_edit Sample.root Sample.fs (dotdots 2 ++ lit ".bashrc")
              (lit "echo pwned")).1).
  - vm_compute. discriminate.
  - repeat constructor.
  - vm_compute. reflexivity.
  - lia.
  - split; [vm_compute; reflexivity | no_newline].
  - left. rewrite (surjective_pairing (apply_edit _ _ _ _)) at 1.
    f_equal; vm_compute; reflexivity.
Defined.

(** C2.  The instructions of a response: none when the marker
    [FILE_EDIT: ] does not occur; exactly two, in the order of the text,
    for two well-formed directives that do not overlap; none for a
    directive that is never closed, whether it comes first or after a
    well-formed one, whose instruction is then the only one. *)
Theorem parser_contract str_exc root fs :
  (∀ text,
      ¬ PyStr.occurs FILE_EDIT text →
      instructions (_process_file_edits str_exc root fs text) = [])
  ∧ (∀ pre p1 c1 mid p2 c2 post,
      ¬ PyStr.occurs FILE_EDIT pre →
      nl ∉ p1 → ¬ PyStr.occurs END_FILE_EDIT c1 →
      ¬ PyStr.occurs FILE_EDIT (END_FILE_EDIT ++ mid) →
      nl ∉ p2 → ¬ PyStr.occurs END_FILE_EDIT c2 →
      ¬ PyStr.occurs FILE_EDIT (END_FILE_EDIT ++ post) →
      instructions
        (_process_file_edits str_exc root fs
           (pre ++ directive p1 c1 ++ mid ++ directive p2 c2 ++ post))
      = [(PyStr.strip p1, PyStr.strip c1); (PyStr.strip p2, PyStr.strip c2)])
  ∧ (∀ pre tail,
      ¬ PyStr.occurs FILE_EDIT pre → ¬ PyStr.occurs END_FILE_EDIT tail →
      instructions
        (_process_file_edits str_exc root fs (pre ++ FILE_EDIT ++ tail)) = [])
  ∧ (∀ pre p1 c1 mid tail,
      ¬ PyStr.occurs FILE_EDIT pre →
      nl ∉ p1 → ¬ PyStr.occurs END_FILE_EDIT c1 →
      ¬ PyStr.occurs FILE_EDIT (END_FILE_EDIT ++ mid) →
      ¬ PyStr.occurs END_FILE_EDIT tail →
      instructions
        (_process_file_edits str_exc root fs
           (pre ++ directive p1 c1 ++ mid ++ FILE_EDIT ++ tail))
      = [(PyStr.strip p1, PyStr.strip c1)]).
Proof.
  repeat split.
  - intros text Hno. by rewrite process_no_marker.
  - intros. by rewrite process_two_directives.
  - intros. by rewrite process_unterminated.
  - intros. by rewrite process_one_then_unterminated.
Qed.

Lemma parser_contract_witness :
  instructions (_process_file_edits Sample.str_exc Sample.root Sample.fs
                  (lit "Nothing to change."))
  = []
  ∧ instructions (_process_file_edits Sample.str_exc Sample.root Sample.fs
                    Sample.two_edits)
    = [(lit "docs", lit "hello"); (lit "b.txt", lit "world")]
  ∧ instructions (_process_file_edits Sample.str_exc Sample.root Sample.fs
                    (lit "Wait." ++ FILE_EDIT ++ lit "a.txt" ++ [nl] ++ lit "never closed"))
    = []
  ∧ instructions (_process_file_edits Sample.str_exc Sample.root Sample.fs
                    Sample.one_then_open)
    = [(lit "a.txt", lit "hello")].
Proof.
  destruct (parser_contract Sample.str_exc Sample.root Sample.fs)
    as (Hnone & Htwo & Hopen & Hone).
  split; [|split; [|split]].
  - apply Hnone. absent.
  - apply (Htwo (lit "First:" ++ [nl]) (lit "docs") (lit "hello" ++ [nl])
             ([nl] ++ lit "Second:" ++ [nl]) (lit "b.txt") (lit "world" ++ [nl])
             ([nl] ++ lit "Bye.")); first [absent | no_newline].
  - apply (Hopen (lit "Wait.") (lit "a.txt" ++ [nl] ++ lit "never closed")); absent.
  - apply (Hone (lit "First:" ++ [nl]) (lit "a.txt") (lit "hello" ++ [nl]) [nl]
             (lit "b.txt" ++ [nl] ++ lit "never closed")); first [absent | no_newline].
Defined.

(** C3: at [Sample.status_response] the newline after the closing marker
    is replaced together with the directive. *)
Theorem status_replaces_one_more_character :
  let st := _process_file_edits Sample.str_exc Sample.root Sample.fs
              Sample.status_response in
  map edit_span (st_log st) = [(3, 40)]
  ∧ PyStr.slice Sample.status_response 3 39
    = directive (lit "a.txt") (lit "hello" ++ [nl])
  ∧ edited_response st
    = lit "Hi" ++ [nl] ++ applied_status (lit "a.txt") ++ lit "Done."
  ∧ edited_response st
    ≠ lit "Hi" ++ [nl] ++ applied_status (lit "a.txt") ++ [nl] ++ lit "Done.".
Proof.
  repeat split; try (vm_compute; reflexivity).
  vm_compute. discriminate.
Qed.

(** C4.  When the project directory exists and the answer to the prompt
    is anything but [y] or [Y], [_create_project] returns [None] and the
    file system is as it was. *)
Theorem declined_overwrite_writes_nothing projects_dir confirm fs plan :
  FS.exists_ fs (FS.joinpath projects_dir (project_name plan)) = true →
  PyStr.lower confirm ≠ lit "y" →
  _create_project projects_dir confirm fs plan = (fs, inr None).
Proof.
  intros He Hc. unfold _create_project. rewrite He.
  by rewrite bool_decide_true.
Qed.

Lemma declined_overwrite_writes_nothing_witness :
  _create_project Sample.projects (lit "n") Sample.fs
    {| project_name := lit "demo"; description := lit "again";
       technologies := None; dependencies := None; structure := [] |}
  = (Sample.fs, inr None).
Proof.
  apply declined_overwrite_writes_nothing.
  - vm_compute. reflexivity.
  - vm_compute. discriminate.
Defined.

(** C5.  When [_create_project] succeeds, the entries were written from
    a state in which [README.md] held the generated text (and
    [requirements.txt] the dependencies, for a python project); a file
    entry named [README.md] or [requirements.txt] that no later file
    entry writes over is what the final tree holds at that path. *)
Theorem entries_take_precedence projects_dir confirm fs plan fs' project_path :
  _create_project projects_dir confirm fs plan = (fs', inr (Some project_path)) →
  (∃ fs3,
      FS.read fs3 (FS.joinpath project_path (lit "README.md")) = inr (readme_text plan)
      ∧ (lit "python" ∈ plan_technologies plan →
         FS.read fs3 (FS.joinpath project_path (lit "requirements.txt"))
         = inr (requirements_text plan))
      ∧ create_items project_path fs3 (structure plan) = (fs', None))
  ∧ ∀ before e after,
      structure plan = before ++ e :: after →
      entry_type e = lit "file" →
      entry_path e = lit "README.md" ∨ entry_path e = lit "requirements.txt" →
      (∀ e', e' ∈ after → entry_type e' = lit "file" →
             entry_target project_path e' ≠ entry_target project_path e) →
      FS.read fs' (FS.joinpath project_path (entry_path e))
      = inr (default [] (entry_content e)).
Proof.
  unfold _create_project.
  set (pp := FS.joinpath projects_dir (project_name plan)).
  destruct (_ && _); [done |].
  destruct (FS.mkdir fs pp) as [fs1 [e1|]]; [done |].
  destruct (FS.write fs1 _ _) as [fs2 [e2|]] eqn:Hreadme; [done |].
  destruct (if bool_decide _ then _ else _) as [fs3 [e3|]] eqn:Hreq; [done |].
  destruct (create_items pp fs3 (structure plan)) as [fs4 [e4|]] eqn:Hitems; [done |].
  intros [= <- <-]. split.
  - exists fs3. split; [|split; [|done]].
    + apply write_read in Hreadme as Hr.
      case_bool_decide; [|by injection Hreq as <-].
      eapply read_preserved; [by eapply write_dirs_le | done |].
      rewrite (write_other _ _ _ _ _ _ Hreq); [by apply read_lookup |].
      rewrite !joinpath_name by done. rewrite !normalize_snoc.
      rewrite !step_plain by done.
      intros [_ Hname]%app_inj_tail. by vm_compute in Hname.
    + intros Hpy. rewrite bool_decide_true in Hreq by done.
      by eapply write_read.
  - intros before e after Hs Hty _ Hne. rewrite Hs in Hitems.
    by eapply create_items_entry.
Qed.

Lemma entries_take_precedence_witness :
  FS.read (_create_project Sample.projects [] Sample.fs Sample.plan).1
    (FS.joinpath (Sample.projects ++ [lit "blog"]) (lit "README.md"))
  = inr (lit "# My blog").
Proof.
  destruct (entries_take_precedence Sample.projects [] Sample.fs Sample.plan
              (_create_project Sample.projects [] Sample.fs Sample.plan).1
              (Sample.projects ++ [lit "blog"])) as [_ Hentry].
  - rewrite (surjective_pairing (_create_project _ _ _ _)) at 1.
    f_equal; vm_compute; reflexivity.
  - apply (Hentry
             [{| entry_path := lit "app.py";
                 entry_type := lit "file";
                 entry_content := Some (lit "print('hi')") |}]
             {| entry_path := lit "README.md";
                entry_type := lit "file";
                entry_content := Some (lit "# My blog") |}
             []).
    + reflexivity.
    + reflexivity.
    + left. reflexivity.
    + intros e' He'. inversion He'.
Defined.



(** C7.  For a directory without [package.json], the technologies read
    from [requirements.txt] begin with [python] and hold no name twice;
    when the manifest lists [flask==2.0.1] and [requests>=2.0] they are
    [python], [flask] and [requests], the names without their version
    specifiers. *)
Theorem manifest_technologies package_dependencies fs project_path text :
  let root := FS.normalize project_path in
  FS.is_dir fs root = true →
  FS.exists_ fs (root ++ [lit "package.json"]) = false →
  FS.read fs (root ++ [lit "requirements.txt"]) = inr text →
  ∃ techs,
    current_project_technologies <$>
      _load_project_info package_dependencies fs project_path = Some techs
    ∧ head techs = Some (lit "python")
    ∧ NoDup techs
    ∧ (text = flask_requests_manifest →
       techs = [lit "python"; lit "flask"; lit "requests"]).
Proof.
  intros root Hd Hpkg Hreq. unfold _load_project_info. fold root.
  rewrite (is_dir_exists _ _ Hd), Hd. cbn [andb negb].
  rewrite !joinpath_name by done.
  rewrite Hpkg, (read_exists _ _ _ Hreq), Hreq. cbn [app].
  destruct (requirements_prefix [lit "python"] (text_lines text)) as [k Hk].
  rewrite Hk. cbn [app fmap option_fmap option_map current_project_technologies].
  eexists. split; [done |]. split; [done |]. split.
  - change (lit "python" :: k) with ([lit "python"] ++ k). rewrite <- Hk.
    apply requirements_NoDup, NoDup_singleton.
  - intros ->. change (lit "python" :: k) with ([lit "python"] ++ k).
    rewrite <- Hk. by vm_compute.
Qed.

Lemma manifest_technologies_witness :
  current_project_technologies <$>
    _load_project_info (λ _, []) Sample.fs_manifest Sample.root
  = Some [lit "python"; lit "flask"; lit "requests"].
Proof.
  destruct (manifest_technologies (λ _, []) Sample.fs_manifest Sample.root
              flask_requests_manifest) as (techs & -> & _ & _ & ->).
  - vm_compute. reflexivity.
  - vm_compute. reflexivity.
  - vm_compute. reflexivity.
  - reflexivity.
  - reflexivity.
Defined.

(** When the first of two well-formed directives fails, the second is
    still read and applied, to the file system the failed attempt left;
    the rendered response carries the error line of the first in the
    place of that directive.  (The error line is taken not to contain
    the marker [FILE_EDIT: ] itself.) *)
Lemma first_failure_reported_second_applied
    str_exc root fs pre p1 c1 mid p2 c2 post fs1 e :
  ¬ PyStr.occurs FILE_EDIT pre →
  nl ∉ p1 → ¬ PyStr.occurs END_FILE_EDIT c1 →
  ¬ PyStr.occurs FILE_EDIT (END_FILE_EDIT ++ mid) →
  nl ∉ p2 → ¬ PyStr.occurs END_FILE_EDIT c2 →
  ¬ PyStr.occurs FILE_EDIT (END_FILE_EDIT ++ post) →
  apply_edit root fs (PyStr.strip p1) (PyStr.strip c1) = (fs1, Failed e) →
  ¬ PyStr.occurs FILE_EDIT (error_status str_exc (PyStr.strip p1) e) →
  let st := _process_file_edits str_exc root fs
              (pre ++ directive p1 c1 ++ mid ++ directive p2 c2 ++ post) in
  let second := apply_edit root fs1 (PyStr.strip p2) (PyStr.strip c2) in
  st_fs st = second.1
  ∧ map (λ ed, (edit_path ed, edit_content ed, edit_outcome ed)) (st_log st)
    = [(PyStr.strip p1, PyStr.strip c1, Failed e);
       (PyStr.strip p2, PyStr.strip c2, second.2)]
  ∧ ∃ rest, edited_response st
            = pre ++ error_status str_exc (PyStr.strip p1) e ++ rest.
Proof.
  intros Hpre Hp1 Hc1 Hmid Hp2 Hc2 Hpost Hfail Hstatus st second.
  unfold st. rewrite process_two_directives by done.
  unfold after_directive. cbn [st_fs st_log edited_response].
  rewrite Hfail. cbn [fst snd app map edit_path edit_content edit_outcome status].
  fold second. split; [done | split; [done |]].
  set (next := mid ++ directive p2 c2 ++ post).
  replace (pre ++ directive p1 c1 ++ next)
    with (pre ++ (FILE_EDIT ++ p1 ++ nl :: c1 ++ END_FILE_EDIT ++ take 1 next)
              ++ drop 1 next).
  2:{ rewrite <- (take_drop 1 next) at 3. unfold directive. by simplify_list_eq. }
  replace (directive p1 c1 ++ take 1 next)
    with (FILE_EDIT ++ p1 ++ nl :: c1 ++ END_FILE_EDIT ++ take 1 next)
    by (unfold directive; by simplify_list_eq).
  rewrite replace_first_span by done.
  replace (directive p2 c2 ++ take 1 post)
    with (FILE_EDIT ++ p2 ++ nl :: c2 ++ END_FILE_EDIT ++ take 1 post)
    by (unfold directive; by simplify_list_eq).
  rewrite replace_keeps_error_status by done. eauto.
Qed.

Lemma first_failure_reported_second_applied_witness :
  let failure :=
    {| exc_errno := EISDIR; exc_filename := Sample.root ++ [lit "docs"] |} in
  let fs1 := (apply_edit Sample.root Sample.fs (lit "docs") (lit "hello")).1 in
  let st := _process_file_edits Sample.str_exc Sample.root Sample.fs
              Sample.two_edits in
  let second := apply_edit Sample.root fs1 (lit "b.txt") (lit "world") in
  st_fs st = second.1
  ∧ map (λ ed, (edit_path ed, edit_content ed, edit_outcome ed)) (st_log st)
    = [(lit "docs", lit "hello", Failed failure);
       (lit "b.txt", lit "world", second.2)]
  ∧ ∃ rest, edited_response st
            = (lit "First:" ++ [nl])
              ++ error_status Sample.str_exc (lit "docs") failure ++ rest.
Proof.
  intros failure fs1.
  apply (first_failure_reported_second_applied Sample.str_exc Sample.root
           Sample.fs
           (lit "First:" ++ [nl]) (lit "docs") (lit "hello" ++ [nl])
           ([nl] ++ lit "Second:" ++ [nl]) (lit "b.txt") (lit "world" ++ [nl])
           ([nl] ++ lit "Bye.") fs1 failure);
    try first [absent | no_newline].
  unfold fs1. rewrite (surjective_pairing (apply_edit _ _ _ _)) at 1.
  f_equal; vm_compute; reflexivity.
Defined.

(** C8.  A failed edit does not stop the loop, but its error line can
    be missing from the rendered response.  In the response
    [Sample.adjacent_edits] the second directive follows the first with
    nothing between them: the first is applied and written, the second
    fails on the directory [docs] and is logged as failed.  The slice
    replaced for the first is one character longer than its directive
    and takes the [F] of the second marker; the slice of the second pass
    then occurs nowhere in the text being rendered, which keeps the rest
    of the second directive and no error line, whatever [str(e)] is. *)
Theorem adjacent_failure_not_reported str_exc :
  let failure :=
    {| exc_errno := EISDIR; exc_filename := Sample.root ++ [lit "docs"] |} in
  let st := _process_file_edits str_exc Sample.root Sample.fs
              Sample.adjacent_edits in
  map (λ ed, (edit_path ed, edit_content ed, edit_outcome ed)) (st_log st)
  = [(lit "a.txt", lit "hello", Applied); (lit "docs", lit "x", Failed failure)]
  ∧ st_fs st !! (Sample.root ++ [lit "a.txt"]) = Some (File (lit "hello"))
  ∧ edited_response st
    = applied_status (lit "a.txt")
      ++ lit "ILE_EDIT: docs" ++ [nl] ++ lit "x" ++ [nl] ++ END_FILE_EDIT
      ++ [nl] ++ lit "Bye."
  ∧ ¬ PyStr.occurs (lit "ERROR UPDATING") (edited_response st).
Proof.
  intros failure st.
  assert (Hr : edited_response st
    = applied_status (lit "a.txt")
      ++ lit "ILE_EDIT: docs" ++ [nl] ++ lit "x" ++ [nl] ++ END_FILE_EDIT
      ++ [nl] ++ lit "Bye.") by (vm_compute; reflexivity).
  split; [vm_compute; reflexivity |].
  split; [vm_compute; reflexivity |].
  split; [exact Hr |].
  rewrite Hr. absent.
Qed.

(** C9.  When the lines of the text end inside a code block (an even
    number of fence lines, then an opening fence, then lines without a
    fence), the output is what the lines up to the opening fence give:
    it ends with the banner of that fence; the lines collected after it
    and a closing banner are not in it. *)
Theorem unclosed_fence_drops_code fill text pre opening code :
  PyStr.split nl text = pre ++ opening :: code →
  Nat.even (length (filter (λ l, is_fence l = true) pre)) = true →
  is_fence opening = true →
  Forall (λ l, is_fence l = false) code →
  _format_terminal_text fill text
  = PyStr.join [nl] (result (format_lines fill pre) ++ [opening_banner opening])
  ∧ _format_terminal_text fill text
    = PyStr.join [nl] (result (format_lines fill (pre ++ [opening]))).
Proof.
  intros Hsplit Hpre Hopen Hcode.
  assert (Hout : in_code_block (format_lines fill pre) = false).
  { rewrite in_code_block_parity, <- Nat.negb_even, Hpre. done. }
  assert (Hstep : format_line fill (format_lines fill pre) opening
                  = {| result := result (format_lines fill pre) ++ [opening_banner opening];
                       in_code_block := true;
                       code_lines := code_lines (format_lines fill pre) |}).
  { unfold format_line. fold (is_fence opening). by rewrite Hopen, Hout. }
  assert (Hres : result (format_lines fill (pre ++ opening :: code))
                 = result (format_lines fill pre) ++ [opening_banner opening]).
  { unfold format_lines at 1. rewrite foldl_app. simpl.
    fold (format_lines fill pre). rewrite Hstep.
    by destruct (collect_code_lines fill
                   {| result := result (format_lines fill pre) ++ [opening_banner opening];
                      in_code_block := true;
                      code_lines := code_lines (format_lines fill pre) |}
                   code eq_refl Hcode) as [-> _]. }
  unfold _format_terminal_text. rewrite Hsplit, Hres. split; [done |].
  by rewrite format_lines_snoc, Hstep.
Qed.

Lemma unclosed_fence_drops_code_witness :
  _format_terminal_text Sample.fill Sample.fenced_text
  = PyStr.join [nl] [lit "Look:"; opening_banner (lit "```python")]
  ∧ _format_terminal_text Sample.fill Sample.fenced_text
    = PyStr.join [nl]
        (result (format_lines Sample.fill [lit "Look:"; lit "```python"])).
Proof.
  apply (unclosed_fence_drops_code Sample.fill Sample.fenced_text
           [lit "Look:"] (lit "```python") [lit "x = 1"; lit "y = 2"]).
  - vm_compute. reflexivity.
  - vm_compute. reflexivity.
  - vm_compute. reflexivity.
  - repeat constructor.
Defined.

(** C10.  A round with the collaborator appends the user input and
    the reply as it was received to the history; the text with the
    directives replaced and reflowed is only what is printed. *)
Theorem history_keeps_original_response
    str_exc fill root completion s user_input reply :
  let cmd := PyStr.lower user_input in
  cmd ∉ [lit "@exit"; lit "@quit"; lit "@bye"] →
  cmd ≠ lit "@files" → PyStr.startswith cmd (lit "@read ") = false →
  cmd ≠ lit "@help" →
  completion (messages s ++ [{| role := User; content := user_input |}])
  = Some reply →
  let st := _process_file_edits str_exc root (session_fs s) reply in
  chat_turn str_exc fill root completion s (Some user_input)
  = Continue
      {| messages := messages s ++
           [{| role := User; content := user_input |};
            {| role := Assistant; content := reply |}];
         session_fs := st_fs st |}
      (Some (_format_terminal_text fill (edited_response st))).
Proof.
  intros cmd Hexit Hfiles Hread Hhelp Hreply st. unfold chat_turn. fold cmd.
  rewrite bool_decide_false by done. rewrite bool_decide_false by done.
  rewrite Hread. rewrite bool_decide_false by done.
  rewrite Hreply. fold st. by rewrite <- app_assoc.
Qed.

Lemma history_keeps_original_response_witness :
  let st := _process_file_edits Sample.str_exc Sample.root Sample.fs
              Sample.status_response in
  chat_turn Sample.str_exc Sample.fill Sample.root Sample.completion
    {| messages := []; session_fs := Sample.fs |} (Some (lit "Please fix a.txt"))
  = Continue
      {| messages :=
           [{| role := User; content := lit "Please fix a.txt" |};
            {| role := Assistant; content := Sample.status_response |}];
         session_fs := st_fs st |}
      (Some (_format_terminal_text Sample.fill (edited_response st))).
Proof.
  apply (history_keeps_original_response Sample.str_exc Sample.fill Sample.root
           Sample.completion {| messages := []; session_fs := Sample.fs |}
           (lit "Please fix a.txt") Sample.status_response).
  - apply not_elem_of_decide. vm_compute. reflexivity.
  - vm_compute. discriminate.
  - vm_compute. reflexivity.
  - vm_compute. discriminate.
  - reflexivity.
Defined.

(** * Further properties *)

(** ** What the operations leave in place *)

Lemma entries_kept_refl fs : entries_kept fs fs.
Proof. intros l n H. exists n. split; [done | by destruct n]. Qed.

Lemma entries_kept_trans fs1 fs2 fs3 :
  entries_kept fs1 fs2 → entries_kept fs2 fs3 → entries_kept fs1 fs3.
Proof.
  intros H12 H23 l n H. destruct (H12 _ _ H) as (n2 & H2 & K2).
  destruct (H23 _ _ H2) as (n3 & H3 & K3). exists n3. split; [done |].
  by destruct n, n2, n3.
Qed.

Lemma subseteq_entries_kept (fs fs' : filesystem) : fs ⊆ fs' → entries_kept fs fs'.
Proof.
  intros Hsub l n H. exists n. split; [|by destruct n].
  by eapply lookup_weaken.
Qed.

Lemma entries_kept_dirs_le fs fs' : entries_kept fs fs' → FS.dirs_le fs fs'.
Proof. intros H l Hl. destruct (H _ _ Hl) as ([|t] & ? & ?); done. Qed.

Lemma write_entries_kept fs p text fs' r :
  FS.write fs p text = (fs', r) → entries_kept fs fs'.
Proof.
  destruct r as [e|].
  - intros ->%write_failed. apply entries_kept_refl.
  - intros (l & s & _ & _ & _ & Hnd & ->)%write_ok l' n Hl'.
    destruct (decide (l' = l ++ [s])) as [->|Hne].
    + rewrite lookup_insert_eq. eexists. split; [done |].
      destruct n; [by rewrite Hl' in Hnd | done].
    + rewrite lookup_insert_ne by done. exists n. split; [done | by destruct n].
Qed.

Lemma write_file_entries_kept fs p text fs' r :
  write_file fs p text = (fs', r) → entries_kept fs fs'.
Proof.
  unfold write_file.
  destruct (FS.mkdir fs (FS.parent p)) as [fs1 [e|]] eqn:Hm.
  - intros [= <- <-]. by eapply subseteq_entries_kept, mkdir_subseteq.
  - intros Hw. eapply entries_kept_trans; [|by eapply write_entries_kept].
    by eapply subseteq_entries_kept, mkdir_subseteq.
Qed.

Lemma apply_edit_entries_kept root fs p c :
  entries_kept fs (apply_edit root fs p c).1.
Proof.
  unfold apply_edit.
  destruct (write_file fs _ c) as [fs' [e|]] eqn:Hw; by eapply write_file_entries_kept.
Qed.

Lemma files_from_refl P fs : files_from P fs fs.
Proof. intros l t H. by left. Qed.

Lemma files_from_trans P fs1 fs2 fs3 :
  files_from P fs1 fs2 → files_from P fs2 fs3 → files_from P fs1 fs3.
Proof.
  intros H12 H23 l t H. destruct (H23 _ _ H) as [H2|]; [|by right]. by apply H12.
Qed.

(** [mkdir] adds directories only. *)
Lemma mkdir_rev_files P fs rp fs' r :
  FS.mkdir_rev fs rp = (fs', r) → files_from P fs fs'.
Proof.
  assert (Hos : ∀ fs p fs', FS.os_mkdir fs p = inr fs' → files_from P fs fs').
  { intros fs0 p fs0' (l & s & _ & _ & _ & _ & ->)%os_mkdir_inr l' t.
    destruct (decide (l' = l ++ [s])) as [->|Hne].
    - by rewrite lookup_insert_eq.
    - rewrite lookup_insert_ne by done. by left. }
  revert fs fs' r. induction rp as [|s rp IH]; intros fs fs' r.
  - rewrite mkdir_rev_nil. intros [= <- <-]. apply files_from_refl.
  - cbn [FS.mkdir_rev]. set (p := reverse (s :: rp)).
    destruct (FS.os_mkdir fs p) as [e0|fs0] eqn:H0.
    + destruct e0.
      * destruct (FS.mkdir_rev fs rp) as [fs1 [e1|]] eqn:H1.
        -- intros [= <- <-]. by eapply IH.
        -- intros Hrun. eapply files_from_trans; [by eapply IH |].
           destruct (FS.os_mkdir fs1 p) as [e2|fs2] eqn:H2.
           ++ assert (fs' = fs1) as ->; [|apply files_from_refl].
              destruct e2; [|destruct (FS.is_dir fs1 p)..]; by injection Hrun.
           ++ injection Hrun as <- <-. by eapply Hos.
      * destruct (FS.is_dir fs p); intros [= <- <-]; apply files_from_refl.
      * destruct (FS.is_dir fs p); intros [= <- <-]; apply files_from_refl.
      * destruct (FS.is_dir fs p); intros [= <- <-]; apply files_from_refl.
    + intros [= <- <-]. by eapply Hos.
Qed.

Lemma write_file_files (P : str → Prop) fs p text fs' r :
  P text → write_file fs p text = (fs', r) → files_from P fs fs'.
Proof.
  intros HP. unfold write_file.
  destruct (FS.mkdir fs (FS.parent p)) as [fs1 [e|]] eqn:Hm.
  - intros [= <- <-]. by eapply mkdir_rev_files.
  - intros Hw. eapply files_from_trans; [by eapply mkdir_rev_files |].
    destruct r as [e|].
    + apply write_failed in Hw as ->. apply files_from_refl.
    + apply write_ok in Hw as (l & s & _ & _ & _ & _ & ->). intros l' t.
      destruct (decide (l' = l ++ [s])) as [->|Hne].
      * rewrite lookup_insert_eq. intros [= <-]. by right.
      * rewrite lookup_insert_ne by done. by left.
Qed.

(** ** [strip] *)

Lemma lstrip_head s c : head (PyStr.lstrip s) = Some c → PyStr.isspace c = false.
Proof.
  induction s as [|x s IH]; [done |]. simpl.
  destruct (PyStr.isspace x) eqn:Hx; [done |]. by intros [= <-].
Qed.

Lemma lstrip_snoc s c :
  PyStr.isspace c = false → PyStr.lstrip (s ++ [c]) = PyStr.lstrip s ++ [c].
Proof.
  intros Hc. induction s as [|x s IH]; simpl; [by rewrite Hc |].
  by destruct (PyStr.isspace x).
Qed.

Lemma strip_stripped s : stripped (PyStr.strip s).
Proof.
  unfold PyStr.strip, PyStr.rstrip. split; intros c.
  - destruct (PyStr.lstrip s) as [|x t] eqn:Hl; [done |].
    assert (Hx : PyStr.isspace x = false) by (apply lstrip_head with s; by rewrite Hl).
    rewrite reverse_cons, lstrip_snoc, reverse_app by done.
    by intros [= <-].
  - rewrite last_reverse. apply lstrip_head.
Qed.

Lemma stripped_strip s : stripped s → PyStr.strip s = s.
Proof.
  intros [Hh Hl].
  assert (Hls : ∀ t, (∀ c, head t = Some c → PyStr.isspace c = false) →
                     PyStr.lstrip t = t).
  { intros [|x t] H; [done |]. simpl. by rewrite H. }
  unfold PyStr.strip, PyStr.rstrip. rewrite (Hls s) by done.
  rewrite Hls; [apply reverse_involutive |].
  intros c. rewrite head_reverse. apply Hl.
Qed.

(** ** The passes of the edit loop *)

Section LoopLog.

Variable str_exc : OSError → str.
Variable root : Path.

(** What a pass adds to the log: a path and a content that went through
    [strip], and the outcome of applying them. *)
Lemma edit_step_entry response st start st' next :
  edit_step str_exc root response st start = Some (st', next) →
  ∃ p c span,
    st_log st' = st_log st ++
      [{| edit_path := PyStr.strip p; edit_content := PyStr.strip c;
          edit_span := span;
          edit_outcome := (apply_edit root (st_fs st) (PyStr.strip p) (PyStr.strip c)).2 |}]
    ∧ st_fs st' = (apply_edit root (st_fs st) (PyStr.strip p) (PyStr.strip c)).1.
Proof.
  unfold edit_step.
  destruct (PyStr.find [nl] response start) as [fpe|]; [|done].
  destruct (PyStr.find END_FILE_EDIT response fpe) as [fee|]; [|done].
  destruct (apply_edit _ _ _ _) as [fs' o] eqn:Ha. intros [= <- _].
  eexists _, _, _. cbn [st_log st_fs]. rewrite Ha. done.
Qed.

(** The log only grows, and a pass makes it longer. *)
Lemma edit_loop_log_length fuel response st start :
  length (st_log st)
  ≤ length (st_log (edit_loop str_exc root fuel response st start)).
Proof.
  revert st start. induction fuel as [|fuel IH]; intros st [start|]; try done.
  simpl. destruct (edit_step str_exc root response st start) as [[st' next]|] eqn:Hstep;
    [|done].
  etrans; [|apply IH].
  destruct (edit_step_entry _ _ _ _ _ Hstep) as (p & c & span & -> & _).
  rewrite length_app. lia.
Qed.

Lemma edit_loop_no_pass fuel response st start :
  length (st_log (edit_loop str_exc root fuel response st start))
  = length (st_log st) →
  edit_loop str_exc root fuel response st start = st.
Proof.
  destruct fuel as [|fuel]; [done |]. destruct start as [start|]; [|done].
  simpl. destruct (edit_step str_exc root response st start) as [[st' next]|] eqn:Hstep;
    [|done].
  intros Hlen. exfalso.
  pose proof (edit_loop_log_length fuel response st' next) as Hle.
  destruct (edit_step_entry _ _ _ _ _ Hstep) as (p & c & span & Hlog & _).
  rewrite Hlog, length_app in Hle. simpl in Hle. lia.
Qed.

(** The loop over a chain of well-formed directives. *)
Lemma edit_loop_directives ds A st fuel :
  Forall well_formed ds → ds ≠ [] → length ds ≤ fuel →
  instructions (edit_loop str_exc root fuel (A ++ directives ds) st (Some (length A)))
  = instructions st ++ map (λ d, (PyStr.strip d.1.1, PyStr.strip d.1.2)) ds.
Proof.
  intros Hwf. revert A st fuel.
  induction Hwf as [|[[p c] text] ds (Hp & Hc & Htext) Hwf IH];
    intros A st fuel Hne Hfuel; [done |].
  destruct fuel as [|fuel]; [simpl in Hfuel; lia |].
  cbn [directives]. erewrite edit_loop_pass; [|by apply edit_step_directive].
  destruct ds as [|[[p' c'] text'] ds'].
  - cbn [directives]. rewrite app_nil_r.
    rewrite find_no_next_directive by done. rewrite edit_loop_None.
    unfold instructions, after_directive. cbn [st_log]. by rewrite map_app.
  - set (rest := (p', c', text') :: ds') in *.
    assert (Hrest : directives rest
                    = FILE_EDIT ++ (p' ++ nl :: c' ++ END_FILE_EDIT ++ text'
                                       ++ directives ds')).
    { unfold rest. cbn [directives]. unfold directive. by simplify_list_eq. }
    match goal with
    | |- context [PyStr.find FILE_EDIT ?r ?n] =>
        replace (PyStr.find FILE_EDIT r n)
          with (Some (length (A ++ directive p c ++ text)))
    end.
    2:{ symmetry. rewrite Hrest. by apply find_next_directive. }
    replace (A ++ directive p c ++ text ++ directives rest)
      with ((A ++ directive p c ++ text) ++ directives rest)
      by (by simplify_list_eq).
    rewrite IH; [|done | simpl in *; lia].
    unfold instructions at 1, after_directive. cbn [st_log].
    rewrite map_app. cbn [map edit_path edit_content]. unfold instructions.
    by rewrite <- app_assoc.
Qed.

Lemma length_directives ds : length ds ≤ length (directives ds).
Proof.
  induction ds as [|[[p c] text] ds IH]; [done |].
  cbn [directives]. rewrite !length_app, length_directive. simpl. lia.
Qed.

(** A response with one well-formed directive. *)
Lemma process_one_directive fs pre p c post :
  ¬ PyStr.occurs FILE_EDIT pre → nl ∉ p → ¬ PyStr.occurs END_FILE_EDIT c →
  ¬ PyStr.occurs FILE_EDIT (END_FILE_EDIT ++ post) →
  let response := pre ++ directive p c ++ post in
  _process_file_edits str_exc root fs response
  = after_directive str_exc root
      {| st_fs := fs; edited_response := response; st_log := [] |}
      (length pre) p c post.
Proof.
  intros Hpre Hp Hc Hpost response. unfold _process_file_edits.
  replace (PyStr.find FILE_EDIT response 0) with (Some (length pre)).
  2:{ symmetry. unfold response, directive. rewrite <- !app_assoc.
      by apply find_first_directive. }
  erewrite edit_loop_pass; [|by apply edit_step_directive].
  rewrite find_no_next_directive by done. apply edit_loop_None.
Qed.

End LoopLog.

Lemma replace_absent (old new s : str) :
  old ≠ [] → ¬ PyStr.occurs old s → PyStr.replace old new s = s.
Proof.
  intros Hne Hno. rewrite replace_nonempty by done.
  rewrite <- (app_nil_r s) at 1. rewrite replace_scan_miss; [by rewrite app_nil_r |].
  intros i _ Hp. rewrite app_nil_r in Hp. apply Hno. by eapply prefix_drop_occurs.
Qed.

Lemma occurs_drop (m s : str) n : PyStr.occurs m (drop n s) → PyStr.occurs m s.
Proof.
  intros (a & b & H). exists (take n s ++ a), b.
  rewrite <- (take_drop n s) at 1. rewrite H. by rewrite <- app_assoc.
Qed.

Lemma occurs_app_r (m a s : str) : PyStr.occurs m s → PyStr.occurs m (a ++ s).
Proof. intros (x & y & ->). exists (a ++ x), y. by rewrite <- app_assoc. Qed.

Lemma occurs_app_l (m s b : str) : PyStr.occurs m s → PyStr.occurs m (s ++ b).
Proof. intros (x & y & ->). exists x, (y ++ b). by rewrite <- !app_assoc. Qed.

(** Opening a directory for writing. *)
Lemma write_directory fs p text :
  FS.is_dir fs p = true →
  FS.write fs p text = (fs, Some {| exc_errno := EISDIR; exc_filename := p |}).
Proof.
  intros Hd. unfold FS.write. destruct (last p) as [s|] eqn:Hlast; [|done].
  apply is_dir_walk in Hd as (l & Hw & Hn).
  rewrite (walk_last _ _ _ Hlast) in Hw.
  destruct (FS.lookup_parent fs p) as [e|l0]; [done |]. injection Hw as <-.
  destruct (FS.special s) eqn:Hs; [done |].
  rewrite step_plain in Hn by done.
  unfold FS.node_at in Hn. destruct (l0 ++ [s]) eqn:Hl; [by destruct l0 |].
  by rewrite Hn.
Qed.

(** ** The edit loop with git *)

Section LoopGit.

Variable str_exc : OSError → str.
Variable git : list str → Path → filesystem → filesystem * bool.
Variable root : Path.

(** With a [git] that leaves the file system alone, the loop is the one
    without the calls. *)
Lemma apply_edit_git_inert fs p c :
  (∀ args cwd fs0, (git args cwd fs0).1 = fs0) →
  apply_edit_git git root fs p c = apply_edit root fs p c.
Proof.
  intros Hg. unfold apply_edit_git.
  destruct (apply_edit root fs p c) as [fs1 [|e]]; [|done].
  pose proof (Hg [lit "git"; lit "add"; p] root fs1) as Ha.
  destruct (git [lit "git"; lit "add"; p] root fs1) as [fs2 [|]];
    simpl in Ha; subst fs2; [|done].
  by rewrite Hg.
Qed.

Lemma edit_loop_git_inert fuel response st start :
  (∀ args cwd fs0, (git args cwd fs0).1 = fs0) →
  edit_loop_git str_exc git root fuel response st start
  = edit_loop str_exc root fuel response st start.
Proof.
  intros Hg. revert st start.
  induction fuel as [|fuel IH]; intros st [start|]; try done.
  simpl. unfold edit_step_git, edit_step.
  destruct (PyStr.find [nl] response start) as [fpe|]; [|done].
  destruct (PyStr.find END_FILE_EDIT response fpe) as [fee|]; [|done].
  rewrite apply_edit_git_inert by done.
  destruct (apply_edit _ _ _ _) as [fs' o]. apply IH.
Qed.

(** What holds of the file system at the start and is kept by every
    applied or failed edit with a stripped content holds at the end. *)
Lemma edit_loop_git_invariant (I : filesystem → Prop) fuel response st start :
  (∀ fs p c, stripped c → I fs → I (apply_edit_git git root fs p c).1) →
  I (st_fs st) →
  I (st_fs (edit_loop_git str_exc git root fuel response st start)).
Proof.
  intros Hstep. revert st start.
  induction fuel as [|fuel IH]; intros st [start|] Hst; try done.
  simpl. unfold edit_step_git.
  destruct (PyStr.find [nl] response start) as [fpe|]; [|done].
  destruct (PyStr.find END_FILE_EDIT response fpe) as [fee|]; [|done].
  destruct (apply_edit_git _ _ _ _ _) as [fs' o] eqn:Ha.
  apply IH. cbn [st_fs].
  replace fs' with (apply_edit_git git root (st_fs st)
    (PyStr.strip (PyStr.slice response (start + 11) fpe))
    (PyStr.strip (PyStr.slice response (fpe + 1) fee))).1 by (by rewrite Ha).
  apply Hstep; [apply strip_stripped | done].
Qed.

(** Outside [.git], an edit with its [git] calls leaves what the write
    leaves. *)
Lemma apply_edit_git_outside fs p c l :
  git_keeps_tree git →
  ¬ (FS.normalize root ++ [lit ".git"]) `prefix_of` l →
  (apply_edit_git git root fs p c).1 !! l = (apply_edit root fs p c).1 !! l.
Proof.
  intros Hg Hl. unfold apply_edit_git.
  destruct (apply_edit root fs p c) as [fs1 [|e]]; [|done].
  pose proof (Hg [lit "git"; lit "add"; p] root fs1 l Hl) as Ha.
  destruct (git [lit "git"; lit "add"; p] root fs1) as [fs2 [|]];
    simpl in *; [|done].
  by rewrite Hg.
Qed.

End LoopGit.

Lemma sample_git_keeps_tree : git_keeps_tree sample_git.
Proof.
  intros args cwd fs l Hl. unfold sample_git. cbn [fst].
  apply lookup_insert_ne. intros <-. apply Hl.
  exists [lit "COMMIT_EDITMSG"]. by rewrite <- app_assoc.
Qed.

(** ** The turns of the chat *)

Section ChatFacts.

Variable str_exc : OSError → str.
Variable fill : str → str.
Variable root : Path.
Variable completion : list Message → option str.

(** A turn adds nothing, the input, or the input and the reply. *)
Lemma chat_turn_adds s i s' out :
  chat_turn str_exc fill root completion s i = Continue s' out →
  ∃ added,
    messages s' = messages s ++ added
    ∧ Forall (λ m, role m = User ∨ role m = Assistant) added.
Proof.
  unfold chat_turn. destruct i as [user_input|]; [|done].
  repeat (case_match; try done); intros [= <- _]; cbn [messages].
  - exists []. by rewrite app_nil_r.
  - exists []. by rewrite app_nil_r.
  - exists []. by rewrite app_nil_r.
  - eexists [_; _]. rewrite <- app_assoc. split; [done |].
    apply Forall_cons. split; [by left |].
    apply Forall_cons. split; [by right | done].
  - eexists [_]. split; [done |].
    apply Forall_cons. split; [by left | done].
Qed.

Lemma chat_loop_adds s inputs :
  ∃ added,
    messages (chat_loop str_exc fill root completion s inputs)
    = messages s ++ added
    ∧ Forall (λ m, role m = User ∨ role m = Assistant) added.
Proof.
  revert s. induction inputs as [|i inputs IH]; intros s; simpl.
  - exists []. by rewrite app_nil_r.
  - destruct (chat_turn str_exc fill root completion s i) as [|s1 out] eqn:Hturn.
    + exists []. by rewrite app_nil_r.
    + destruct (chat_turn_adds _ _ _ _ Hturn) as (added1 & Hm1 & Hr1).
      destruct (IH s1) as (added2 & Hm2 & Hr2).
      exists (added1 ++ added2). rewrite Hm2, Hm1, <- app_assoc.
      split; [done | by apply Forall_app].
Qed.

End ChatFacts.

(** ** Further properties of the edit protocol *)

(** X1.  When git changes nothing outside the directory [.git] of the
    project, processing the edits of a response, with the [git add] and
    [git commit] that follow every applied edit, removes nothing outside
    that directory: an entry that was there is still there afterwards, a
    directory as a directory and a file as a file. *)
Theorem edits_keep_entries_outside_git str_exc git root fs response l n :
  git_keeps_tree git →
  ¬ (FS.normalize root ++ [lit ".git"]) `prefix_of` l →
  fs !! l = Some n →
  ∃ n',
    st_fs (_process_file_edits_git str_exc git root fs response) !! l = Some n'
    ∧ same_kind n n' = true.
Proof.
  intros Hgit Hl Hn. unfold _process_file_edits_git.
  apply (edit_loop_git_invariant str_exc git root
           (λ fs', ∃ n', fs' !! l = Some n' ∧ same_kind n n' = true)).
  - intros fs1 p c _ (n1 & H1 & Hk1).
    rewrite apply_edit_git_outside by done.
    destruct (apply_edit_entries_kept root fs1 p c l n1 H1) as (n2 & H2 & Hk2).
    exists n2. split; [done |]. by destruct n, n1, n2.
  - exists n. split; [done | by destruct n].
Qed.

Lemma edits_keep_entries_outside_git_witness :
  ∃ n',
    st_fs (_process_file_edits_git Sample.str_exc sample_git Sample.root
             Sample.fs Sample.status_response) !! (Sample.root ++ [lit "docs"])
    = Some n'
    ∧ same_kind Dir n' = true.
Proof.
  apply (edits_keep_entries_outside_git Sample.str_exc sample_git Sample.root
           Sample.fs Sample.status_response (Sample.root ++ [lit "docs"]) Dir).
  - exact sample_git_keeps_tree.
  - intros Hp. apply prefix_length_eq in Hp; [|reflexivity]. by vm_compute in Hp.
  - vm_compute. reflexivity.
Defined.

(** X2.  When git changes nothing outside the directory [.git] of the
    project, a file found outside that directory after processing the
    edits of a response is a file that was there before with the same
    text, or holds a text without white space at either end: what an
    edit writes went through [strip], so it ends without a newline. *)
Theorem edits_write_stripped_text_outside_git str_exc git root fs response l t :
  git_keeps_tree git →
  ¬ (FS.normalize root ++ [lit ".git"]) `prefix_of` l →
  st_fs (_process_file_edits_git str_exc git root fs response) !! l
  = Some (File t) →
  fs !! l = Some (File t) ∨ stripped t.
Proof.
  intros Hgit Hl. revert t. unfold _process_file_edits_git.
  apply (edit_loop_git_invariant str_exc git root
           (λ fs', ∀ t, fs' !! l = Some (File t)
                        → fs !! l = Some (File t) ∨ stripped t)).
  - intros fs1 p c Hc H1 t. rewrite apply_edit_git_outside by done.
    intros Ht.
    assert (Hfiles : files_from stripped fs1 (apply_edit root fs1 p c).1).
    { unfold apply_edit.
      destruct (write_file fs1 _ c) as [fs' [e|]] eqn:Hw;
        by eapply write_file_files. }
    destruct (Hfiles _ _ Ht) as [Hold|]; [by apply H1 | by right].
  - intros t Ht. by left.
Qed.

Lemma edits_write_stripped_text_outside_git_witness :
  Sample.fs !! (Sample.root ++ [lit "a.txt"]) = Some (File (lit "hello"))
  ∨ stripped (lit "hello").
Proof.
  apply (edits_write_stripped_text_outside_git Sample.str_exc sample_git
           Sample.root Sample.fs Sample.status_response
           (Sample.root ++ [lit "a.txt"]) (lit "hello")).
  - exact sample_git_keeps_tree.
  - intros Hp. apply prefix_length_eq in Hp; [|reflexivity]. by vm_compute in Hp.
  - vm_compute. reflexivity.
Defined.

(** X3.  A response made of text without the opening marker and then any
    number of well-formed directives, each followed by text, yields one
    instruction per directive, in the order of the text: the stripped
    path line and the stripped content.  Well formed: the path line has no newline, the content does not hold the
    closing marker, and the closing marker followed by the text up to
    the next directive does not hold the opening marker [FILE_EDIT: ]
    (so that text neither holds it nor begins with [: ], which would
    complete one out of the end of the closing marker). *)
Theorem directives_in_order str_exc root fs pre ds :
  ¬ PyStr.occurs FILE_EDIT pre → Forall well_formed ds →
  instructions (_process_file_edits str_exc root fs (pre ++ directives ds))
  = map (λ d, (PyStr.strip d.1.1, PyStr.strip d.1.2)) ds.
Proof.
  intros Hpre Hwf. destruct ds as [|d ds].
  - cbn [directives map]. rewrite app_nil_r. by rewrite process_no_marker.
  - rewrite <- (process_file_edits_fuel _ _ _ _ (S (length (pre ++ directives (d :: ds)))))
      by lia.
    replace (PyStr.find FILE_EDIT (pre ++ directives (d :: ds)) 0)
      with (Some (length pre)).
    2:{ symmetry. destruct d as [[p c] text]. cbn [directives]. unfold directive.
        rewrite <- !app_assoc. by apply find_first_directive. }
    rewrite edit_loop_directives; [done | done | done |].
    pose proof (length_directives (d :: ds)). rewrite length_app. lia.
Qed.

Lemma directives_in_order_witness :
  instructions
    (_process_file_edits Sample.str_exc Sample.root Sample.fs
       (lit "Three files." ++ [nl]
        ++ directives
             [(lit " a.txt", lit "one" ++ [nl], [nl] ++ lit "then" ++ [nl]);
              (lit "docs/b.txt ", [nl] ++ lit "two" ++ [nl], [nl]);
              (lit "c.txt", [], lit " done")]))
  = [(lit "a.txt", lit "one"); (lit "docs/b.txt", lit "two"); (lit "c.txt", [])].
Proof.
  apply (directives_in_order Sample.str_exc Sample.root Sample.fs
           (lit "Three files." ++ [nl])
           [(lit " a.txt", lit "one" ++ [nl], [nl] ++ lit "then" ++ [nl]);
            (lit "docs/b.txt ", [nl] ++ lit "two" ++ [nl], [nl]);
            (lit "c.txt", [], lit " done")]).
  - absent.
  - repeat constructor; first [absent | no_newline].
Defined.

(** X4.  The rendering of a response with one well-formed directive: the
    text before it, the status line, and the text after it without its
    first character, since the slice replaced is one character longer
    than the directive.  A directive that ends the response is replaced
    exactly. *)
Theorem status_line_takes_next_character str_exc root fs pre p c post :
  ¬ PyStr.occurs FILE_EDIT pre → nl ∉ p → ¬ PyStr.occurs END_FILE_EDIT c →
  ¬ PyStr.occurs FILE_EDIT (END_FILE_EDIT ++ post) →
  let st := _process_file_edits str_exc root fs (pre ++ directive p c ++ post) in
  let outcome := (apply_edit root fs (PyStr.strip p) (PyStr.strip c)).2 in
  edited_response st
  = pre ++ status str_exc (PyStr.strip p) outcome ++ drop 1 post.
Proof.
  intros Hpre Hp Hc Hpost st outcome. unfold st.
  rewrite process_one_directive by done.
  unfold after_directive. cbn [edited_response st_fs]. fold outcome.
  replace (pre ++ directive p c ++ post)
    with (pre ++ (FILE_EDIT ++ p ++ nl :: c ++ END_FILE_EDIT ++ take 1 post)
              ++ drop 1 post).
  2:{ rewrite <- (take_drop 1 post) at 3. unfold directive. by simplify_list_eq. }
  replace (directive p c ++ take 1 post)
    with (FILE_EDIT ++ p ++ nl :: c ++ END_FILE_EDIT ++ take 1 post)
    by (unfold directive; by simplify_list_eq).
  rewrite replace_first_span by done. do 2 f_equal.
  apply replace_absent; [done |].
  intros (a & b & Hocc). apply Hpost. apply occurs_app_r, (occurs_drop _ _ 1).
  rewrite Hocc. exists a, ((p ++ nl :: c ++ END_FILE_EDIT ++ take 1 post) ++ b).
  by rewrite <- !app_assoc.
Qed.

Lemma status_line_takes_next_character_witness :
  edited_response
    (_process_file_edits Sample.str_exc Sample.root Sample.fs
       (lit "Hi" ++ [nl] ++ directive (lit "a.txt") (lit "hello" ++ [nl])
        ++ lit "!Done."))
  = lit "Hi" ++ [nl]
    ++ status Sample.str_exc (lit "a.txt")
         (apply_edit Sample.root Sample.fs (lit "a.txt") (lit "hello")).2
    ++ lit "Done.".
Proof.
  apply (status_line_takes_next_character Sample.str_exc Sample.root Sample.fs
           (lit "Hi" ++ [nl]) (lit "a.txt") (lit "hello" ++ [nl]) (lit "!Done."));
    first [absent | no_newline].
Defined.



(** X6.  An edit whose path names an existing directory (the empty path
    names the project directory itself) fails with [EISDIR] and leaves
    the file system as it was. *)
Theorem edit_of_directory_fails root fs p c :
  FS.is_dir fs (FS.joinpath root p) = true →
  apply_edit root fs p c
  = (fs, Failed {| exc_errno := EISDIR; exc_filename := FS.joinpath root p |}).
Proof.
  intros Hd. unfold apply_edit, write_file.
  rewrite (mkdir_exists _ _ (is_dir_parent _ _ Hd)).
  by rewrite write_directory.
Qed.

Lemma edit_of_directory_fails_witness :
  apply_edit Sample.root Sample.fs [] (lit "text")
  = (Sample.fs, Failed {| exc_errno := EISDIR; exc_filename := Sample.root |}).
Proof.
  apply (edit_of_directory_fails Sample.root Sample.fs [] (lit "text")).
  vm_compute. reflexivity.
Defined.

(** X7.  When the loop consumed no directive, the response comes back as it
    was and the file system is untouched. *)
Theorem no_instruction_no_change str_exc root fs response :
  instructions (_process_file_edits str_exc root fs response) = [] →
  _process_file_edits str_exc root fs response
  = {| st_fs := fs; edited_response := response; st_log := [] |}.
Proof.
  intros Hno. unfold _process_file_edits in *. apply edit_loop_no_pass.
  unfold instructions in Hno. apply (f_equal length) in Hno.
  by rewrite length_map in Hno.
Qed.

Lemma no_instruction_no_change_witness :
  _process_file_edits Sample.str_exc Sample.root Sample.fs
    (lit "See FILE_EDIT: a.txt" ++ [nl] ++ lit "and so on")
  = {| st_fs := Sample.fs;
       edited_response := lit "See FILE_EDIT: a.txt" ++ [nl] ++ lit "and so on";
       st_log := [] |}.
Proof.
  apply no_instruction_no_change. vm_compute. reflexivity.
Defined.

(** ** What the materializer leaves in place *)

Lemma mkdir_entries_kept fs p fs' r : FS.mkdir fs p = (fs', r) → entries_kept fs fs'.
Proof. intros H. by eapply subseteq_entries_kept, mkdir_subseteq. Qed.

Lemma create_item_entries_kept pp fs item fs' r :
  create_item pp fs item = (fs', r) → entries_kept fs fs'.
Proof.
  unfold create_item. repeat case_decide.
  - apply mkdir_entries_kept.
  - apply write_file_entries_kept.
  - intros [= <- <-]. apply entries_kept_refl.
Qed.

Lemma create_items_entries_kept pp fs items fs' r :
  create_items pp fs items = (fs', r) → entries_kept fs fs'.
Proof.
  revert fs. induction items as [|item items IH]; intros fs; simpl.
  - intros [= <- <-]. apply entries_kept_refl.
  - destruct (create_item pp fs item) as [fs1 [e|]] eqn:Hi.
    + intros [= <- <-]. by eapply create_item_entries_kept.
    + intros Hr. eapply entries_kept_trans; [by eapply create_item_entries_kept |].
      by eapply IH.
Qed.

Lemma read_kept fs fs' p text :
  entries_kept fs fs' → FS.read fs p = inr text →
  ∃ text', FS.read fs' p = inr text'.
Proof.
  intros Hk [Hw Hn]%read_inr.
  assert (Hne : FS.normalize p ≠ []) by (intros Heq; by rewrite Heq in Hn).
  unfold FS.node_at in Hn. destruct (FS.normalize p) as [|s l] eqn:Hl; [done |].
  destruct (Hk _ _ Hn) as ([|text'] & Hn' & Hkind); [done |].
  exists text'. apply read_inr. rewrite Hl. split; [|done].
  eapply walk_mono; [by apply entries_kept_dirs_le | done].
Qed.

(** What a successful pass over the entries leaves for each of them. *)
Lemma create_items_exist pp fs items fs' item :
  create_items pp fs items = (fs', None) → item ∈ items →
  (entry_type item = lit "directory" →
   FS.is_dir fs' (FS.joinpath pp (entry_path item)) = true)
  ∧ (entry_type item = lit "file" →
     ∃ text, FS.read fs' (FS.joinpath pp (entry_path item)) = inr text).
Proof.
  revert fs. induction items as [|i items IH]; intros fs Hrun Hin; [by inversion Hin |].
  simpl in Hrun. destruct (create_item pp fs i) as [fs1 [e|]] eqn:Hi; [done |].
  pose proof (create_items_entries_kept _ _ _ _ _ Hrun) as Hk.
  apply elem_of_cons in Hin as [->|Hin]; [|by eapply IH].
  unfold create_item in Hi. split; intros Hty.
  - rewrite decide_True in Hi by done.
    eapply is_dir_mono; [by apply entries_kept_dirs_le | by eapply mkdir_ok].
  - rewrite Hty in Hi. rewrite decide_False in Hi by (by vm_compute).
    rewrite decide_True in Hi by done.
    eapply read_kept; [done | by eapply write_file_read].
Qed.

(** ** Further properties of the materializer *)

(** X8.  However [_create_project] ends (declined, failed or done), it
    removes nothing: every entry of the file system is still there, a
    directory as a directory and a file as a file. *)
Theorem create_project_keeps_entries projects_dir confirm fs plan :
  entries_kept fs (_create_project projects_dir confirm fs plan).1.
Proof.
  unfold _create_project.
  set (pp := FS.joinpath projects_dir (project_name plan)).
  destruct (_ && _); [apply entries_kept_refl |].
  destruct (FS.mkdir fs pp) as [fs1 [e1|]] eqn:Hm;
    apply mkdir_entries_kept in Hm; [done |].
  destruct (FS.write fs1 _ _) as [fs2 [e2|]] eqn:Hreadme;
    apply write_entries_kept in Hreadme;
    [by eapply entries_kept_trans |].
  assert (H12 : entries_kept fs fs2) by (by eapply entries_kept_trans).
  destruct (if bool_decide _ then _ else _) as [fs3 [e3|]] eqn:Hreq.
  - cbn [fst]. eapply entries_kept_trans; [done |].
    case_bool_decide; [by eapply write_entries_kept | done].
  - assert (H23 : entries_kept fs2 fs3).
    { case_bool_decide; [by eapply write_entries_kept |].
      injection Hreq as <-. apply entries_kept_refl. }
    destruct (create_items pp fs3 (structure plan)) as [fs4 [e4|]] eqn:Hitems;
      cbn [fst]; (eapply entries_kept_trans; [done |]);
      (eapply entries_kept_trans; [done |]);
      by eapply create_items_entries_kept.
Qed.

(** X9.  An overwrite that was accepted merges into the directory: whatever
    the outcome, an entry that is neither the [README.md] or the
    [requirements.txt] of the project nor the target of a file entry of
    the plan is afterwards what it was before. *)
Theorem overwrite_keeps_other_entries projects_dir confirm fs plan l n :
  let project_path := FS.joinpath projects_dir (project_name plan) in
  fs !! l = Some n →
  l ≠ FS.normalize (FS.joinpath project_path (lit "README.md")) →
  l ≠ FS.normalize (FS.joinpath project_path (lit "requirements.txt")) →
  (∀ item, item ∈ structure plan → entry_type item = lit "file" →
           entry_target project_path item ≠ l) →
  (_create_project projects_dir confirm fs plan).1 !! l = Some n.
Proof.
  intros pp Hl Hreadme Hreq Hitems. unfold _create_project. fold pp.
  destruct (_ && _); [done |].
  destruct (FS.mkdir fs pp) as [fs1 [e1|]] eqn:Hm;
    apply mkdir_subseteq in Hm;
    pose proof (lookup_weaken _ _ _ _ Hl Hm) as H1; [done |].
  destruct (FS.write fs1 _ _) as [fs2 [e2|]] eqn:Hw.
  { cbn [fst]. by rewrite (write_other _ _ _ _ _ _ Hw). }
  assert (H2 : fs2 !! l = Some n) by (by rewrite (write_other _ _ _ _ _ _ Hw)).
  destruct (if bool_decide _ then _ else _) as [fs3 [e3|]] eqn:Hr.
  { cbn [fst]. case_bool_decide; [|done].
    by rewrite (write_other _ _ _ _ _ _ Hr). }
  assert (H3 : fs3 !! l = Some n).
  { case_bool_decide; [by rewrite (write_other _ _ _ _ _ _ Hr) |].
    by injection Hr as <-. }
  destruct (create_items pp fs3 (structure plan)) as [fs4 [e4|]] eqn:Hc;
    cbn [fst]; by eapply create_items_other.
Qed.

Lemma overwrite_keeps_other_entries_witness :
  (_create_project Sample.projects (lit "Y") Sample.fs
     {| project_name := lit "demo"; description := lit "again";
        technologies := None; dependencies := None; structure := [] |}).1
  !! (Sample.root ++ [lit "docs"]) = Some Dir.
Proof.
  apply (overwrite_keeps_other_entries Sample.projects (lit "Y") Sample.fs
           {| project_name := lit "demo"; description := lit "again";
              technologies := None; dependencies := None; structure := [] |}
           (Sample.root ++ [lit "docs"]) Dir).
  - vm_compute. reflexivity.
  - vm_compute. discriminate.
  - vm_compute. discriminate.
  - intros item Hin. inversion Hin.
Defined.

(** X10.  When [_create_project] returns the project path, that path is a
    directory, every directory entry of the plan is a directory, and
    every file entry is a file that can be read. *)
Theorem created_entries_exist projects_dir confirm fs plan fs' project_path :
  _create_project projects_dir confirm fs plan = (fs', inr (Some project_path)) →
  project_path = FS.joinpath projects_dir (project_name plan)
  ∧ FS.is_dir fs' project_path = true
  ∧ ∀ item, item ∈ structure plan →
      (entry_type item = lit "directory" →
       FS.is_dir fs' (FS.joinpath project_path (entry_path item)) = true)
      ∧ (entry_type item = lit "file" →
         ∃ text, FS.read fs' (FS.joinpath project_path (entry_path item))
                 = inr text).
Proof.
  unfold _create_project.
  set (pp := FS.joinpath projects_dir (project_name plan)).
  destruct (_ && _); [done |].
  destruct (FS.mkdir fs pp) as [fs1 [e1|]] eqn:Hm; [done |].
  destruct (FS.write fs1 _ _) as [fs2 [e2|]] eqn:Hreadme; [done |].
  destruct (if bool_decide _ then _ else _) as [fs3 [e3|]] eqn:Hreq; [done |].
  destruct (create_items pp fs3 (structure plan)) as [fs4 [e4|]] eqn:Hitems; [done |].
  intros [= <- <-]. split; [done |]. split.
  - apply mkdir_ok in Hm.
    eapply is_dir_mono; [by eapply create_items_dirs_le |].
    eapply is_dir_mono; [|eapply is_dir_mono; [by eapply write_dirs_le | done]].
    case_bool_decide; [by eapply write_dirs_le |].
    injection Hreq as <-. apply dirs_le_refl.
  - intros item Hin. by eapply create_items_exist.
Qed.

Lemma created_entries_exist_witness :
  FS.is_dir (_create_project Sample.projects [] Sample.fs Sample.plan).1
    (Sample.projects ++ [lit "blog"]) = true.
Proof.
  destruct (created_entries_exist Sample.projects [] Sample.fs Sample.plan
              (_create_project Sample.projects [] Sample.fs Sample.plan).1
              (Sample.projects ++ [lit "blog"])) as (_ & Hdir & _).
  - rewrite (surjective_pairing (_create_project _ _ _ _)) at 1.
    f_equal; vm_compute; reflexivity.
  - exact Hdir.
Defined.

(** ** The inspector, continued *)

Lemma foldl_append_new_prefix techs deps : techs `prefix_of` foldl append_new techs deps.
Proof.
  revert techs. induction deps as [|d deps IH]; intros techs; [done |].
  simpl. etrans; [apply append_new_prefix | apply IH].
Qed.

Lemma foldl_append_new_NoDup techs deps :
  NoDup techs → NoDup (foldl append_new techs deps).
Proof.
  revert techs. induction deps as [|d deps IH]; intros techs H; [done |].
  simpl. by apply IH, append_new_NoDup.
Qed.

Lemma foldl_append_new_elem techs deps x :
  x ∈ foldl append_new techs deps ↔ x ∈ techs ∨ x ∈ deps.
Proof.
  revert techs. induction deps as [|d deps IH]; intros techs; simpl.
  - split; [by left | intros [?|H]; [done | by inversion H]].
  - rewrite IH. unfold append_new. rewrite elem_of_cons.
    case_bool_decide as Hin.
    + split; [intros [H|H]; [by left | by right; right] |].
      intros [H|[->|H]]; [by left | by left | by right].
    + rewrite elem_of_app, list_elem_of_singleton.
      split; [intros [[H|H]|H]; [by left | by right; left | by right; right] |].
      intros [H|[H|H]]; [by left; left | by left; right | by right].
Qed.

Lemma step_keeps_plain l s :
  Forall (λ x, FS.special x = false) l →
  Forall (λ x, FS.special x = false) (FS.step l s).
Proof.
  intros Hl. unfold FS.step. repeat case_decide.
  - rewrite removelast_firstn_len. by apply Forall_take.
  - done.
  - apply Forall_app. split; [done |]. constructor; [|done].
    unfold FS.special. apply bool_decide_eq_false.
    intros [?|[?|?]]; [done | |]; match goal with H : ¬ _ |- _ => apply H end;
      [by left | by right].
Qed.

Lemma normalize_is_plain p : Forall (λ x, FS.special x = false) (FS.normalize p).
Proof.
  unfold FS.normalize.
  assert (H : ∀ l, Forall (λ x, FS.special x = false) l →
                   Forall (λ x, FS.special x = false) (foldl FS.step l p)).
  { induction p as [|s p IH]; intros l Hl; [exact Hl |].
    simpl. by apply IH, step_keeps_plain. }
  apply H. constructor.
Qed.

Lemma normalize_idemp p : FS.normalize (FS.normalize p) = FS.normalize p.
Proof.
  unfold FS.normalize at 1.
  by rewrite normalize_plain by apply normalize_is_plain.
Qed.

Lemma occurs_prefix (m a b : str) :
  PyStr.occurs m a → a `prefix_of` b → PyStr.occurs m b.
Proof. intros (x & y & ->) [k ->]. exists x, (y ++ k). by rewrite <- !app_assoc. Qed.

Lemma before_prefix (sep s : str) : PyStr.before sep s `prefix_of` s.
Proof.
  unfold PyStr.before. destruct (PyStr.find sep s 0); [|done].
  apply prefix_take.
Qed.

Lemma before_no_sep (sep s : str) :
  sep ≠ [] → ¬ PyStr.occurs sep (PyStr.before sep s).
Proof.
  intros Hne. unfold PyStr.before.
  destruct (PyStr.find sep s 0) as [i|] eqn:Hf; [|by apply find_None_occurs].
  apply find_Some in Hf as (_ & _ & Hmin).
  intros (j & Hj & Hp)%occurs_prefix_drop.
  destruct (decide (j < i)) as [Hlt|Hge].
  - apply (Hmin j); [lia |]. etrans; [done |].
    rewrite <- (take_drop i s) at 2.
    rewrite length_take in Hj.
    rewrite drop_app_le by (rewrite length_take; lia). by apply prefix_app_r.
  - rewrite drop_ge in Hp by (rewrite length_take; lia).
    by apply prefix_nil_inv in Hp.
Qed.

Lemma before_absent (sep s : str) : ¬ PyStr.occurs sep s → PyStr.before sep s = s.
Proof. intros H%find_None_occurs. unfold PyStr.before. by rewrite H. Qed.

(** An entry below [root] whose name ends in [suffix] is found by the
    glob. *)
Lemma glob_suffix_found fs root l n name suffix :
  fs !! l = Some n → root `prefix_of` l → l ≠ root →
  FS.reachable fs l = true → last l = Some name → suffix `suffix_of` name →
  FS.glob_suffix fs root suffix = true.
Proof.
  intros Hl Hp Hne Hr Hlast Hs. unfold FS.glob_suffix.
  apply existsb_exists. exists (l, n). split.
  - apply list_elem_of_In, elem_of_map_to_list. done.
  - cbn [fst]. rewrite Hr, Hlast. cbn [andb].
    by rewrite !bool_decide_true.
Qed.

Lemma glob_suffix_spec fs root suffix :
  FS.glob_suffix fs root suffix = true ↔ has_entry fs root suffix.
Proof.
  split.
  - unfold FS.glob_suffix. intros ([l n] & Hin & Hb)%existsb_exists.
    apply list_elem_of_In, elem_of_map_to_list in Hin. cbn [fst] in Hb.
    destruct (last l) as [name|] eqn:Hlast; [|by rewrite andb_false_r in Hb].
    apply andb_true_iff in Hb as [Hb Hs].
    apply andb_true_iff in Hb as [Hb Hr].
    apply andb_true_iff in Hb as [Hp Hne].
    exists l, n, name. repeat split; try done; by eapply bool_decide_eq_true_1.
  - intros (l & n & name & ? & ? & ? & ? & ? & ?). by eapply glob_suffix_found.
Qed.

(** ** Further properties of the inspector *)

Ltac load_cases :=
  repeat match goal with
         | |- context [if FS.exists_ ?fs ?p then _ else _] =>
             destruct (FS.exists_ fs p) eqn:?
         | |- context [match FS.read ?fs ?p with inl _ => _ | inr _ => _ end] =>
             destruct (FS.read fs p) eqn:?
         | |- context [if FS.glob_suffix ?fs ?p ?s then _ else _] =>
             destruct (FS.glob_suffix fs p s) eqn:?
         end.

(** X11.  A project that loads has at least one technology: [unknown] when
    nothing else was found. *)
Theorem technologies_never_empty package_dependencies fs project_path ctx :
  _load_project_info package_dependencies fs project_path = Some ctx →
  current_project_technologies ctx ≠ [].
Proof.
  unfold _load_project_info. destruct (negb _); [done |].
  intros [= <-]. cbn [current_project_technologies].
  match goal with
  | |- match ?t with [] => _ | _ :: _ => _ end ≠ [] => destruct t eqn:Ht; [|done]
  end.
  load_cases; done.
Qed.

Lemma technologies_never_empty_witness :
  ∃ ctx, _load_project_info (λ _, []) Sample.fs Sample.root = Some ctx
         ∧ current_project_technologies ctx ≠ [].
Proof.
  eexists. split; [vm_compute; reflexivity |].
  apply (technologies_never_empty (λ _, []) Sample.fs Sample.root).
  vm_compute. reflexivity.
Defined.

(** X12.  The technologies hold no name twice, as long as [package.json] does
    not list a dependency called [python]. *)
Theorem technologies_without_duplicates package_dependencies fs project_path ctx :
  (∀ text,
      FS.read fs (FS.joinpath (FS.normalize project_path) (lit "package.json"))
      = inr text →
      lit "python" ∉ package_dependencies text) →
  _load_project_info package_dependencies fs project_path = Some ctx →
  NoDup (current_project_technologies ctx).
Proof.
  intros Hpy. unfold _load_project_info. destruct (negb _); [done |].
  intros [= <-]. cbn [current_project_technologies].
  assert (Hbase : NoDup [lit "javascript"; lit "node"]).
  { apply (bool_decide_unpack _). by vm_compute. }
  assert (Hone : ∀ techs, NoDup techs → lit "python" ∉ techs →
                          NoDup (techs ++ [lit "python"])).
  { intros techs Hnd Hnot. apply NoDup_app. split; [done |].
    split; [|apply NoDup_singleton]. by intros x Hx ->%list_elem_of_singleton. }
  assert (Hjs : lit "python" ∉ [lit "javascript"; lit "node"]).
  { apply not_elem_of_decide. by vm_compute. }
  match goal with
  | |- NoDup match ?t with [] => _ | _ :: _ => _ end =>
      assert (Ht : NoDup t); [|destruct t eqn:Heq; [|done]]
  end.
  - load_cases; cbn [app];
      try apply requirements_NoDup; try apply Hone;
      try apply foldl_append_new_NoDup; try done;
      try apply NoDup_nil_2; try apply NoDup_singleton; try (by inversion 1).
    all: first
      [ apply (bool_decide_unpack _); by vm_compute
      | rewrite foldl_append_new_elem; intros [Hin|Hin];
        [by apply Hjs | by eapply Hpy] ].
  - clear Heq Ht. load_cases; apply (bool_decide_unpack _); by vm_compute.
Qed.

Lemma technologies_without_duplicates_witness :
  ∃ ctx,
    _load_project_info (λ _, [lit "express"])
      (<[Sample.root ++ [lit "package.json"] := File (lit "{}")]> Sample.fs_manifest)
      Sample.root = Some ctx
    ∧ NoDup (current_project_technologies ctx).
Proof.
  eexists. split; [vm_compute; reflexivity |].
  apply (technologies_without_duplicates (λ _, [lit "express"])
           (<[Sample.root ++ [lit "package.json"] := File (lit "{}")]>
              Sample.fs_manifest)
           Sample.root).
  - intros text _. apply not_elem_of_decide. vm_compute. reflexivity.
  - vm_compute. reflexivity.
Defined.

(** X13.  When [package.json] lists a dependency called [python] and
    [requirements.txt] exists, [python] is among the technologies twice:
    the name is appended for [requirements.txt] without a look at what
    is already there. *)
Theorem python_listed_twice package_dependencies fs project_path text :
  let root := FS.normalize project_path in
  FS.is_dir fs root = true →
  FS.read fs (FS.joinpath root (lit "package.json")) = inr text →
  lit "python" ∈ package_dependencies text →
  FS.exists_ fs (FS.joinpath root (lit "requirements.txt")) = true →
  ∃ ctx,
    _load_project_info package_dependencies fs project_path = Some ctx
    ∧ ¬ NoDup (current_project_technologies ctx).
Proof.
  intros root Hd Hpkg Hpy Hreq. unfold _load_project_info. fold root.
  rewrite (is_dir_exists _ _ Hd), Hd. cbn [andb negb].
  rewrite (read_exists _ _ _ Hpkg), Hpkg, Hreq.
  eexists. split; [done |]. cbn [current_project_technologies].
  set (techs1 := foldl append_new _ (package_dependencies text)).
  assert (Hin : lit "python" ∈ techs1).
  { unfold techs1. apply foldl_append_new_elem. by right. }
  assert (Hpre : ∃ k, match FS.read fs (FS.joinpath root (lit "requirements.txt")) with
                      | inl _ => techs1 ++ [lit "python"]
                      | inr text0 =>
                          foldl add_requirement (techs1 ++ [lit "python"])
                            (text_lines text0)
                      end = (techs1 ++ [lit "python"]) ++ k).
  { destruct (FS.read fs (FS.joinpath root (lit "requirements.txt")))
      as [e|text0].
    - exists []. by rewrite app_nil_r.
    - apply requirements_prefix. }
  destruct Hpre as [k ->].
  destruct ((techs1 ++ [lit "python"]) ++ k) eqn:Heq; [by destruct techs1 |].
  rewrite <- Heq. rewrite <- app_assoc.
  intros [_ [Hdis _]]%NoDup_app. apply (Hdis _ Hin). by left.
Qed.

Lemma python_listed_twice_witness :
  ∃ ctx,
    _load_project_info (λ _, [lit "python"])
      (<[Sample.root ++ [lit "package.json"] := File (lit "{}")]> Sample.fs_manifest)
      Sample.root = Some ctx
    ∧ ¬ NoDup (current_project_technologies ctx).
Proof.
  apply (python_listed_twice (λ _, [lit "python"])
           (<[Sample.root ++ [lit "package.json"] := File (lit "{}")]>
              Sample.fs_manifest)
           Sample.root (lit "{}")).
  - vm_compute. reflexivity.
  - vm_compute. reflexivity.
  - cbv beta. constructor.
  - vm_compute. reflexivity.
Defined.

(** X14.  When [package.json] exists, readable or not, the technologies begin
    with [javascript] and [node]. *)
Theorem package_json_marks_javascript package_dependencies fs project_path :
  let root := FS.normalize project_path in
  FS.is_dir fs root = true →
  FS.exists_ fs (FS.joinpath root (lit "package.json")) = true →
  ∃ ctx,
    _load_project_info package_dependencies fs project_path = Some ctx
    ∧ [lit "javascript"; lit "node"] `prefix_of` current_project_technologies ctx.
Proof.
  intros root Hd Hpkg. unfold _load_project_info. fold root.
  rewrite (is_dir_exists _ _ Hd), Hd. cbn [andb negb]. rewrite Hpkg.
  eexists. split; [done |]. cbn [current_project_technologies app].
  match goal with
  | |- _ `prefix_of` match ?t with [] => _ | _ :: _ => _ end =>
      assert (Ht : [lit "javascript"; lit "node"] `prefix_of` t);
      [|destruct t; [by apply prefix_nil_inv in Ht | done]]
  end.
  load_cases;
    repeat first
      [ done
      | apply foldl_append_new_prefix
      | (etrans; [|apply requirements_prefix])
      | (etrans; [|apply prefix_app_r; reflexivity]) ].
Qed.

Lemma package_json_marks_javascript_witness :
  ∃ ctx,
    _load_project_info (λ _, [])
      (<[Sample.root ++ [lit "package.json"] := Dir]> Sample.fs) Sample.root
    = Some ctx
    ∧ [lit "javascript"; lit "node"] `prefix_of` current_project_technologies ctx.
Proof.
  apply (package_json_marks_javascript (λ _, [])
           (<[Sample.root ++ [lit "package.json"] := Dir]> Sample.fs) Sample.root).
  - vm_compute. reflexivity.
  - vm_compute. reflexivity.
Defined.

(** X15.  Without [package.json] and [requirements.txt] the technologies come
    from the names below the project directory: [python] when some entry
    (a file or a directory, hidden or not) has a name ending in [.py],
    [javascript] when one ends in [.js], and [unknown] exactly when
    there is neither. *)
Theorem technologies_from_names package_dependencies fs project_path :
  let root := FS.normalize project_path in
  FS.is_dir fs root = true →
  FS.exists_ fs (FS.joinpath root (lit "package.json")) = false →
  FS.exists_ fs (FS.joinpath root (lit "requirements.txt")) = false →
  ∃ ctx,
    _load_project_info package_dependencies fs project_path = Some ctx
    ∧ (lit "python" ∈ current_project_technologies ctx
       ↔ has_entry fs root (lit ".py"))
    ∧ (lit "javascript" ∈ current_project_technologies ctx
       ↔ has_entry fs root (lit ".js"))
    ∧ (current_project_technologies ctx = [lit "unknown"]
       ↔ ¬ has_entry fs root (lit ".py") ∧ ¬ has_entry fs root (lit ".js")).
Proof.
  intros root Hd Hpkg Hreq. unfold _load_project_info. fold root.
  rewrite (is_dir_exists _ _ Hd), Hd. cbn [andb negb]. rewrite Hpkg, Hreq.
  eexists. split; [done |]. cbn [current_project_technologies].
  rewrite <- !glob_suffix_spec.
  destruct (FS.glob_suffix fs root (lit ".py")),
           (FS.glob_suffix fs root (lit ".js")); cbn [app].
  all: repeat split; try done; try (by intros [? ?]);
    try (intros _; apply (bool_decide_unpack _); by vm_compute);
    try (intros Hin; exfalso; revert Hin; apply not_elem_of_decide; by vm_compute).
Qed.

Lemma technologies_from_names_witness :
  ∃ ctx,
    _load_project_info (λ _, [])
      (<[Sample.root ++ [lit "docs"; lit "conf.py"] := File []]> Sample.fs)
      Sample.root = Some ctx
    ∧ current_project_technologies ctx = [lit "python"].
Proof.
  destruct (technologies_from_names (λ _, [])
              (<[Sample.root ++ [lit "docs"; lit "conf.py"] := File []]> Sample.fs)
              Sample.root) as (ctx & Hctx & _).
  - vm_compute. reflexivity.
  - vm_compute. reflexivity.
  - vm_compute. reflexivity.
  - exists ctx. split; [exact Hctx |].
    revert Hctx. vm_compute. by intros [= <-].
Defined.

(** X16.  Loading a project by the path the inspector recorded for it gives
    the same project again: the recorded path is resolved. *)
Theorem load_by_recorded_path package_dependencies fs project_path ctx :
  _load_project_info package_dependencies fs project_path = Some ctx →
  current_project_path ctx = FS.normalize project_path
  ∧ _load_project_info package_dependencies fs (current_project_path ctx)
    = Some ctx.
Proof.
  intros H.
  assert (Hsame : _load_project_info package_dependencies fs
                    (FS.normalize project_path)
                  = _load_project_info package_dependencies fs project_path).
  { unfold _load_project_info. by rewrite normalize_idemp. }
  assert (Hpath : current_project_path ctx = FS.normalize project_path).
  { unfold _load_project_info in H. destruct (negb _); [done |].
    by injection H as <-. }
  split; [done |]. by rewrite Hpath, Hsame.
Qed.

Lemma load_by_recorded_path_witness :
  ∃ ctx,
    _load_project_info (λ _, []) Sample.fs_manifest
      (Sample.root ++ [lit "."; lit ".."; lit "demo"]) = Some ctx
    ∧ current_project_path ctx = Sample.root
    ∧ _load_project_info (λ _, []) Sample.fs_manifest (current_project_path ctx)
      = Some ctx.
Proof.
  eexists. split; [vm_compute; reflexivity |].
  apply (load_by_recorded_path (λ _, []) Sample.fs_manifest
           (Sample.root ++ [lit "."; lit ".."; lit "demo"])).
  vm_compute. reflexivity.
Defined.

(** X17.  The name taken from a requirement line is the beginning of the
    stripped line and holds neither [==] nor [>=]; a line with neither
    of the two (another specifier, a comment, an option) is taken whole. *)
Theorem requirement_name_cuts_specifier line :
  requirement_name line `prefix_of` PyStr.strip line
  ∧ ¬ PyStr.occurs (lit "==") (requirement_name line)
  ∧ ¬ PyStr.occurs (lit ">=") (requirement_name line)
  ∧ (¬ PyStr.occurs (lit "==") (PyStr.strip line) →
     ¬ PyStr.occurs (lit ">=") (PyStr.strip line) →
     requirement_name line = PyStr.strip line).
Proof.
  unfold requirement_name. repeat split.
  - etrans; apply before_prefix.
  - intros Hocc. apply (before_no_sep (lit "==") (PyStr.strip line)); [done |].
    eapply occurs_prefix; [done | apply before_prefix].
  - by apply before_no_sep.
  - intros H1 H2. by rewrite (before_absent _ _ H1), (before_absent _ _ H2).
Qed.

(** ** The formatter, continued *)

Lemma split_nonempty sep (s : str) : PyStr.split sep s ≠ [].
Proof.
  induction s as [|c s IH]; [done |]. simpl.
  case_decide; [done |]. by destruct (PyStr.split sep s).
Qed.

Lemma join_cons sep (p : str) ps :
  ps ≠ [] → PyStr.join sep (p :: ps) = p ++ sep ++ PyStr.join sep ps.
Proof. by destruct ps. Qed.

(** [split] and [join] are inverse to each other. *)
Lemma join_split (s : str) : PyStr.join [nl] (PyStr.split nl s) = s.
Proof.
  induction s as [|c s IH]; [done |]. simpl.
  pose proof (split_nonempty nl s) as Hne.
  case_decide as Hc.
  - rewrite join_cons by done. rewrite IH. by subst c.
  - destruct (PyStr.split nl s) as [|l ls]; [done |].
    destruct ls as [|l' ls]; [simpl in *; by rewrite IH |].
    rewrite join_cons by done. rewrite join_cons in IH by done.
    by rewrite <- IH.
Qed.

Section FormatMore.

Variable fill : str → str.

(** Inside a code block, lines without a fence are collected as they
    are. *)
Lemma collect_code st code :
  in_code_block st = true → Forall (λ l, is_fence l = false) code →
  foldl (format_line fill) st code
  = {| result := result st; in_code_block := true;
       code_lines := code_lines st ++ code |}.
Proof.
  intros Hin Hcode. revert st Hin.
  induction Hcode as [|line code Hline _ IH]; intros st Hin.
  - simpl. rewrite app_nil_r. destruct st; simpl in *; by subst.
  - assert (Hst : format_line fill st line
                  = {| result := result st;
                       in_code_block := true;
                       code_lines := code_lines st ++ [line] |}).
    { unfold format_line. fold (is_fence line). by rewrite Hline, Hin. }
    simpl. rewrite Hst, IH by done. simpl. by rewrite <- app_assoc.
Qed.

(** Outside a code block nothing is held back. *)
Lemma code_lines_outside lines :
  in_code_block (format_lines fill lines) = false →
  code_lines (format_lines fill lines) = [].
Proof.
  induction lines as [|line lines IH] using rev_ind; [done |].
  rewrite format_lines_snoc. unfold format_line. fold (is_fence line).
  destruct (is_fence line), (in_code_block (format_lines fill lines)) eqn:Hin;
    simpl; done.
Qed.

(** What is already put out does not change how the lines that follow
    are formatted. *)
Lemma format_line_frame R st line :
  format_line fill
    {| result := R ++ result st; in_code_block := in_code_block st;
       code_lines := code_lines st |} line
  = {| result := R ++ result (format_line fill st line);
       in_code_block := in_code_block (format_line fill st line);
       code_lines := code_lines (format_line fill st line) |}.
Proof.
  unfold format_line. cbn [result in_code_block code_lines].
  destruct (PyStr.startswith _ _), (in_code_block st);
    cbn [negb result in_code_block code_lines]; by rewrite <- ?app_assoc.
Qed.

Lemma format_lines_frame R st lines :
  foldl (format_line fill)
    {| result := R ++ result st; in_code_block := in_code_block st;
       code_lines := code_lines st |} lines
  = {| result := R ++ result (foldl (format_line fill) st lines);
       in_code_block := in_code_block (foldl (format_line fill) st lines);
       code_lines := code_lines (foldl (format_line fill) st lines) |}.
Proof.
  revert st. induction lines as [|line lines IH]; intros st; [done |].
  simpl. by rewrite format_line_frame, IH.
Qed.

(** Lines without a fence, outside a code block. *)
Lemma format_plain_lines lines :
  Forall (λ l, is_fence l = false) lines →
  format_lines fill lines
  = {| result := map (λ l, if bool_decide (PyStr.strip l ≠ []) then fill l else l)
                   lines;
       in_code_block := false; code_lines := [] |}.
Proof.
  induction lines as [|line lines IH] using rev_ind; [done |].
  intros [Hl Hline%Forall_inv]%Forall_app.
  rewrite format_lines_snoc, IH by done.
  unfold format_line. fold (is_fence line). rewrite Hline.
  cbn [in_code_block result code_lines]. by rewrite map_app.
Qed.

End FormatMore.

(** ** Further properties of the formatter *)

(** X18.  A code block that is closed reaches the output as it is: between
    the banner of its opening fence and the closing banner stand its
    lines, joined by newlines and never given to [textwrap.fill]; the
    text after the block is formatted as if it stood alone. *)
Theorem closed_fence_keeps_code fill text pre opening code closing post :
  PyStr.split nl text = pre ++ opening :: code ++ closing :: post →
  Nat.even (length (filter (λ l, is_fence l = true) pre)) = true →
  is_fence opening = true →
  Forall (λ l, is_fence l = false) code →
  is_fence closing = true →
  _format_terminal_text fill text
  = PyStr.join [nl]
      (result (format_lines fill pre)
       ++ [opening_banner opening;
           nl :: PyStr.join [nl] code;
           bold (lit "# End of code") ++ [nl]]
       ++ result (format_lines fill post)).
Proof.
  intros Hsplit Hpre Hopen Hcode Hclose.
  assert (Hout : in_code_block (format_lines fill pre) = false).
  { rewrite in_code_block_parity, <- Nat.negb_even, Hpre. done. }
  pose proof (code_lines_outside fill pre Hout) as Hnone.
  unfold _format_terminal_text. rewrite Hsplit. f_equal.
  unfold format_lines at 1. rewrite foldl_app. cbn [foldl].
  fold (format_lines fill pre).
  assert (Hstep : format_line fill (format_lines fill pre) opening
                  = {| result := result (format_lines fill pre)
                                 ++ [opening_banner opening];
                       in_code_block := true; code_lines := [] |}).
  { unfold format_line. fold (is_fence opening). rewrite Hopen, Hout, Hnone.
    done. }
  rewrite Hstep, foldl_app.
  rewrite (collect_code fill
             {| result := result (format_lines fill pre) ++ [opening_banner opening];
                in_code_block := true; code_lines := [] |}
             code eq_refl Hcode). cbn [foldl].
  cbn [result code_lines app].
  assert (Hend : format_line fill
                   {| result := result (format_lines fill pre)
                                ++ [opening_banner opening];
                      in_code_block := true; code_lines := code |} closing
                 = {| result := (result (format_lines fill pre)
                                 ++ [opening_banner opening;
                                     nl :: PyStr.join [nl] code;
                                     bold (lit "# End of code") ++ [nl]])
                                ++ result
                                     {| result := []; in_code_block := false;
                                        code_lines := [] |};
                      in_code_block := false; code_lines := [] |}).
  { unfold format_line. fold (is_fence closing). rewrite Hclose.
    cbn [in_code_block negb result code_lines].
    by rewrite app_nil_r, <- app_assoc. }
  rewrite Hend.
  rewrite (format_lines_frame fill _
             {| result := []; in_code_block := false; code_lines := [] |}).
  cbn [result]. by rewrite <- app_assoc.
Qed.

Lemma closed_fence_keeps_code_witness :
  _format_terminal_text Sample.fill
    (lit "Look:" ++ [nl] ++ lit "```python" ++ [nl] ++ lit "x = 1" ++ [nl]
     ++ lit "  y = 2" ++ [nl] ++ lit "```" ++ [nl] ++ lit "Bye.")
  = PyStr.join [nl]
      ([lit "Look:"]
       ++ [opening_banner (lit "```python");
           nl :: PyStr.join [nl] [lit "x = 1"; lit "  y = 2"];
           bold (lit "# End of code") ++ [nl]]
       ++ [lit "Bye."]).
Proof.
  apply (closed_fence_keeps_code Sample.fill _ [lit "Look:"] (lit "```python")
           [lit "x = 1"; lit "  y = 2"] (lit "```") [lit "Bye."]).
  - vm_compute. reflexivity.
  - vm_compute. reflexivity.
  - vm_compute. reflexivity.
  - repeat constructor.
  - vm_compute. reflexivity.
Defined.

(** X19.  A text without fence lines whose lines [textwrap.fill] leaves as
    they are (lines that are short enough) comes back unchanged; blank
    lines are never given to [textwrap.fill]. *)
Theorem plain_text_unchanged fill text :
  Forall (λ line, is_fence line = false
                  ∧ (PyStr.strip line ≠ [] → fill line = line))
    (PyStr.split nl text) →
  _format_terminal_text fill text = text.
Proof.
  intros H. unfold _format_terminal_text.
  rewrite format_plain_lines by (eapply Forall_impl; [done | by intros ? [? ?]]).
  cbn [result]. rewrite <- (join_split text) at 2. f_equal.
  rewrite <- (map_id (PyStr.split nl text)) at 2.
  apply map_ext_Forall. eapply Forall_impl; [done |].
  intros line [_ Hfill]. simpl. case_bool_decide; [by apply Hfill | done].
Qed.

Lemma plain_text_unchanged_witness :
  _format_terminal_text Sample.fill
    (lit "Hello." ++ [nl; nl] ++ lit "  All done.")
  = lit "Hello." ++ [nl; nl] ++ lit "  All done.".
Proof.
  apply (plain_text_unchanged Sample.fill).
  repeat constructor.
Defined.

(** ** Further properties of the chat loop *)

(** X20.  Whatever the user types and the collaborator answers, a chat
    session only adds to its history: what was said stays as it was
    said and where it was, and what is added are messages of the user
    and of the assistant. *)
Theorem chat_history_only_grows str_exc fill root completion s inputs :
  ∃ added,
    messages (chat_loop str_exc fill root completion s inputs)
    = messages s ++ added
    ∧ Forall (λ m, role m = User ∨ role m = Assistant) added.
Proof. apply chat_loop_adds. Qed.

(** X21.  The loop ends at the first [@exit], [@quit] or [@bye], in any case
    of the letters, and at the end of the input: nothing that follows is
    read, sent or written. *)
Theorem nothing_after_exit str_exc fill root completion s inputs last_input rest :
  match last_input with
  | Some word => PyStr.lower word ∈ [lit "@exit"; lit "@quit"; lit "@bye"]
  | None => True
  end →
  chat_loop str_exc fill root completion s (inputs ++ last_input :: rest)
  = chat_loop str_exc fill root completion s inputs.
Proof.
  intros Hexit.
  assert (Hbreak : ∀ s0, chat_turn str_exc fill root completion s0 last_input
                         = Break).
  { intros s0. unfold chat_turn. destruct last_input as [word|]; [|done].
    by rewrite bool_decide_true. }
  revert s. induction inputs as [|i inputs IH]; intros s; simpl.
  - by rewrite Hbreak.
  - destruct (chat_turn str_exc fill root completion s i); [done | apply IH].
Qed.

Lemma nothing_after_exit_witness :
  chat_loop Sample.str_exc Sample.fill Sample.root Sample.completion
    {| messages := []; session_fs := Sample.fs |}
    ([Some (lit "@help")] ++ Some (lit "@Quit") :: [Some (lit "Please fix a.txt")])
  = chat_loop Sample.str_exc Sample.fill Sample.root Sample.completion
      {| messages := []; session_fs := Sample.fs |} [Some (lit "@help")].
Proof.
  apply (nothing_after_exit Sample.str_exc Sample.fill Sample.root
           Sample.completion {| messages := []; session_fs := Sample.fs |}
           [Some (lit "@help")] (Some (lit "@Quit"))
           [Some (lit "Please fix a.txt")]).
  apply (bool_decide_unpack _). vm_compute. exact I.
Defined.

(** ** Paths as text, and the commands *)


Lemma split_join sep (l : list str) :
  Forall (λ s, sep ∉ s) l → l ≠ [] → PyStr.split sep (PyStr.join [sep] l) = l.
Proof.
  induction 1 as [|s l Hs Hl IH]; [done |]. intros _.
  destruct l as [|s' l].
  - simpl. by apply split_no_sep.
  - rewrite join_cons by done.
    change ([sep] ++ PyStr.join [sep] (s' :: l))
      with (sep :: PyStr.join [sep] (s' :: l)).
    rewrite split_app_sep by done. by rewrite IH.
Qed.

Lemma parse_parts_join (l : list str) :
  Forall FS.is_name l → l ≠ [] →
  FS.parse_parts (PyStr.join (lit "/") l) = l.
Proof.
  intros Hl Hne. unfold FS.parse_parts.
  rewrite (split_join "/"%char).
  - clear Hne. induction Hl as [|s l [Hs _] _ IH]; [done |].
    rewrite filter_cons_True; [by rewrite IH |].
    unfold FS.special in Hs. apply bool_decide_eq_false in Hs.
    split; intros ->; apply Hs; [by right; right | by right; left].
  - eapply Forall_impl; [done |]. by intros s [_ ?].
  - done.
Qed.

Lemma is_absolute_join (l : list str) :
  Forall FS.is_name l → l ≠ [] →
  FS.is_absolute (PyStr.join (lit "/") l) = false.
Proof.
  intros Hl Hne. destruct Hl as [|s l [Hs Hslash] Hl]; [done |].
  unfold FS.is_absolute, PyStr.startswith. apply bool_decide_eq_false.
  intros [k Hk]. destruct s as [|c s].
  - by vm_compute in Hs.
  - assert (c = "/"%char) as ->.
    { destruct l; simpl in Hk; by injection Hk. }
    apply Hslash. by left.
Qed.

Lemma joinpath_join root (l : list str) :
  Forall FS.is_name l → l ≠ [] →
  FS.joinpath root (PyStr.join (lit "/") l) = root ++ l.
Proof.
  intros Hl Hne. unfold FS.joinpath.
  by rewrite is_absolute_join, parse_parts_join.
Qed.

(** A location that a walk reaches as it stands has plain segments
    only. *)
Lemma step_length l s : length (FS.step l s) ≤ S (length l).
Proof.
  unfold FS.step. repeat case_decide.
  - rewrite removelast_firstn_len, length_take. lia.
  - lia.
  - rewrite length_app. simpl. lia.
Qed.

Lemma foldl_step_length l p : length (foldl FS.step l p) ≤ length l + length p.
Proof.
  revert l. induction p as [|s p IH]; intros l; simpl; [lia |].
  etrans; [apply IH |]. pose proof (step_length l s). lia.
Qed.

Lemma foldl_step_full l p :
  length (foldl FS.step l p) = length l + length p →
  Forall (λ s, FS.special s = false) p.
Proof.
  revert l. induction p as [|s p IH]; intros l Hlen; [done |]. simpl in Hlen.
  pose proof (foldl_step_length (FS.step l s) p) as Hle.
  pose proof (step_length l s) as Hs.
  constructor; [|apply (IH (FS.step l s)); lia].
  destruct (FS.special s) eqn:Hsp; [exfalso | done].
  assert (length (FS.step l s) ≤ length l); [|lia].
  unfold FS.special in Hsp. apply bool_decide_eq_true in Hsp.
  unfold FS.step. destruct (decide (s = FS.dotdot)).
  - rewrite removelast_firstn_len, length_take. lia.
  - rewrite decide_True; [done |]. destruct Hsp as [?|[?|?]]; [done | by left | by right].
Qed.

Lemma walk_self_plain fs l :
  FS.walk fs [] l = inr l → Forall (λ s, FS.special s = false) l.
Proof.
  intros H%walk_normalize. apply (foldl_step_full []). by rewrite <- H.
Qed.

Lemma get_project_files_elem fs cpp rel :
  rel ∈ _get_project_files fs cpp ↔
  ∃ top l text file,
    FS.walk fs [] cpp = inr top ∧ fs !! l = Some (File text)
    ∧ last l = Some file ∧ top `prefix_of` l ∧ l ≠ top
    ∧ FS.reachable fs l = true ∧ PyStr.startswith file (lit ".") = false
    ∧ rel = PyStr.join (lit "/") (drop (length top) l).
Proof.
  unfold _get_project_files. destruct (FS.walk fs [] cpp) as [e|top].
  { split; [by intros ?%elem_of_nil | by intros (? & ? & ? & ? & ? & _)]. }
  rewrite list_elem_of_omap. split.
  - intros ([l n] & Hin%elem_of_map_to_list & Hf). cbn [fst snd] in Hf.
    destruct n as [|text]; [done |]. destruct (last l) as [file|] eqn:Hlast; [|done].
    destruct (_ && _) eqn:Hb; [|done]. injection Hf as <-.
    apply andb_true_iff in Hb as [Hb Hhid].
    apply andb_true_iff in Hb as [Hb Hr].
    apply andb_true_iff in Hb as [Hp Hne].
    exists top, l, text, file. repeat split; try done.
    + by eapply bool_decide_eq_true_1.
    + by eapply bool_decide_eq_true_1.
    + by apply negb_true_iff.
  - intros (top' & l & text & file & [= <-] & Hl & Hlast & Hp & Hne & Hr & Hhid & ->).
    exists (l, File text). split; [by apply elem_of_map_to_list |].
    cbn [fst snd]. rewrite Hlast, Hr, Hhid. cbn [andb negb].
    by rewrite !bool_decide_true.
Qed.

(** ** Command words and their arguments *)

Lemma lower_app (a b : str) : PyStr.lower (a ++ b) = PyStr.lower a ++ PyStr.lower b.
Proof. apply map_app. Qed.

Lemma lower_length (a : str) : length (PyStr.lower a) = length a.
Proof. apply length_map. Qed.

(** A command word in any case, followed by its argument. *)
Lemma command_word (w arg word : str) :
  PyStr.lower w = word →
  PyStr.lower (w ++ arg) = word ++ PyStr.lower arg
  ∧ PyStr.startswith (PyStr.lower (w ++ arg)) word = true
  ∧ drop (length word) (w ++ arg) = arg.
Proof.
  intros Hw. rewrite lower_app, Hw. split; [done |]. split.
  - unfold PyStr.startswith. apply bool_decide_eq_true. by apply prefix_app_r.
  - rewrite <- Hw, lower_length. by rewrite drop_app_length.
Qed.

(** ** Listing and reading files *)



(** X23.  In a file system whose names hold no slash, every path that
    [_get_project_files] lists names a regular file of the project: the
    path joined onto the project directory, as [_read_file] joins it, is
    the path of an existing regular file. *)
Theorem listed_path_names_file fs root rel :
  well_named fs = true →
  rel ∈ _get_project_files fs root →
  ∃ text, FS.stat fs (FS.joinpath root rel) = inr (File text).
Proof.
  intros Hwn (top & l & text & file & Htop & Hl & Hlast & [d ->] & Hne & Hr
              & _ & ->)%get_project_files_elem.
  rewrite drop_app_length.
  assert (Hd : d ≠ []) by (intros ->; by rewrite app_nil_r in Hne).
  apply andb_true_iff in Hr as [Hwalk%bool_decide_eq_true_1 _].
  pose proof (walk_self_plain _ _ Hwalk) as [Hptop Hpd]%Forall_app.
  assert (Hnames : Forall FS.is_name d).
  { unfold well_named in Hwn. rewrite forallb_forall in Hwn.
    specialize (Hwn (top ++ d, File text)).
    rewrite <- list_elem_of_In, elem_of_map_to_list in Hwn.
    specialize (Hwn Hl). cbn [fst] in Hwn. rewrite forallb_app in Hwn.
    apply andb_true_iff in Hwn as [_ Hwn]. rewrite forallb_forall in Hwn.
    apply Forall_forall. intros s Hs. split.
    - by eapply Forall_forall in Hpd.
    - apply list_elem_of_In, Hwn in Hs. apply negb_true_iff in Hs.
      by apply bool_decide_eq_false in Hs. }
  exists text.
  assert (Hread : FS.read fs (FS.joinpath root (PyStr.join (lit "/") d)) = inr text).
  { rewrite joinpath_join by done. apply read_inr.
    pose proof (walk_normalize _ _ _ _ Htop) as Hn.
    assert (Hnorm : FS.normalize (root ++ d) = top ++ d).
    { unfold FS.normalize. rewrite foldl_app, <- Hn. by apply normalize_plain. }
    rewrite Hnorm. split.
    - rewrite walk_app, Htop. rewrite walk_app in Hwalk.
      destruct (FS.walk fs [] top) as [e|top'] eqn:Ht; [done |].
      apply walk_normalize in Ht. rewrite normalize_plain in Ht by done.
      by subst top'.
    - unfold FS.node_at. destruct (top ++ d) eqn:Heq; [by destruct top, d | done]. }
  unfold FS.read in Hread.
  destruct (FS.stat fs _) as [e|[|t]]; [done | done |]. by injection Hread as ->.
Qed.

Lemma listed_path_names_file_witness :
  ∃ text,
    FS.stat (<[Sample.root ++ [lit "docs"; lit "guide.md"] := File (lit "Hello")]>
               Sample.fs)
      (FS.joinpath Sample.root (lit "docs/guide.md")) = inr (File text).
Proof.
  apply (listed_path_names_file
           (<[Sample.root ++ [lit "docs"; lit "guide.md"] := File (lit "Hello")]>
              Sample.fs)
           Sample.root (lit "docs/guide.md")).
  - vm_compute. reflexivity.
  - apply (bool_decide_unpack _). vm_compute. exact I.
Defined.

(** ** Command words *)

(** X24.  The commands of the loop of [main] are recognised in any case of
    their letters, while what follows the command word is taken as it
    is, without the blanks around it: a prompt to build from, a project
    path to chat about, or nothing at all.  The word [@build] or
    [@chat] without a blank after it is no command. *)
Theorem main_commands_ignore_case w arg :
  (PyStr.lower w = lit "@build " →
   main_command (w ++ arg)
   = if bool_decide (PyStr.strip arg ≠ []) then MainBuild (PyStr.strip arg)
     else MainBuildNoPrompt)
  ∧ (PyStr.lower w = lit "@chat " →
     main_command (w ++ arg)
     = MainChat (if bool_decide (PyStr.strip arg ≠ [])
                 then Some (PyStr.strip arg) else None))
  ∧ (PyStr.lower w = lit "@build" ∨ PyStr.lower w = lit "@chat" →
     main_command w = MainUnknown).
Proof.
  split; [|split].
  - intros Hw. destruct (command_word w arg _ Hw) as (Hl & Hs & Hd).
    unfold main_command. rewrite Hs, Hl.
    rewrite bool_decide_false.
    + change 7 with (length (lit "@build ")). by rewrite Hd.
    + intros Hin. repeat (apply elem_of_cons in Hin as [Hin|Hin]; [done |]).
      by apply elem_of_nil in Hin.
  - intros Hw. destruct (command_word w arg _ Hw) as (Hl & Hs & Hd).
    unfold main_command. rewrite Hs, Hl.
    rewrite bool_decide_false.
    + replace (PyStr.startswith (lit "@chat " ++ PyStr.lower arg) (lit "@build "))
        with false.
      * change 6 with (length (lit "@chat ")). rewrite Hd. by case_bool_decide.
      * symmetry. apply bool_decide_eq_false. by intros [k Hk].
    + intros Hin. repeat (apply elem_of_cons in Hin as [Hin|Hin]; [done |]).
      by apply elem_of_nil in Hin.
  - intros Hw. unfold main_command. by destruct Hw as [-> | ->].
Qed.

Lemma main_commands_ignore_case_witness :
  main_command (lit "@Build " ++ lit "  a To-Do app ") = MainBuild (lit "a To-Do app")
  ∧ main_command (lit "@CHAT " ++ lit "  ") = MainChat None
  ∧ main_command (lit "@Chat") = MainUnknown.
Proof.
  destruct (main_commands_ignore_case (lit "@Build ") (lit "  a To-Do app "))
    as (Hbuild & _ & _).
  destruct (main_commands_ignore_case (lit "@CHAT ") (lit "  "))
    as (_ & Hchat & _).
  destruct (main_commands_ignore_case (lit "@Chat") []) as (_ & _ & Hbare).
  split; [|split].
  - rewrite Hbuild; reflexivity.
  - rewrite Hchat; reflexivity.
  - apply Hbare. right. reflexivity.
Defined.



(** ** The setup of the assistant *)

(** X26.  [__init__] fails for want of an API key exactly when neither the
    argument nor the environment gives a string that is not empty, and
    then nothing is created; when it returns, the projects directory is
    a directory, and nothing that was there is gone. *)
Theorem assistant_setup api_key_arg projects_dir_arg model_arg environ pw_dir cwd fs :
  let r := __init__ api_key_arg projects_dir_arg model_arg environ pw_dir cwd fs in
  (r.2 = inl NoApiKey
   ↔ (api_key_arg = None ∨ api_key_arg = Some [])
     ∧ (OPENAI_API_KEY environ = None ∨ OPENAI_API_KEY environ = Some []))
  ∧ (r.2 = inl NoApiKey → r.1 = fs)
  ∧ (∀ a, r.2 = inr a →
          FS.is_dir r.1 (projects_dir a) = true ∧ api_key a ≠ [])
  ∧ entries_kept fs r.1.
Proof.
  intros r. unfold r, __init__.
  destruct api_key_arg as [[|c k]|], (OPENAI_API_KEY environ) as [[|c' k']|];
    cbn [py_or fst snd].
  all: try (split; [|split; [done | split; [done | apply entries_kept_refl]]];
            split; [intros _; split; first [by left | by right] | done]).
  all: destruct (FS.mkdir fs _) as [fs' [e|]] eqn:Hm; cbn [fst snd].
  all: split; [|split; [done | split; [|by eapply mkdir_entries_kept]]].
  all: try (split; [done | intros [[?|?] [?|?]]; done]).
  all: try done.
  all: intros a [= <-]; cbn [projects_dir api_key]; split; [by eapply mkdir_ok | done].
Qed.

Lemma assistant_setup_witness :
  (__init__ (Some []) None (lit "gpt-4o")
     {| OPENAI_API_KEY := None; PROJECT_GEN_DIR := None;
        HOME := Some (lit "/home/user/") |} None [] Sample.fs).2
  = inl NoApiKey
  ∧ ∀ a,
      (__init__ None None (lit "gpt-4o")
         {| OPENAI_API_KEY := Some (lit "sk-1"); PROJECT_GEN_DIR := None;
            HOME := Some (lit "/home/user/") |} None [] Sample.fs).2
      = inr a →
      FS.is_dir
        (__init__ None None (lit "gpt-4o")
           {| OPENAI_API_KEY := Some (lit "sk-1"); PROJECT_GEN_DIR := None;
              HOME := Some (lit "/home/user/") |} None [] Sample.fs).1
        (projects_dir a) = true
      ∧ api_key a ≠ [].
Proof.
  split.
  - apply (assistant_setup (Some []) None (lit "gpt-4o")
             {| OPENAI_API_KEY := None; PROJECT_GEN_DIR := None;
                HOME := Some (lit "/home/user/") |} None [] Sample.fs).
    split; [by right | by left].
  - apply (assistant_setup None None (lit "gpt-4o")
             {| OPENAI_API_KEY := Some (lit "sk-1"); PROJECT_GEN_DIR := None;
                HOME := Some (lit "/home/user/") |} None [] Sample.fs).
Defined.

(** ** The stages of [_create_project] *)

(** The stages of a run of [_create_project] that returns the project
    path. *)
Lemma create_project_stages projects_dir confirm fs plan fs' project_path :
  _create_project projects_dir confirm fs plan = (fs', inr (Some project_path)) →
  project_path = FS.joinpath projects_dir (project_name plan)
  ∧ ∃ fs1 fs2 fs3,
      FS.mkdir fs project_path = (fs1, None)
      ∧ FS.write fs1 (FS.joinpath project_path (lit "README.md"))
          (readme_text plan) = (fs2, None)
      ∧ (if bool_decide (lit "python" ∈ plan_technologies plan)
         then FS.write fs2 (FS.joinpath project_path (lit "requirements.txt"))
                (requirements_text plan)
         else (fs2, None)) = (fs3, None)
      ∧ create_items project_path fs3 (structure plan) = (fs', None).
Proof.
  unfold _create_project.
  set (pp := FS.joinpath projects_dir (project_name plan)).
  destruct (_ && _); [done |].
  destruct (FS.mkdir fs pp) as [fs1 [e1|]] eqn:Hm; [done |].
  destruct (FS.write fs1 _ _) as [fs2 [e2|]] eqn:Hreadme; [done |].
  destruct (if bool_decide _ then _ else _) as [fs3 [e3|]] eqn:Hreq; [done |].
  destruct (create_items pp fs3 (structure plan)) as [fs4 [e4|]] eqn:Hitems; [done |].
  intros [= <- <-]. split; [done |]. by exists fs1, fs2, fs3.
Qed.

Lemma text_lines_from_line (d rest cur : str) :
  nl ∉ d → "013"%char ∉ d →
  text_lines_from (d ++ nl :: rest) cur
  = (reverse cur ++ d) :: text_lines_from rest [].
Proof.
  revert cur. induction d as [|c d IH]; intros cur Hnl Hcr.
  - simpl. rewrite ?decide_True by done. by rewrite app_nil_r.
  - simpl. rewrite decide_False by (intros ->; apply Hnl; by left).
    rewrite decide_False by (intros ->; apply Hcr; by left).
    rewrite IH.
    + by rewrite reverse_cons, <- app_assoc.
    + intros H. apply Hnl. by right.
    + intros H. apply Hcr. by right.
Qed.

(** The lines of a [requirements.txt] as [_create_project] writes it are
    the dependencies of the plan. *)
Lemma text_lines_requirements (deps : list str) :
  Forall (λ dep, (nl ∉ dep) ∧ "013"%char ∉ dep) deps →
  text_lines (concat (map (λ dep, dep ++ [nl]) deps)) = deps.
Proof.
  unfold text_lines. induction 1 as [|dep deps [Hnl Hcr] _ IH]; [done |].
  simpl. rewrite <- app_assoc. simpl.
  rewrite text_lines_from_line by done. by rewrite IH.
Qed.

Lemma joinpath_plain_name (p : Path) (name : str) :
  FS.is_name name → FS.joinpath p name = p ++ [name].
Proof.
  intros Hname.
  by rewrite <- (joinpath_join p [name]) by (by constructor || done).
Qed.

(** ** From the materializer to the inspector *)

(** X27.  A python project that [_create_project] has just made loads as what
    the plan said, under these conditions: the projects directory is
    named without [.] and [..]; the project name is a single name (not
    empty, not [.] or [..], no [/]: a name such as [apps/shop] would
    load as [shop]); the dependencies of the plan hold no line end
    ([\n] or [\r]); no file entry writes over [requirements.txt]; and
    there is no [package.json] afterwards.  Then [_load_project_info] on
    the project path gives that path, the project name, and [python]
    followed by the dependencies of the plan, each stripped and cut at
    its version specifier ([==], then [>=]), without the empty ones and
    without repetitions. *)
Theorem created_python_project_loads
    package_dependencies projects_dir confirm fs plan fs' project_path :
  Forall (λ s, FS.special s = false) projects_dir →
  FS.is_name (project_name plan) →
  lit "python" ∈ plan_technologies plan →
  Forall (λ dep, (nl ∉ dep) ∧ "013"%char ∉ dep) (plan_dependencies plan) →
  (∀ item, item ∈ structure plan → entry_type item = lit "file" →
           entry_target project_path item
           ≠ project_path ++ [lit "requirements.txt"]) →
  _create_project projects_dir confirm fs plan = (fs', inr (Some project_path)) →
  FS.exists_ fs' (project_path ++ [lit "package.json"]) = false →
  _load_project_info package_dependencies fs' project_path
  = Some {| current_project_path := project_path;
            current_project_name := project_name plan;
            current_project_technologies :=
              foldl add_requirement [lit "python"] (plan_dependencies plan) |}.
Proof.
  intros Hpd Hname Hpy Hdeps Hitems Hrun Hpkg.
  destruct (create_project_stages _ _ _ _ _ _ Hrun)
    as (Hpp & fs1 & fs2 & fs3 & Hm & Hreadme & Hreq & Hcreate).
  rewrite joinpath_plain_name in Hpp by done.
  assert (Hplain : Forall (λ s, FS.special s = false) project_path).
  { subst project_path. apply Forall_app. split; [done |].
    constructor; [by destruct Hname | done]. }
  assert (Hnorm : FS.normalize project_path = project_path).
  { unfold FS.normalize. by rewrite normalize_plain. }
  rewrite bool_decide_true in Hreq by done.
  rewrite joinpath_name in Hreq by done.
  assert (Hdir : FS.is_dir fs' project_path = true).
  { eapply is_dir_mono; [by eapply create_items_dirs_le |].
    eapply is_dir_mono; [by eapply write_dirs_le |].
    eapply is_dir_mono; [by eapply write_dirs_le |]. by eapply mkdir_ok. }
  assert (Hloc : FS.normalize (project_path ++ [lit "requirements.txt"])
                 = project_path ++ [lit "requirements.txt"]).
  { rewrite normalize_snoc, Hnorm. by apply step_plain. }
  assert (Hread : FS.read fs' (project_path ++ [lit "requirements.txt"])
                  = inr (requirements_text plan)).
  { apply write_read in Hreq as Hr.
    eapply read_preserved; [by eapply create_items_dirs_le | done |].
    rewrite Hloc. eapply create_items_other; [done | done |].
    rewrite <- Hloc. by apply read_lookup. }
  unfold _load_project_info. rewrite Hnorm.
  rewrite (is_dir_exists _ _ Hdir), Hdir. cbn [andb negb].
  rewrite !joinpath_name by done.
  rewrite Hpkg, (read_exists _ _ _ Hread), Hread. cbn [app].
  unfold requirements_text. rewrite text_lines_requirements by done.
  destruct (requirements_prefix [lit "python"] (plan_dependencies plan)) as [k Hk].
  rewrite Hk. cbn [app]. do 2 f_equal.
  subst project_path. by rewrite last_app.
Qed.

Lemma created_python_project_loads_witness :
  _load_project_info (λ _, [])
    (_create_project Sample.projects [] Sample.fs
       {| project_name := lit "shop"; description := lit "A shop";
          technologies := Some [lit "python"];
          dependencies := Some [lit "flask==2.0.1"; lit "requests"];
          structure := [ {| entry_path := lit "app.py"; entry_type := lit "file";
                            entry_content := None |} ] |}).1
    (Sample.projects ++ [lit "shop"])
  = Some {| current_project_path := Sample.projects ++ [lit "shop"];
            current_project_name := lit "shop";
            current_project_technologies :=
              foldl add_requirement [lit "python"]
                [lit "flask==2.0.1"; lit "requests"] |}.
Proof.
  apply (created_python_project_loads (λ _, []) Sample.projects [] Sample.fs
           {| project_name := lit "shop"; description := lit "A shop";
              technologies := Some [lit "python"];
              dependencies := Some [lit "flask==2.0.1"; lit "requests"];
              structure := [ {| entry_path := lit "app.py"; entry_type := lit "file";
                                entry_content := None |} ] |}).
  - repeat constructor.
  - split; [reflexivity | no_newline].
  - constructor.
  - repeat constructor; no_newline.
  - intros item ->%list_elem_of_singleton _. vm_compute. discriminate.
  - rewrite (surjective_pairing (_create_project _ _ _ _)) at 1.
    f_equal; vm_compute; reflexivity.
  - vm_compute. reflexivity.
Defined.

(** ** Sessions *)

(** A walk along plain segments looks at the locations on the way
    only. *)
Lemma walk_agree fs fs' l segs :
  Forall (λ s, FS.special s = false) segs →
  (∀ k, k < length segs →
        FS.node_at fs' (l ++ take k segs) = FS.node_at fs (l ++ take k segs)) →
  FS.walk fs' l segs = FS.walk fs l segs.
Proof.
  intros Hplain. revert l. induction Hplain as [|s segs Hs _ IH]; intros l Hsame; [done |].
  simpl. specialize (Hsame 0 ltac:(simpl; lia)) as H0.
  simpl in H0. rewrite app_nil_r in H0. rewrite H0.
  destruct (FS.node_at fs l) as [[|text]|]; [|done..].
  rewrite step_plain by done. apply IH. intros k Hk.
  specialize (Hsame (S k) ltac:(simpl; lia)). simpl in Hsame.
  by rewrite <- !app_assoc.
Qed.

(** What can be read along a plain path stays readable when the
    locations on the path are left alone. *)
Lemma read_agree fs fs' p text :
  Forall (λ s, FS.special s = false) p →
  (∀ l, l `prefix_of` p → fs' !! l = fs !! l) →
  FS.read fs p = inr text → FS.read fs' p = inr text.
Proof.
  intros Hplain Hsame [Hwalk Hnode]%read_inr. apply read_inr.
  assert (Hnodes : ∀ l, l `prefix_of` p → FS.node_at fs' l = FS.node_at fs l).
  { intros l Hl. unfold FS.node_at. destruct l; [done | by apply Hsame]. }
  split.
  - rewrite <- Hwalk. apply walk_agree; [done |]. intros k _.
    apply Hnodes. simpl. apply prefix_take.
  - rewrite <- Hnode. apply Hnodes. unfold FS.normalize.
    by rewrite normalize_plain.
Qed.

(** ** Building a project and starting a chat *)

(** X28.  When git changes nothing outside the directory [.git] and
    [_initialize_git] returns [True], the [.gitignore] of the project
    holds the text of [_initialize_git], whatever it held before (one
    that a plan entry wrote is replaced), and every other entry outside
    [.git] is what it was. *)
Theorem gitignore_is_replaced git fs project_path fs' :
  (∀ args cwd fs0 l,
      ¬ (cwd ++ [lit ".git"]) `prefix_of` l →
      (git args cwd fs0).1 !! l = fs0 !! l) →
  Forall (λ s, FS.special s = false) project_path →
  _initialize_git git fs project_path = (fs', true) →
  FS.read fs' (project_path ++ [lit ".gitignore"]) = inr gitignore_content
  ∧ ∀ l, l ≠ project_path ++ [lit ".gitignore"] →
         ¬ (project_path ++ [lit ".git"]) `prefix_of` l →
         fs' !! l = fs !! l.
Proof.
  intros Hframe Hplain. unfold _initialize_git.
  rewrite joinpath_name by done.
  set (p := project_path ++ [lit ".gitignore"]).
  assert (Hp : Forall (λ s, FS.special s = false) p).
  { apply Forall_app. split; [done | by constructor]. }
  assert (Hnorm : FS.normalize p = p) by (unfold FS.normalize; by rewrite normalize_plain).
  set (dot_git := project_path ++ [lit ".git"]).
  assert (Hout : ∀ l, l `prefix_of` p → ¬ dot_git `prefix_of` l).
  { intros l Hl Hgit. assert (Hpre : dot_git `prefix_of` p) by (by etrans).
    apply prefix_length_eq in Hpre; [|unfold p, dot_git; by rewrite !length_app].
    apply app_inj_1 in Hpre as [_ Hname]; [|done]. by vm_compute in Hname. }
  destruct (git [lit "git"; lit "init"] project_path fs) as [fs1 [|]] eqn:Hinit; [|done].
  destruct (FS.write fs1 p gitignore_content) as [fs2 [e|]] eqn:Hw; [done |].
  destruct (git [lit "git"; lit "add"; lit "."] project_path fs2) as [fs3 [|]] eqn:Hadd;
    [|done].
  intros Hcommit.
  assert (H1 : ∀ l, ¬ dot_git `prefix_of` l → fs1 !! l = fs !! l).
  { intros l Hl.
    generalize (Hframe [lit "git"; lit "init"] project_path fs l Hl).
    by rewrite Hinit. }
  assert (H3 : ∀ l, ¬ dot_git `prefix_of` l → fs3 !! l = fs2 !! l).
  { intros l Hl.
    generalize (Hframe [lit "git"; lit "add"; lit "."] project_path fs2 l Hl).
    by rewrite Hadd. }
  assert (H4 : ∀ l, ¬ dot_git `prefix_of` l → fs' !! l = fs3 !! l).
  { intros l Hl.
    generalize (Hframe [lit "git"; lit "commit"; lit "-m";
                        lit "Initial commit: Project scaffolding"]
                  project_path fs3 l Hl).
    by rewrite Hcommit. }
  split.
  - apply (read_agree fs3); [done | intros l Hl; by apply H4, Hout |].
    apply (read_agree fs2); [done | intros l Hl; by apply H3, Hout |].
    by eapply write_read.
  - intros l Hne Hl. rewrite H4, H3 by done.
    rewrite (write_other _ _ _ _ _ _ Hw) by (by rewrite Hnorm). by apply H1.
Qed.

Lemma gitignore_is_replaced_witness :
  let git := λ (args : list str) (cwd : Path) (fs0 : filesystem),
               (<[cwd ++ [lit ".git"] := Dir]> fs0, true) in
  let fs := <[Sample.root ++ [lit ".gitignore"] := File (lit "*.log")]> Sample.fs in
  FS.read (_initialize_git git fs Sample.root).1 (Sample.root ++ [lit ".gitignore"])
  = inr gitignore_content.
Proof.
  intros git fs.
  apply (gitignore_is_replaced git fs Sample.root (_initialize_git git fs Sample.root).1).
  - intros args cwd fs0 l Hl. unfold git. cbn [fst].
    apply lookup_insert_ne. by intros <-.
  - repeat constructor.
  - rewrite (surjective_pairing (_initialize_git _ _ _)) at 1.
    f_equal; vm_compute; reflexivity.
Defined.



(** X30.  When [chat_mode] runs, the history of the object opens with the
    system message and the greeting for the project that was loaded (or
    was current), and what the turns add comes after them: messages of
    the user and of the assistant.  The file listing in the system
    message lists, in some order, the files that [_get_project_files]
    finds when the chat starts: files that edits create later are not
    in it. *)
Theorem chat_history_opens_with_first_listing
    str_exc fill completion package_dependencies path_str
    a fs project_path cwd inputs a' fs' :
  chat_mode str_exc fill completion package_dependencies path_str
    a fs project_path cwd inputs = Some (a', fs') →
  ∃ ctx listing added,
    current_project a' = Some ctx
    ∧ listing ≡ₚ _get_project_files fs (current_project_path ctx)
    ∧ assistant_messages a'
      = {| role := System;
           content :=
             system_prompt (current_project_name ctx)
               (PyStr.join (lit ", ") (current_project_technologies ctx))
               (path_str (current_project_path ctx))
               (PyStr.join [nl] listing) |}
        :: {| role := Assistant;
              content := greeting (current_project_name ctx)
                           (path_str (current_project_path ctx)) |}
        :: added
    ∧ Forall (λ m, role m = User ∨ role m = Assistant) added.
Proof.
  unfold chat_mode.
  destruct (match project_path with
            | Some (_ :: _ as p) => _
            | _ => current_project a
            end) as [ctx|]; [|done].
  intros [= <- <-]. cbn [current_project assistant_messages].
  match goal with
  | |- context [chat_loop str_exc fill ?r completion ?s inputs] =>
      destruct (chat_loop_adds str_exc fill r completion s inputs)
        as (added & Hm & Hroles)
  end.
  exists ctx, (_get_project_files fs (current_project_path ctx)), added.
  split; [done |]. split; [done |]. split; [|done].
  by rewrite Hm.
Qed.

Lemma chat_history_opens_with_first_listing_witness :
  ∃ a' fs' ctx listing added,
    sample_chat = Some (a', fs')
    ∧ current_project a' = Some ctx
    ∧ listing ≡ₚ _get_project_files Sample.fs_manifest (current_project_path ctx)
    ∧ assistant_messages a'
      = {| role := System;
           content :=
             system_prompt (current_project_name ctx)
               (PyStr.join (lit ", ") (current_project_technologies ctx))
               (sample_path_str (current_project_path ctx))
               (PyStr.join [nl] listing) |}
        :: {| role := Assistant;
              content := greeting (current_project_name ctx)
                           (sample_path_str (current_project_path ctx)) |}
        :: added.
Proof.
  assert (Hsome : is_Some sample_chat).
  { apply (bool_decide_unpack _). vm_compute. exact I. }
  destruct sample_chat as [[a' fs']|] eqn:Hr; [|by destruct Hsome].
  unfold sample_chat in Hr.
  destruct (chat_history_opens_with_first_listing _ _ _ _ _ _ _ _ _ _ _ _ Hr)
    as (ctx & listing & added & Hctx & Hl & Hm & _).
  exists a', fs', ctx, listing, added.
  split; [reflexivity | split; [exact Hctx | split; [exact Hl | exact Hm]]].
Defined.
